(** * gt4py.next embedded execution: NdArrayField, connectivities, concat_where
      and the program front-end parser

    A shallow embedding of [gt4py/next/embedded/nd_array_field.py] and
    [gt4py/next/ffront/func_to_past.py].  Python exceptions are values of
    [exn], fallible functions return [result], and the array namespace
    ([xp]: NumPy, CuPy, JAX) is modelled by dense row-major arrays of
    integers. *)

From Stdlib Require Import ZArith List Bool Arith Lia.
From Stdlib Require String.
From Equations Require Import Equations.
Import ListNotations String.StringSyntax.
Abbreviation string := String.string.
Open Scope string_scope.
Open Scope Z_scope.

Set Implicit Arguments.
Set Warnings "-register-all".

(** ** Exceptions and results *)

(** Modelled from the spec: the source location a DSL-level error carries
    ([gt4py.eve.SourceLocation]). *)
Record SourceLocation : Type := mkSourceLocation {
  loc_filename : string;
  loc_line : nat;
  loc_column : nat
}.

(** Modelled from the spec: the type specifications of
    [gt4py.next.type_system.type_specifications], as far as the parser tells
    them apart: data types, deferred types and all others. *)
Inductive TypeSpec : Type :=
| DataType (spec : string)
| DeferredType (constraint : string)
| OtherType (spec : string).

(** Python exceptions.  Modelled from the spec: [NonContiguousDomain] and
    [IndexOutOfBounds] of [embedded.exceptions], and the last four, the
    DSL-level errors of [gt4py.next.errors], each carrying the location it
    was raised for.  [Unmodelled] marks behaviour outside this model and is
    not a Python exception. *)
Inductive exn : Type :=
| ValueError (msg : string)
| NotImplementedError (msg : string)
| NonContiguousDomain (msg : string)
| AssertionError (msg : string)
| IndexError (msg : string)
| IndexOutOfBounds
| KeyError (msg : string)
| TypeError (msg : string)
| AxisError
| Unmodelled (what : string)
| DSLError (location : SourceLocation) (message : string)
| MissingParameterAnnotationError (location : SourceLocation) (param_name : string)
| InvalidParameterAnnotationError (location : SourceLocation) (param_name : string)
    (type_ : TypeSpec)
| UnsupportedPythonFeatureError (location : SourceLocation) (feature : string).

Inductive result (A : Type) : Type :=
| Ok (a : A)
| Raise (e : exn).
Arguments Ok {A} a.
Arguments Raise {A} e.

Definition bind {A B} (c : result A) (k : A -> result B) : result B :=
  match c with
  | Ok a => k a
  | Raise e => Raise e
  end.

Declare Scope result_scope.
Delimit Scope result_scope with result.
Notation "x <- c ;; k" := (bind c (fun x => k))
  (at level 61, c at next level, right associativity) : result_scope.
Notation "' p <- c ;; k" := (bind c (fun x => let 'p := x in k))
  (at level 61, p pattern, c at next level, right associativity) : result_scope.
Notation "c ;;; k" := (bind c (fun _ => k))
  (at level 61, right associativity) : result_scope.
Open Scope result_scope.

(** Python's [assert]. *)
Definition assert (b : bool) : result unit :=
  if b then Ok tt else Raise (AssertionError "").

(** [[f(x) for x in l]] where [f] may raise: the first exception wins. *)
Section MapM.
Context {A B : Type} (f : A -> result B).

Fixpoint mapM (l : list A) : result (list B) :=
  match l with
  | [] => Ok []
  | x :: l' => y <- f x ;; ys <- mapM l' ;; Ok (y :: ys)
  end.
End MapM.

(** ** [gt4py.next.common]: dimensions, ranges and domains

    The module is used by the field implementation but is not among the
    verified sources; every definition of this section is modelled from the
    specification (sections 3 and 4.1). *)

(** Modelled from the spec: [common.DimensionKind]. *)
Inductive DimensionKind : Type := HORIZONTAL | VERTICAL | LOCAL.

(** Modelled from the spec: [common.Dimension], a named axis; two dimensions
    are equal when name and kind agree. *)
Record Dimension : Type := mkDimension {
  dim_value : string;
  dim_kind : DimensionKind
}.

Definition DimensionKind_eqb (a b : DimensionKind) : bool :=
  match a, b with
  | HORIZONTAL, HORIZONTAL | VERTICAL, VERTICAL | LOCAL, LOCAL => true
  | _, _ => false
  end.

Definition Dimension_eqb (a b : Dimension) : bool :=
  String.eqb (dim_value a) (dim_value b) && DimensionKind_eqb (dim_kind a) (dim_kind b).

(** Modelled from the spec: the bound of a [UnitRange], an integer or one of
    the two infinite sentinels ([common.Infinity]). *)
Inductive Bound : Type :=
| NegInf
| Int (z : Z)
| PosInf.

Definition Bound_ltb (a b : Bound) : bool :=
  match a, b with
  | NegInf, NegInf => false
  | NegInf, _ => true
  | Int _, NegInf => false
  | Int x, Int y => x <? y
  | Int _, PosInf => true
  | PosInf, _ => false
  end.

Definition Bound_eqb (a b : Bound) : bool :=
  match a, b with
  | NegInf, NegInf | PosInf, PosInf => true
  | Int x, Int y => x =? y
  | _, _ => false
  end.

Definition Bound_leb (a b : Bound) : bool := Bound_ltb a b || Bound_eqb a b.
Definition Bound_max (a b : Bound) : Bound := if Bound_ltb a b then b else a.
Definition Bound_min (a b : Bound) : Bound := if Bound_ltb b a then b else a.

(** Shifting a bound by an integer: an infinite bound stays infinite. *)
Definition Bound_add (a : Bound) (k : Z) : Bound :=
  match a with
  | Int z => Int (z + k)
  | inf => inf
  end.

(** Modelled from the spec: [common.UnitRange], the half-open interval
    [[start, stop)] with possibly infinite bounds (section 3 of the
    specification).  The invariant [start <= stop] is kept by the
    constructor [UnitRange_make], which maps every empty interval to the one
    empty range [[0, 0)]. *)
Record UnitRange : Type := mkUnitRange {
  start : Bound;
  stop : Bound
}.

Definition UnitRange_make (a b : Bound) : UnitRange :=
  if Bound_ltb a b then mkUnitRange a b else mkUnitRange (Int 0) (Int 0).

Definition UnitRange_infinite : UnitRange := mkUnitRange NegInf PosInf.

Definition is_left_finite (r : UnitRange) : bool :=
  match start r with Int _ => true | _ => false end.
Definition is_right_finite (r : UnitRange) : bool :=
  match stop r with Int _ => true | _ => false end.
Definition UnitRange_is_finite (r : UnitRange) : bool :=
  is_left_finite r && is_right_finite r.

Definition UnitRange_eqb (r1 r2 : UnitRange) : bool :=
  Bound_eqb (start r1) (start r2) && Bound_eqb (stop r1) (stop r2).

(** Modelled from the spec: [len(r)], undefined (an error) for an infinite
    range. *)
Definition UnitRange_len (r : UnitRange) : result nat :=
  match start r, stop r with
  | Int a, Int b => Ok (Z.to_nat (b - a))
  | _, _ => Raise (ValueError "Cannot compute length of open 'UnitRange'.")
  end.

Definition UnitRange_is_empty (r : UnitRange) : bool :=
  match start r, stop r with
  | Int a, Int b => b <=? a
  | _, _ => false
  end.

(** [r1 & r2]: the larger start and the smaller stop. *)
Definition UnitRange_and (r1 r2 : UnitRange) : UnitRange :=
  UnitRange_make (Bound_max (start r1) (start r2)) (Bound_min (stop r1) (stop r2)).

(** [r + k]: shift by an offset. *)
Definition UnitRange_add (r : UnitRange) (k : Z) : UnitRange :=
  UnitRange_make (Bound_add (start r) k) (Bound_add (stop r) k).

(** [r1 <= r2]: inclusion. *)
Definition UnitRange_le (r1 r2 : UnitRange) : bool :=
  Bound_leb (start r2) (start r1) && Bound_leb (stop r1) (stop r2).

(** [k in r]. *)
Definition UnitRange_contains (r : UnitRange) (k : Z) : bool :=
  Bound_leb (start r) (Int k) && Bound_ltb (Int k) (stop r).

(** A range as the constructor leaves it. *)
Definition UnitRange_canonical (r : UnitRange) : Prop :=
  UnitRange_make (start r) (stop r) = r.

(** Modelled from the spec: [common.NamedRange], a (dimension, range) pair,
    and [common.Domain], the ordered sequence of named ranges with pairwise
    different dimensions. *)
Definition NamedRange : Type := (Dimension * UnitRange)%type.
Definition Domain : Type := list NamedRange.

Definition dims (d : Domain) : list Dimension := map fst d.
Definition ranges (d : Domain) : list UnitRange := map snd d.
Definition ndim (d : Domain) : nat := length d.

Definition NamedRange_eqb (a b : NamedRange) : bool :=
  Dimension_eqb (fst a) (fst b) && UnitRange_eqb (snd a) (snd b).

Fixpoint Domain_eqb (d1 d2 : Domain) : bool :=
  match d1, d2 with
  | [], [] => true
  | a :: d1', b :: d2' => NamedRange_eqb a b && Domain_eqb d1' d2'
  | _, _ => false
  end.

Definition mem_dim (x : Dimension) (l : list Dimension) : bool :=
  existsb (Dimension_eqb x) l.

Fixpoint unique_dims (l : list Dimension) : bool :=
  match l with
  | [] => true
  | x :: l' => negb (mem_dim x l') && unique_dims l'
  end.

(** Modelled from the spec: the constructor [common.Domain(...)];
    dimensions must be unique. *)
Definition Domain_make (nrs : list NamedRange) : result Domain :=
  if unique_dims (map fst nrs) then Ok nrs
  else Raise (NotImplementedError "Domain dimensions must be unique.").

(** Modelled from the spec: [Domain(dims=..., ranges=...)]; both sequences
    have the same length. *)
Definition Domain_of_dims_ranges (ds : list Dimension) (rs : list UnitRange)
  : result Domain :=
  assert (length ds =? length rs)%nat ;;;
  Domain_make (combine ds rs).

(** Modelled from the spec: [domain.dim_index(dim)]; the same search is
    [embedded_common._find_index_of_dim]. *)
Fixpoint find_dim {A} (dim : Dimension) (l : list (Dimension * A)) : option nat :=
  match l with
  | [] => None
  | (d, _) :: l' =>
      if Dimension_eqb d dim then Some 0%nat
      else option_map S (find_dim dim l')
  end.

Definition dim_index (d : Domain) (dim : Dimension) : option nat := find_dim dim d.

(** Modelled from the spec: [domain[dim]]. *)
Definition Domain_get (d : Domain) (dim : Dimension) : result NamedRange :=
  match dim_index d dim with
  | Some i =>
      match nth_error d i with
      | Some nr => Ok nr
      | None => Raise (KeyError "No Dimension of type in Domain.")
      end
  | None => Raise (KeyError "No Dimension of type in Domain.")
  end.

(** Modelled from the spec: [domain.replace(index, *named_ranges)]. *)
Definition Domain_replace (d : Domain) (index : nat) (nrs : list NamedRange)
  : result Domain :=
  Domain_make (firstn index d ++ nrs ++ skipn (S index) d).

Definition Domain_is_empty (d : Domain) : bool :=
  existsb UnitRange_is_empty (ranges d).

Definition Domain_is_finite (d : Domain) : bool :=
  forallb UnitRange_is_finite (ranges d).

(** Modelled from the spec: [domain.shape]. *)
Definition Domain_shape (d : Domain) : result (list nat) :=
  mapM UnitRange_len (ranges d).

(** Modelled from the spec: [common.promote_dims], the union of the
    dimensions of its arguments, each kept at its first appearance. *)
Fixpoint promote_dims_into (acc l : list Dimension) : list Dimension :=
  match l with
  | [] => acc
  | x :: l' => promote_dims_into (if mem_dim x acc then acc else acc ++ [x]) l'
  end.

Definition promote_dims (ls : list (list Dimension)) : list Dimension :=
  fold_left promote_dims_into ls [].

(** The range a domain gives to [dim]; a dimension it does not have is
    unrestricted. *)
Definition broadcast_range (d : Domain) (dim : Dimension) : UnitRange :=
  match dim_index d dim with
  | Some i => nth i (ranges d) UnitRange_infinite
  | None => UnitRange_infinite
  end.

(** Modelled from the spec: [d1 & d2], the per-dimension intersection over
    the promoted dimensions. *)
Definition Domain_and (d1 d2 : Domain) : Domain :=
  map (fun dim => (dim, UnitRange_and (broadcast_range d1 dim) (broadcast_range d2 dim)))
      (promote_dims [dims d1; dims d2]).

(** Modelled from the spec: [embedded_common.domain_intersection] of a
    sequence of domains, the pairwise fold. *)
Definition domain_intersection (ds : list Domain) : Domain :=
  fold_left Domain_and ds [].

(** ** The array namespace [xp]

    An array is its dtype, its shape and its entries in row-major order.
    Booleans are stored as [0] and [1].  The entries of a floating-point
    array are kept as opaque payloads: operations that only move entries
    (indexing, gather, concatenation) are defined on them, arithmetic on them
    is outside the model and yields [Unmodelled], which is not a Python
    exception. *)

Inductive DType : Type := BoolDType | Int32DType | Int64DType | Float64DType.

Definition DType_eqb (a b : DType) : bool :=
  match a, b with
  | BoolDType, BoolDType | Int32DType, Int32DType | Int64DType, Int64DType
  | Float64DType, Float64DType => true
  | _, _ => false
  end.



(** Conversion of an integer to a dtype: truth value for booleans,
    two's-complement wrap-around for the fixed-width integers. *)
Definition wrap (dt : DType) (z : Z) : Z :=
  match dt with
  | BoolDType => if z =? 0 then 0 else 1
  | Int32DType => (z + 2 ^ 31) mod 2 ^ 32 - 2 ^ 31
  | Int64DType => (z + 2 ^ 63) mod 2 ^ 64 - 2 ^ 63
  | Float64DType => z
  end.

Record ndarray : Type := mk_ndarray {
  dtype : DType;
  shape : list nat;
  data : list Z
}.

(** Number of entries of an array of shape [sh]. *)
Definition size (sh : list nat) : nat := fold_right Nat.mul 1%nat sh.

Definition wf_ndarray (a : ndarray) : Prop := length (data a) = size (shape a).

Definition list_nat_eqb (l1 l2 : list nat) : bool :=
  if list_eq_dec Nat.eq_dec l1 l2 then true else false.

(** [f 0 ++ f 1 ++ ... ++ f (n-1)]. *)
Fixpoint block {A} (f : nat -> list A) (n : nat) : list A :=
  match n with
  | O => []
  | S n' => block f n' ++ f n'
  end.

(** All multi-indices of an array of shape [sh], in row-major order. *)
Fixpoint indices (sh : list nat) : list (list nat) :=
  match sh with
  | [] => [[]]
  | n :: sh' => block (fun i => map (cons i) (indices sh')) n
  end.

(** Row-major offset of a multi-index. *)
Fixpoint ravel (sh idx : list nat) : nat :=
  match sh, idx with
  | _ :: sh', i :: idx' => (i * size sh' + ravel sh' idx')%nat
  | _, _ => 0%nat
  end.

(** [a[idx]] for a full multi-index. *)
Definition item (a : ndarray) (idx : list nat) : Z :=
  nth (ravel (shape a) idx) (data a) 0.

(** The array of shape [sh] whose entry at [idx] is [f idx]. *)
Definition build (dt : DType) (sh : list nat) (f : list nat -> Z) : ndarray :=
  mk_ndarray dt sh (map f (indices sh)).

Definition in_bounds (sh idx : list nat) : Prop := Forall2 lt idx sh.

(** *** Basic indexing: [a[i0, i1, ...]] with slices, integers and [None] *)

Inductive index_item : Type :=
| slice (lo hi : option Z)
| int_index (i : Z)
| newaxis.

(** [slice(lo, hi).indices(n)], for the step [1]. *)
Definition slice_bound (n : nat) (default : Z) (b : option Z) : Z :=
  match b with
  | None => default
  | Some k => if k <? 0 then Z.max (k + Z.of_nat n) 0 else Z.min k (Z.of_nat n)
  end.

(** What an index tuple does with the axes of the indexed array: [Sel] keeps
    [len] entries of an axis from [first] on, [Pick] fixes an axis at one
    position (the axis disappears), [New] inserts an axis of length one. *)
Inductive axis_sel : Type :=
| Sel (first len : nat)
| Pick (i : nat)
| New.

Fixpoint index_plan (sh : list nat) (items : list index_item) : result (list axis_sel) :=
  match items with
  | [] => Ok (map (fun n => Sel 0 n) sh)
  | newaxis :: items' => p <- index_plan sh items' ;; Ok (New :: p)
  | slice lo hi :: items' =>
      match sh with
      | [] => Raise (IndexError "too many indices for array")
      | n :: sh' =>
          p <- index_plan sh' items' ;;
          let s := slice_bound n 0 lo in
          let e := slice_bound n (Z.of_nat n) hi in
          Ok (Sel (Z.to_nat s) (Z.to_nat (e - s)) :: p)
      end
  | int_index i :: items' =>
      match sh with
      | [] => Raise (IndexError "too many indices for array")
      | n :: sh' =>
          let i' := if i <? 0 then i + Z.of_nat n else i in
          if (0 <=? i') && (i' <? Z.of_nat n)
          then p <- index_plan sh' items' ;; Ok (Pick (Z.to_nat i') :: p)
          else Raise (IndexError "index is out of bounds for axis")
      end
  end.

Fixpoint plan_shape (p : list axis_sel) : list nat :=
  match p with
  | [] => []
  | Sel _ len :: p' => len :: plan_shape p'
  | Pick _ :: p' => plan_shape p'
  | New :: p' => 1%nat :: plan_shape p'
  end.

(** The position in the indexed array of the entry at [ridx] in the result. *)
Fixpoint plan_source (p : list axis_sel) (ridx : list nat) : list nat :=
  match p with
  | [] => []
  | Sel s _ :: p' =>
      match ridx with
      | r :: ridx' => (s + r)%nat :: plan_source p' ridx'
      | [] => []
      end
  | Pick i :: p' => i :: plan_source p' ridx
  | New :: p' => plan_source p' (tl ridx)
  end.

Definition getitem (a : ndarray) (items : list index_item) : result ndarray :=
  p <- index_plan (shape a) items ;;
  Ok (build (dtype a) (plan_shape p) (fun ridx => item a (plan_source p ridx))).

(** *** Conversion, broadcasting and elementwise functions *)

(** [xp.asarray(a, dtype=dt)]: the array itself when no conversion is asked
    for or needed. *)
Definition asarray (a : ndarray) (dt : option DType) : result ndarray :=
  match dt with
  | None => Ok a
  | Some t =>
      if DType_eqb (dtype a) t then Ok a
      else match dtype a, t with
           | Float64DType, _ | _, Float64DType =>
               Raise (Unmodelled "conversion from or to a floating-point dtype")
           | _, _ => Ok (mk_ndarray t (shape a) (map (wrap t) (data a)))
           end
  end.

(** A scalar as a zero-dimensional array. *)
Inductive Scalar : Type := mkScalar (dt : DType) (z : Z).


Definition scalar_array (s : Scalar) : ndarray :=
  let 'mkScalar dt z := s in mk_ndarray dt [] [z].

(** Broadcasting of two shapes: the shorter one is padded with ones on the
    left, then two lengths agree when they are equal or one of them is one. *)
Definition pad_shape (n : nat) (s : list nat) : list nat :=
  repeat 1%nat (n - length s) ++ s.

Definition broadcast_axis (a b : nat) : result nat :=
  if (a =? b)%nat then Ok a
  else if (a =? 1)%nat then Ok b
  else if (b =? 1)%nat then Ok a
  else Raise (ValueError "operands could not be broadcast together").

Definition broadcast_shapes (s1 s2 : list nat) : result (list nat) :=
  let n := Nat.max (length s1) (length s2) in
  mapM (fun p : nat * nat => broadcast_axis (fst p) (snd p))
       (combine (pad_shape n s1) (pad_shape n s2)).

Fixpoint broadcast_shapes_list (shs : list (list nat)) : result (list nat) :=
  match shs with
  | [] => Ok []
  | sh :: shs' => r <- broadcast_shapes_list shs' ;; broadcast_shapes sh r
  end.

(** The position in an operand of shape [sh] that is read for position [idx]
    of the broadcast result: leading axes the operand lacks are dropped, an
    axis of length one is read at [0]. *)
Definition broadcast_index (sh idx : list nat) : list nat :=
  map (fun ni => if (fst ni =? 1)%nat then 0%nat else snd ni)
      (combine sh (skipn (length idx - length sh) idx)).

(** [xp.broadcast_to(a, sh)]. *)
Definition broadcast_to (a : ndarray) (sh : list nat) : result ndarray :=
  r <- broadcast_shapes (shape a) sh ;;
  if list_nat_eqb r sh
  then Ok (build (dtype a) sh (fun idx => item a (broadcast_index (shape a) idx)))
  else Raise (ValueError "operands could not be broadcast together").

(** Type promotion: the larger of the operand dtypes. *)
Definition dtype_rank (dt : DType) : nat :=
  match dt with BoolDType => 0 | Int32DType => 1 | Int64DType => 2 | Float64DType => 3 end.

Definition result_type (dts : list DType) : DType :=
  fold_right (fun a b => if (dtype_rank a <? dtype_rank b)%nat then b else a) BoolDType dts.

Definition has_float (args : list ndarray) : bool :=
  existsb (fun a => DType_eqb (dtype a) Float64DType) args.

(** The elementwise function [f] applied to broadcast operands, with entries
    of dtype [dt]. *)
Definition broadcast_apply (dt : DType) (f : list Z -> Z) (args : list ndarray)
  : result ndarray :=
  sh <- broadcast_shapes_list (map shape args) ;;
  Ok (build dt sh
        (fun idx => wrap dt (f (map (fun a => item a (broadcast_index (shape a) idx)) args)))).

Definition elementwise (dt : DType) (f : list Z -> Z) (args : list ndarray)
  : result ndarray :=
  if has_float args then Raise (Unmodelled "floating-point arithmetic")
  else broadcast_apply dt f args.

Definition Z_of_bool (b : bool) : Z := if b then 1 else 0.
Definition truth (z : Z) : bool := negb (z =? 0).

Definition unary (f : Z -> Z) (args : list Z) : Z :=
  match args with [x] => f x | _ => 0 end.
Definition binary (f : Z -> Z -> Z) (args : list Z) : Z :=
  match args with [x; y] => f x y | _ => 0 end.
Definition ternary (f : Z -> Z -> Z -> Z) (args : list Z) : Z :=
  match args with [x; y; z] => f x y z | _ => 0 end.

Definition arity (n : nat) (args : list ndarray) : result unit :=
  if (length args =? n)%nat then Ok tt
  else Raise (TypeError "invalid number of arguments").

(** [getattr(xp, name)], for the array functions of this model. *)
Definition xp_getattr (name : string) (args : list ndarray) : result ndarray :=
  let dt := result_type (map dtype args) in
  let arith n f :=
    arity n args ;;;
    if DType_eqb dt BoolDType
    then Raise (TypeError "the function is not supported for boolean arrays")
    else elementwise dt f args in
  let compare f :=
    arity 2 args ;;; elementwise BoolDType (binary (fun x y => Z_of_bool (f x y))) args in
  let logical f :=
    arity 2 args ;;;
    elementwise BoolDType (binary (fun x y => Z_of_bool (f (truth x) (truth y)))) args in
  if String.eqb name "add" then arity 2 args ;;; elementwise dt (binary Z.add) args
  else if String.eqb name "multiply" then arity 2 args ;;; elementwise dt (binary Z.mul) args
  else if String.eqb name "subtract" then arith 2%nat (binary Z.sub)
  else if String.eqb name "negative" then arith 1%nat (unary Z.opp)
  else if String.eqb name "abs" then arity 1 args ;;; elementwise dt (unary Z.abs) args
  else if String.eqb name "minimum" then arity 2 args ;;; elementwise dt (binary Z.min) args
  else if String.eqb name "maximum" then arity 2 args ;;; elementwise dt (binary Z.max) args
  else if String.eqb name "equal" then compare Z.eqb
  else if String.eqb name "not_equal" then compare (fun x y => negb (x =? y))
  else if String.eqb name "less" then compare Z.ltb
  else if String.eqb name "less_equal" then compare Z.leb
  else if String.eqb name "greater" then compare Z.gtb
  else if String.eqb name "greater_equal" then compare Z.geb
  else if String.eqb name "logical_and" then logical andb
  else if String.eqb name "logical_or" then logical orb
  else if String.eqb name "logical_xor" then logical xorb
  else if String.eqb name "invert" then
    arity 1 args ;;;
    elementwise dt (unary (fun x => if DType_eqb dt BoolDType
                                    then Z_of_bool (negb (truth x)) else - x - 1)) args
  else if String.eqb name "where" then
    arity 3 args ;;;
    broadcast_apply (result_type (map dtype (tl args)))
                (ternary (fun c x y => if truth c then x else y)) args
  else Raise (Unmodelled "array function").

(** [xp.where(cond, x, y)]. *)
Definition xp_where (cond x y : ndarray) : result ndarray :=
  xp_getattr "where" [cond; x; y].

(** *** Reductions, search and gather *)

Definition list_min (l : list Z) : result Z :=
  match l with
  | [] => Raise (ValueError "zero-size array to reduction operation minimum which has no identity")
  | x :: l' => Ok (fold_left Z.min l' x)
  end.

Definition list_max (l : list Z) : result Z :=
  match l with
  | [] => Raise (ValueError "zero-size array to reduction operation maximum which has no identity")
  | x :: l' => Ok (fold_left Z.max l' x)
  end.

Definition float_guard (a : ndarray) : result unit :=
  if DType_eqb (dtype a) Float64DType
  then Raise (Unmodelled "floating-point arithmetic") else Ok tt.

(** [xp.min(a)] and [xp.max(a)] over all entries. *)
Definition xp_min (a : ndarray) : result Z := float_guard a ;;; list_min (data a).
Definition xp_max (a : ndarray) : result Z := float_guard a ;;; list_max (data a).

(** [xp.all(a)]. *)
Definition xp_all (a : ndarray) : bool := forallb truth (data a).

(** [xp.nonzero(a)]: one coordinate array per axis, the positions of the
    entries that are not zero in row-major order. *)
Definition nonzero_positions (a : ndarray) : list (list nat) :=
  filter (fun idx => truth (item a idx)) (indices (shape a)).

Definition xp_nonzero (a : ndarray) : result (list ndarray) :=
  match shape a with
  | [] => Raise (ValueError "Calling nonzero on 0d arrays is not allowed.")
  | _ =>
      let nnz := nonzero_positions a in
      Ok (map (fun k => mk_ndarray Int64DType [length nnz]
                          (map (fun idx => Z.of_nat (nth k idx 0%nat)) nnz))
              (seq 0 (length (shape a))))
  end.

(** Removal and insertion of one position of a list. *)
Definition remove_at {A} (k : nat) (l : list A) : list A := firstn k l ++ skipn (S k) l.
Definition insert_at {A} (k : nat) (x : A) (l : list A) : list A :=
  firstn k l ++ x :: skipn k l.

(** [xp.sum], [xp.max] and [xp.min] with an [axis]. *)
Definition reduce_axis (dt : DType) (red : list Z -> result Z) (a : ndarray) (axis : nat)
  : result ndarray :=
  float_guard a ;;;
  match nth_error (shape a) axis with
  | None => Raise AxisError
  | Some n =>
      let sh := remove_at axis (shape a) in
      vals <- mapM (fun idx => red (map (fun j => item a (insert_at axis j idx)) (seq 0 n)))
                   (indices sh) ;;
      Ok (mk_ndarray dt sh (map (wrap dt) vals))
  end.

Definition xp_sum_axis (a : ndarray) (axis : nat) : result ndarray :=
  reduce_axis (if DType_eqb (dtype a) Float64DType then Float64DType else Int64DType)
              (fun l => Ok (fold_left Z.add l 0)) a axis.
Definition xp_max_axis (a : ndarray) (axis : nat) : result ndarray :=
  reduce_axis (dtype a) list_max a axis.
Definition xp_min_axis (a : ndarray) (axis : nat) : result ndarray :=
  reduce_axis (dtype a) list_min a axis.

(** [xp.take(a, ind, axis=axis)]: negative indices count from the end. *)
Definition take (a ind : ndarray) (axis : nat) : result ndarray :=
  match nth_error (shape a) axis with
  | None => Raise AxisError
  | Some n =>
      if forallb (fun j => (- Z.of_nat n <=? j) && (j <? Z.of_nat n)) (data ind)
      then
        let r := length (shape ind) in
        Ok (build (dtype a)
              (firstn axis (shape a) ++ shape ind ++ skipn (S axis) (shape a))
              (fun idx =>
                 let j := item ind (firstn r (skipn axis idx)) in
                 let j' := if j <? 0 then j + Z.of_nat n else j in
                 item a (firstn axis idx ++ Z.to_nat j' :: skipn (axis + r) idx)))
      else Raise (IndexError "index is out of bounds for axis")
  end.

(** [xp.concatenate(arrays, axis=axis)]. *)
Fixpoint concat_item (arrs : list ndarray) (axis : nat) (idx : list nat) : Z :=
  match arrs with
  | [] => 0
  | a :: arrs' =>
      let n := nth axis (shape a) 0%nat in
      let i := nth axis idx 0%nat in
      if (i <? n)%nat then item a idx
      else concat_item arrs' axis (firstn axis idx ++ (i - n)%nat :: skipn (S axis) idx)
  end.

Definition concatenate (arrs : list ndarray) (axis : nat) : result ndarray :=
  match arrs with
  | [] => Raise (ValueError "need at least one array to concatenate")
  | a :: arrs' =>
      match nth_error (shape a) axis with
      | None => Raise AxisError
      | Some _ =>
          if forallb (fun b => list_nat_eqb (remove_at axis (shape b)) (remove_at axis (shape a))
                               && (length (shape b) =? length (shape a))%nat) arrs'
          then
            let total := fold_right (fun b acc => (nth axis (shape b) 0 + acc)%nat) 0%nat arrs in
            Ok (build (result_type (map dtype arrs))
                  (firstn axis (shape a) ++ total :: skipn (S axis) (shape a))
                  (concat_item arrs axis))
          else Raise (ValueError "all the input array dimensions except for the concatenation axis must match exactly")
      end
  end.

(** [xp.empty(shape)]: a floating-point array, with unspecified entries. *)
Definition xp_empty (sh : list nat) : ndarray :=
  build Float64DType sh (fun _ => 0).

(** ** [NdArrayField] *)

Record NdArrayField : Type := mkNdArrayField {
  _domain : Domain;
  _ndarray : ndarray
}.

Definition domain (f : NdArrayField) : Domain := _domain f.
Definition ndarray_of (f : NdArrayField) : ndarray := _ndarray f.
Definition field_dtype (f : NdArrayField) : DType := dtype (_ndarray f).

(** An operand of a builtin: a field or a scalar. *)
Inductive value : Type :=
| VField (f : NdArrayField)
| VScalar (s : Scalar).

Definition field_domains (fields : list value) : list Domain :=
  flat_map (fun v => match v with VField f => [domain f] | VScalar _ => [] end) fields.

(** [all(s == 1 or len(r) == s for r, s in zip(ranges, shape))]: the length of
    a range is only asked for when the axis is not of length one. *)
Fixpoint shape_matches (rs : list UnitRange) (sh : list nat) : result bool :=
  match rs, sh with
  | r :: rs', s :: sh' =>
      ok <- (if (s =? 1)%nat then Ok true
             else n <- UnitRange_len r ;; Ok (n =? s)%nat) ;;
      if ok then shape_matches rs' sh' else Ok false
  | _, _ => Ok true
  end.

(** [NdArrayField.from_array(data, domain=domain, dtype=dtype)].  The two
    assertions on the scalar type of the array and on the type of the
    dimensions hold for every array and every domain of this model. *)
Definition from_array (data : ndarray) (dom : Domain) (dt : option DType)
  : result NdArrayField :=
  array <- asarray data dt ;;
  match dt with
  | Some t => assert (DType_eqb (dtype array) t)
  | None => Ok tt
  end ;;;
  assert (length dom =? length (shape array))%nat ;;;
  ok <- shape_matches (ranges dom) (shape array) ;;
  assert ok ;;;
  Ok (mkNdArrayField dom array).

(** [_get_nd_array_class]: some operand has to be an [NdArrayField]. *)
Definition _get_nd_array_class (fields : list value) : result unit :=
  if existsb (fun v => match v with VField _ => true | VScalar _ => false end) fields
  then Ok tt
  else Raise (AssertionError "No 'NdArrayField' found in the arguments.").

Definition dims_eqb (l1 l2 : list Dimension) : bool :=
  (length l1 =? length l2)%nat
  && forallb (fun p => Dimension_eqb (fst p) (snd p)) (combine l1 l2).

(** [_broadcast(field, new_dimensions)]. *)
Definition _broadcast (field : NdArrayField) (new_dimensions : list Dimension)
  : result NdArrayField :=
  if dims_eqb (dims (domain field)) new_dimensions then Ok field
  else
    let domain_slice :=
      map (fun dim => match find_dim dim (domain field) with
                      | Some _ => slice None None
                      | None => newaxis
                      end) new_dimensions in
    let named_ranges :=
      map (fun dim => match find_dim dim (domain field) with
                      | Some pos => (dim, nth pos (ranges (domain field)) UnitRange_infinite)
                      | None => (dim, UnitRange_infinite)
                      end) new_dimensions in
    arr <- getitem (ndarray_of field) domain_slice ;;
    dom <- Domain_make named_ranges ;;
    from_array arr dom None.

(** An absolute index: a dimension with a range or with a position. *)
Inductive range_or_index : Type :=
| a_range (r : UnitRange)
| an_index (i : Z).

Definition AbsoluteIndexSequence : Type := list (Dimension * range_or_index).

Definition Domain_as_index (d : Domain) : AbsoluteIndexSequence :=
  map (fun nr => (fst nr, a_range (snd nr))) d.

(** A bound of an array slice has to be an integer. *)
Definition slice_offset (b : Bound) (origin : Z) : result Z :=
  match b with
  | Int z => Ok (z - origin)
  | _ => Raise (TypeError "slice indices must be integers or None")
  end.

(** [_compute_slice(rng, domain, pos)]. *)
Definition _compute_slice (rng : range_or_index) (dom : Domain) (pos : nat)
  : result index_item :=
  let r := nth pos (ranges dom) UnitRange_infinite in
  match rng with
  | a_range rg =>
      lo <- match start r with
            | Int s => z <- slice_offset (start rg) s ;; Ok (Some z)
            | _ => Ok None
            end ;;
      hi <- match start r, stop r with
            | Int s, Int _ => z <- slice_offset (stop rg) s ;; Ok (Some z)
            | _, Int _ => Raise (TypeError "slice indices must be integers or None")
            | _, _ => Ok None
            end ;;
      Ok (slice lo hi)
  | an_index i =>
      assert (Domain_is_finite dom) ;;;
      match start r with
      | Int s => Ok (int_index (i - s))
      | _ => Raise (AssertionError "")
      end
  end.

(** [_get_slices_from_domain_slice(domain, domain_slice)]. *)
Definition _get_slices_from_domain_slice (dom : Domain) (domain_slice : AbsoluteIndexSequence)
  : result (list index_item) :=
  mapM (fun pd : nat * Dimension =>
          let (pos_old, dim) := pd in
          match find_dim dim domain_slice with
          | Some pos =>
              match nth_error domain_slice pos with
              | Some (_, index_or_range) => _compute_slice index_or_range dom pos_old
              | None => Ok (slice None None)
              end
          | None => Ok (slice None None)
          end)
       (combine (seq 0 (length dom)) (dims dom)).

(** Modelled from the spec: [embedded_common.sub_domain] for an absolute
    index, the domain a restriction leaves.  A named range replaces the range
    of its dimension and has to lie inside it, a named position removes its
    dimension and has to lie inside its range, the other dimensions stay. *)
Fixpoint sub_domain (dom : Domain) (index : AbsoluteIndexSequence) : result Domain :=
  match dom with
  | [] => Ok []
  | (dim, rng) :: dom' =>
      match find_dim dim index with
      | Some pos =>
          match nth_error index pos with
          | Some (_, a_range idx) =>
              if UnitRange_le idx rng
              then rest <- sub_domain dom' index ;; Ok ((dim, idx) :: rest)
              else Raise IndexOutOfBounds
          | Some (_, an_index i) =>
              if UnitRange_contains rng i then sub_domain dom' index
              else Raise IndexOutOfBounds
          | None => rest <- sub_domain dom' index ;; Ok ((dim, rng) :: rest)
          end
      | None => rest <- sub_domain dom' index ;; Ok ((dim, rng) :: rest)
      end
  end.

(** [NdArrayField._slice(index)], for an absolute index. *)
Definition _slice (self : NdArrayField) (index : AbsoluteIndexSequence)
  : result (Domain * list index_item) :=
  new_domain <- sub_domain (domain self) index ;;
  slice_ <- _get_slices_from_domain_slice (domain self) index ;;
  Ok (new_domain, slice_).

(** [NdArrayField.restrict(index)], also [__getitem__], for an absolute
    index. *)
Definition restrict (self : NdArrayField) (index : AbsoluteIndexSequence)
  : result NdArrayField :=
  ' (new_domain, buffer_slice) <- _slice self index ;;
  new_buffer <- getitem (ndarray_of self) buffer_slice ;;
  new_buffer <- asarray new_buffer None ;;
  from_array new_buffer new_domain None.

(** [_make_builtin(builtin_name, array_builtin_name, reverse)]. *)
Definition _make_builtin (builtin_name array_builtin_name : string) (reverse : bool)
  (fields : list value) : result NdArrayField :=
  _get_nd_array_class fields ;;;
  let op := xp_getattr array_builtin_name in
  let domain_intersection := domain_intersection (field_domains fields) in
  transformed <-
    mapM (fun v =>
            match v with
            | VField f =>
                if Domain_eqb (domain f) domain_intersection
                then asarray (ndarray_of f) None
                else
                  f_broadcasted <- _broadcast f (dims domain_intersection) ;;
                  f_slices <- _get_slices_from_domain_slice
                                (domain f_broadcasted) (Domain_as_index domain_intersection) ;;
                  sliced <- getitem (ndarray_of f_broadcasted) f_slices ;;
                  asarray sliced None
            | VScalar s => Ok (scalar_array s)
            end) fields ;;
  let transformed := if reverse then rev transformed else transformed in
  new_data <- op transformed ;;
  from_array new_data domain_intersection None.

Definition __add__ (self : NdArrayField) (other : value) : result NdArrayField :=
  _make_builtin "add" "add" false [VField self; other].

Definition __sub__ (self : NdArrayField) (other : value) : result NdArrayField :=
  _make_builtin "sub" "subtract" false [VField self; other].

Definition __rsub__ (self : NdArrayField) (other : value) : result NdArrayField :=
  _make_builtin "sub" "subtract" true [VField self; other].

Definition __mul__ (self : NdArrayField) (other : value) : result NdArrayField :=
  _make_builtin "mul" "multiply" false [VField self; other].






(** ** Scenario: the sum of two overlapping fields *)

Definition I_dim : Dimension := mkDimension "I" HORIZONTAL.

Definition named_range (d : Dimension) (a b : Z) : NamedRange :=
  (d, UnitRange_make (Int a) (Int b)).

Definition field_A : NdArrayField :=
  mkNdArrayField [named_range I_dim 0 5] (mk_ndarray Int64DType [5%nat] [0; 1; 2; 3; 4]).

Definition field_B : NdArrayField :=
  mkNdArrayField [named_range I_dim 2 7] (mk_ndarray Int64DType [5%nat] [10; 20; 30; 40; 50]).

(** ** [NdArrayConnectivityField] *)

(** Modelled from the spec: [common.ConnectivityKind], the bitmask that says
    whether applying a connectivity changes the dimension set, the rank or
    the structure of a field. *)
Definition MODIFY_DIMS : Z := 1.
Definition MODIFY_RANK : Z := 2.
Definition MODIFY_STRUCTURE : Z := 4.

(** Modelled from the spec: [common._DEFAULT_SKIP_VALUE], conventionally [-1]. *)
Definition _DEFAULT_SKIP_VALUE : Z := -1.

Record NdArrayConnectivityField : Type := mkNdArrayConnectivityField {
  conn_field : NdArrayField;
  _codomain : Dimension;
  _skip_value : option Z
}.

Definition NdArrayConnectivityField_kind (self : NdArrayConnectivityField) : Z :=
  let kind := MODIFY_STRUCTURE in
  let kind := if (1 <? ndim (domain (conn_field self)))%nat
              then Z.lor (Z.lor kind MODIFY_RANK) MODIFY_DIMS else kind in
  let kind := match dim_index (domain (conn_field self)) (_codomain self) with
              | None => Z.lor kind MODIFY_DIMS
              | Some _ => kind
              end in
  kind.

(** An array function applied to every entry. *)
Definition array_map (dt : DType) (f : Z -> Z) (a : ndarray) : ndarray :=
  mk_ndarray dt (shape a) (map f (data a)).

(** [_relative_ranges_to_domain(relative_ranges, domain)]. *)
Definition _relative_ranges_to_domain (relative_ranges : list UnitRange) (dom : Domain)
  : result Domain :=
  rs <- mapM (fun p : UnitRange * UnitRange =>
                let (ar, rr) := p in
                match start ar with
                | Int s => Ok (UnitRange_add rr s)
                | _ => Raise (Unmodelled "shift of a range by an infinite bound")
                end)
             (combine (ranges dom) relative_ranges) ;;
  Domain_of_dims_ranges (dims dom) rs.

(** [_hypercube(index_array, image_range, xp, skip_value)].  On boolean
    arrays the in-place [|=] is the logical disjunction. *)
Definition _hypercube (index_array : ndarray) (image_range : UnitRange)
  (skip_value : option Z) : result (option (list UnitRange)) :=
  let select_mask :=
    array_map BoolDType (fun x => Z_of_bool (UnitRange_contains image_range x)) index_array in
  nnz <- xp_nonzero select_mask ;;
  slices <- mapM (fun dim_nnz_indices =>
                    lo <- xp_min dim_nnz_indices ;;
                    hi <- xp_max dim_nnz_indices ;;
                    Ok (lo, hi + 1)) nnz ;;
  let as_slices := map (fun s : Z * Z => slice (Some (fst s)) (Some (snd s))) slices in
  hcube <- getitem select_mask as_slices ;;
  hcube <- match skip_value with
           | Some sv =>
               let ignore_mask :=
                 array_map BoolDType (fun x => Z_of_bool (x =? sv)) index_array in
               ignored <- getitem ignore_mask as_slices ;;
               xp_getattr "logical_or" [hcube; ignored]
           | None => Ok hcube
           end ;;
  if negb (xp_all hcube) then Ok None
  else Ok (Some (map (fun s : Z * Z => UnitRange_make (Int (fst s)) (Int (snd s))) slices)).

(** The query of [inverse_image]: a [UnitRange] or a [NamedRange]. *)
Definition image_query : Type := (UnitRange + NamedRange)%type.

(** The body of [inverse_image] that runs when the cache has no entry. *)
Definition inverse_image_compute (self : NdArrayConnectivityField) (image_range : image_query)
  : result Domain :=
  image_range <- match image_range with
                 | inl r => Ok r
                 | inr (dim, r) =>
                     if negb (Dimension_eqb dim (_codomain self))
                     then Raise (ValueError "Dimension does not match the codomain dimension.")
                     else Ok r
                 end ;;
  assert (UnitRange_is_finite image_range) ;;;
  relative_ranges <- _hypercube (ndarray_of (conn_field self)) image_range (_skip_value self) ;;
  match relative_ranges with
  | None => Raise (ValueError "Restriction generates non-contiguous dimensions.")
  | Some rr => _relative_ranges_to_domain rr (domain (conn_field self))
  end.

(** The body of [NdArrayConnectivityField.restrict] that runs when the cache
    has no entry. *)
Definition conn_restrict_compute (self : NdArrayConnectivityField) (index : AbsoluteIndexSequence)
  : result NdArrayConnectivityField :=
  ' (new_domain, buffer_slice) <- _slice (conn_field self) index ;;
  sliced <- getitem (ndarray_of (conn_field self)) buffer_slice ;;
  new_buffer <- asarray sliced None ;;
  Ok (mkNdArrayConnectivityField (mkNdArrayField new_domain new_buffer)
        (_codomain self) (_skip_value self)).

(** *** The memo of a connectivity field

    [_cache] is a dictionary owned by one connectivity field.  The array and
    the domain of that field never change, so an entry is identified by the
    query; [inverse_image] stores domains and [restrict] stores connectivity
    fields. *)

Definition image_query_eqb (a b : image_query) : bool :=
  match a, b with
  | inl r1, inl r2 => UnitRange_eqb r1 r2
  | inr n1, inr n2 => NamedRange_eqb n1 n2
  | _, _ => false
  end.

Definition range_or_index_eqb (a b : range_or_index) : bool :=
  match a, b with
  | a_range r1, a_range r2 => UnitRange_eqb r1 r2
  | an_index i, an_index j => i =? j
  | _, _ => false
  end.

Fixpoint index_eqb (a b : AbsoluteIndexSequence) : bool :=
  match a, b with
  | [], [] => true
  | (d1, x) :: a', (d2, y) :: b' =>
      Dimension_eqb d1 d2 && range_or_index_eqb x y && index_eqb a' b'
  | _, _ => false
  end.

Record Cache : Type := mkCache {
  inverse_images : list (image_query * Domain);
  restrictions : list (AbsoluteIndexSequence * NdArrayConnectivityField)
}.

Definition empty_cache : Cache := mkCache [] [].

Fixpoint cache_get {K V} (eqb : K -> K -> bool) (k : K) (l : list (K * V)) : option V :=
  match l with
  | [] => None
  | (k', v) :: l' => if eqb k k' then Some v else cache_get eqb k l'
  end.

(** [NdArrayConnectivityField.inverse_image(image_range)]: the result and the
    cache it leaves.  An exception leaves the cache as it was. *)
Definition inverse_image (self : NdArrayConnectivityField) (cache : Cache)
  (image_range : image_query) : result (Domain * Cache) :=
  match cache_get image_query_eqb image_range (inverse_images cache) with
  | Some new_dims => Ok (new_dims, cache)
  | None =>
      new_dims <- inverse_image_compute self image_range ;;
      Ok (new_dims,
          mkCache ((image_range, new_dims) :: inverse_images cache) (restrictions cache))
  end.

(** [NdArrayConnectivityField.restrict(index)], with the same cache. *)
Definition conn_restrict (self : NdArrayConnectivityField) (cache : Cache)
  (index : AbsoluteIndexSequence) : result (NdArrayConnectivityField * Cache) :=
  match cache_get index_eqb index (restrictions cache) with
  | Some restricted_connectivity => Ok (restricted_connectivity, cache)
  | None =>
      restricted_connectivity <- conn_restrict_compute self index ;;
      Ok (restricted_connectivity,
          mkCache (inverse_images cache) ((index, restricted_connectivity) :: restrictions cache))
  end.

(** A cache that holds only what the field itself computes. *)
Definition cache_consistent (self : NdArrayConnectivityField) (cache : Cache) : Prop :=
  (forall q d, In (q, d) (inverse_images cache) -> inverse_image_compute self q = Ok d)
  /\ (forall i c, In (i, c) (restrictions cache) -> conn_restrict_compute self i = Ok c).

(** ** [remap]

    [common.ConnectivityField] is an interface: [remap] uses the codomain,
    the skip value, the kind, the inverse image, the restriction and the
    array of a connectivity, whatever implements them. *)

Class ConnectivityField (C : Type) : Type := {
  connectivity_domain : C -> Domain;
  connectivity_ndarray : C -> result ndarray;
  codomain : C -> Dimension;
  skip_value : C -> option Z;
  kind : C -> Z;
  connectivity_inverse_image : C -> UnitRange -> result (list NamedRange);
  connectivity_restrict : C -> Domain -> result C
}.

(** The array-backed connectivity implements the interface; its memo does not
    change what it returns (see [inverse_image_memo] and [conn_restrict_memo]
    below). *)
#[export] Instance NdArrayConnectivityField_ConnectivityField
  : ConnectivityField NdArrayConnectivityField := {
  connectivity_domain := fun c => domain (conn_field c);
  connectivity_ndarray := fun c => Ok (ndarray_of (conn_field c));
  codomain := _codomain;
  skip_value := _skip_value;
  kind := NdArrayConnectivityField_kind;
  connectivity_inverse_image := fun c r => inverse_image_compute c (inl r);
  connectivity_restrict := fun c d => conn_restrict_compute c (Domain_as_index d)
}.

(** Modelled from the spec: a connectivity that relabels one dimension by a
    constant offset ([common.CartesianConnectivity]) and so does not modify
    the structure of a field.  Only what the shortcut of [remap] uses is
    modelled; its array and its restriction are not. *)
Record CartesianConnectivity : Type := mkCartesianConnectivity {
  dimension : Dimension;
  offset : Z
}.

#[export] Instance CartesianConnectivity_ConnectivityField
  : ConnectivityField CartesianConnectivity := {
  connectivity_domain := fun c => [(dimension c, UnitRange_infinite)];
  connectivity_ndarray := fun _ => Raise (Unmodelled "array of a cartesian connectivity");
  codomain := dimension;
  skip_value := fun _ => None;
  kind := fun _ => 0;
  connectivity_inverse_image :=
    fun c image_range => Ok [(dimension c, UnitRange_add image_range (- offset c))];
  connectivity_restrict :=
    fun _ _ => Raise (Unmodelled "restriction of a cartesian connectivity")
}.

(** The truth value of [kind & flag]. *)
Definition has_flag (k flag : Z) : bool := negb (Z.land k flag =? 0).

Definition skip_value_supported (sv : option Z) : bool :=
  match sv with
  | None => true
  | Some v => v =? -1
  end.

(** The general case of [remap]: restrict the connectivity to the new domain,
    rebase its entries to the start of the current range and gather. *)
Definition remap_gather {C} `{ConnectivityField C} (self : NdArrayField) (connectivity : C)
  (dim_idx : nat) (current_range : UnitRange) (new_ranges : list NamedRange)
  : result ndarray :=
  restricted_connectivity_domain <- Domain_make new_ranges ;;
  restricted_connectivity <-
    (if negb (Domain_eqb restricted_connectivity_domain (connectivity_domain connectivity))
     then connectivity_restrict connectivity restricted_connectivity_domain
     else Ok connectivity) ;;
  restricted_ndarray <- connectivity_ndarray restricted_connectivity ;;
  restricted_array <- asarray restricted_ndarray None ;;
  new_idx_array <-
    match start current_range with
    | Int s =>
        Ok (array_map (dtype restricted_array)
              (fun x => wrap (dtype restricted_array) (x - s)) restricted_array)
    | _ => Raise (TypeError "unsupported operand for the index array")
    end ;;
  take (ndarray_of self) new_idx_array dim_idx.

(** [NdArrayField.remap(connectivity)], also [__call__], for a connectivity
    field (a [FieldOffset] is first converted into one). *)
Definition remap {C} `{ConnectivityField C} (self : NdArrayField) (connectivity : C)
  : result NdArrayField :=
  assert (skip_value_supported (skip_value connectivity)) ;;;
  let dim := codomain connectivity in
  match dim_index (domain self) dim with
  | None => Raise (ValueError "Incompatible index field, expected a field with the codomain dimension.")
  | Some dim_idx =>
      let current_range := nth dim_idx (ranges (domain self)) UnitRange_infinite in
      new_ranges <- connectivity_inverse_image connectivity current_range ;;
      new_domain <- Domain_replace (domain self) dim_idx new_ranges ;;
      new_buffer <-
        (if negb (has_flag (kind connectivity) MODIFY_STRUCTURE)
         then Ok (ndarray_of self)
         else remap_gather self connectivity dim_idx current_range new_ranges) ;;
      from_array new_buffer new_domain (Some (field_dtype self))
  end.

(** ** [concat_where] *)

(** The loop of [_compute_mask_ranges]: [cur] is the value of the current run
    and [ind] the position where it starts. *)
Fixpoint mask_ranges_loop (mask : ndarray) (positions : list nat) (cur : bool) (ind : nat)
  (res : list (bool * UnitRange)) : list (bool * UnitRange) * bool * nat :=
  match positions with
  | [] => (res, cur, ind)
  | i :: positions' =>
      let mask_i := truth (item mask [i]) in
      if negb (Bool.eqb mask_i cur)
      then mask_ranges_loop mask positions' mask_i i
             (res ++ [(cur, UnitRange_make (Int (Z.of_nat ind)) (Int (Z.of_nat i)))])
      else mask_ranges_loop mask positions' cur ind res
  end.

(** [_compute_mask_ranges(mask)]. *)
Definition _compute_mask_ranges (mask : ndarray) : result (list (bool * UnitRange)) :=
  assert (length (shape mask) =? 1)%nat ;;;
  let n := hd 0%nat (shape mask) in
  if (n =? 0)%nat then Raise (IndexError "index 0 is out of bounds for axis 0 with size 0")
  else
    let cur := truth (item mask [0%nat]) in
    let '(res, cur, ind) := mask_ranges_loop mask (seq 1 (n - 1)) cur 0 [] in
    Ok (res ++ [(cur, UnitRange_make (Int (Z.of_nat ind)) (Int (Z.of_nat n)))]).

(** [_trim_empty_domains(lst)]: remove the empty domains from the beginning
    and the end of the list. *)
Equations? _trim_empty_domains (lst : list (bool * Domain)) : list (bool * Domain)
  by wf (length lst) lt :=
  _trim_empty_domains [] := [];
  _trim_empty_domains (x :: l) with Domain_is_empty (snd x) := {
    | true => _trim_empty_domains l
    | false with Domain_is_empty (snd (last (x :: l) x)) := {
        | true => _trim_empty_domains (removelast (x :: l))
        | false => x :: l } }.
Proof.
  destruct l as [|y l]; [simpl; lia|].
  change (S (length (removelast (y :: l))) < S (length (y :: l)))%nat.
  rewrite removelast_firstn_len, length_firstn. simpl. lia.
Qed.

(** [_to_field(value, nd_array_field_type)]. *)
Definition _to_field (v : value) : result NdArrayField :=
  match v with
  | VField f => Ok f
  | VScalar s =>
      a <- asarray (scalar_array s) None ;;
      dom <- Domain_make [] ;;
      from_array a dom None
  end.

(** Modelled from the spec: [embedded_common.restrict_to_intersection], which
    gives every domain the intersection of all of them in each dimension that
    is not ignored and leaves its range in an ignored dimension. *)
Definition restrict_to_intersection (domains : list Domain) (ignore_dims : list Dimension)
  : result (list Domain) :=
  let intersection_without_ignore_dims :=
    domain_intersection
      (map (fun d => filter (fun nr : NamedRange => negb (mem_dim (fst nr) ignore_dims)) d)
           domains) in
  mapM (fun d : Domain =>
          nrs <- mapM (fun nr : NamedRange =>
                         if mem_dim (fst nr) ignore_dims then Ok nr
                         else r <- Domain_get intersection_without_ignore_dims (fst nr) ;;
                              Ok (fst nr, snd r)) d ;;
          Domain_make nrs)
       domains.

(** [_intersect_fields(fields..., ignore_dims=ignore_dims)]. *)
Definition _intersect_fields (fields : list value) (ignore_dims : list Dimension)
  : result (list NdArrayField) :=
  _get_nd_array_class fields ;;;
  let promoted_dims := promote_dims (map dims (field_domains fields)) in
  broadcasted_fields <-
    mapM (fun v => f <- _to_field v ;; _broadcast f promoted_dims) fields ;;
  intersected_domains <-
    restrict_to_intersection (map domain broadcasted_fields) ignore_dims ;;
  (if (length broadcasted_fields =? length intersected_domains)%nat then Ok tt
   else Raise (ValueError "zip() arguments have different lengths")) ;;;
  mapM (fun fd : NdArrayField * Domain =>
          let (f, intersected_domain) := fd in
          slices <- _get_slices_from_domain_slice (domain f) (Domain_as_index intersected_domain) ;;
          sliced <- getitem (ndarray_of f) slices ;;
          from_array sliced intersected_domain None)
       (combine broadcasted_fields intersected_domains).

(** The loop of [_stack_domains]: [None] as soon as a domain does not start
    where the one before it stops. *)
Fixpoint stack_domains_loop (domains : list Domain) (dim : Dimension) (dim_stop : Bound)
  : result (option Bound) :=
  match domains with
  | [] => Ok (Some dim_stop)
  | d :: domains' =>
      nr <- Domain_get d dim ;;
      if negb (Bound_eqb (start (snd nr)) dim_stop) then Ok None
      else stack_domains_loop domains' dim (stop (snd nr))
  end.

(** [_stack_domains(domains..., dim=dim)]. *)
Definition _stack_domains (domains : list Domain) (dim : Dimension)
  : result (option Domain) :=
  match domains with
  | [] => d <- Domain_make [] ;; Ok (Some d)
  | d0 :: _ =>
      nr0 <- Domain_get d0 dim ;;
      let dim_start := start (snd nr0) in
      stacked <- stack_domains_loop domains dim dim_start ;;
      match stacked with
      | None => Ok None
      | Some dim_stop =>
          match dim_index d0 dim with
          | Some i =>
              d <- Domain_replace d0 i [(dim, UnitRange_make dim_start dim_stop)] ;;
              Ok (Some d)
          | None => Raise (KeyError "No Dimension of type in Domain.")
          end
      end
  end.

(** [_concat(fields..., dim=dim)]. *)
Definition _concat (fields : list NdArrayField) (dim : Dimension) : result NdArrayField :=
  if (1 <? length fields)%nat
     && negb (Domain_is_empty (domain_intersection (map domain fields)))
  then Raise (ValueError "Fields to concatenate must not overlap.")
  else
    new_domain <- _stack_domains (map domain fields) dim ;;
    match new_domain with
    | None => Raise (NonContiguousDomain "Cannot concatenate fields along the dimension.")
    | Some new_domain =>
        _get_nd_array_class (map VField fields) ;;;
        arrays <- mapM (fun f => sh <- Domain_shape (domain f) ;;
                                 broadcast_to (ndarray_of f) sh) fields ;;
        match dim_index new_domain dim with
        | Some axis =>
            joined <- concatenate arrays axis ;;
            from_array joined new_domain None
        | None => Raise (Unmodelled "concatenation of flattened arrays")
        end
    end.

(** [_concat_where(mask_field, true_field, false_field)]. *)
Definition _concat_where (mask_field : NdArrayField) (true_field false_field : value)
  : result NdArrayField :=
  _get_nd_array_class [VField mask_field; true_field; false_field] ;;;
  match dims (domain mask_field) with
  | [mask_dim] =>
      broadcasted <- _intersect_fields [true_field; false_field] [mask_dim] ;;
      match broadcasted with
      | [t_broadcasted; f_broadcasted] =>
          mask_values_to_relative_range_mapping <-
            _compute_mask_ranges (ndarray_of mask_field) ;;
          mask_values_to_domain_mapping <-
            mapM (fun p : bool * UnitRange =>
                    let (mask, relative_range) := p in
                    d <- _relative_ranges_to_domain [relative_range] (domain mask_field) ;;
                    Ok (mask, d))
                 mask_values_to_relative_range_mapping ;;
          let mask_values_to_intersected_domains_mapping :=
            map (fun p : bool * Domain =>
                   let (mask_value, mask_domain) := p in
                   (mask_value,
                    domain_intersection
                      [if mask_value then domain t_broadcasted else domain f_broadcasted;
                       mask_domain]))
                mask_values_to_domain_mapping in
          let mask_values_to_intersected_domains_mapping :=
            _trim_empty_domains mask_values_to_intersected_domains_mapping in
          if existsb (fun p : bool * Domain => Domain_is_empty (snd p))
                     mask_values_to_intersected_domains_mapping
          then Raise (NonContiguousDomain
                        "In 'concat_where', cannot concatenate the following 'Domain's.")
          else
            transformed <-
              mapM (fun p : bool * Domain =>
                      let (v, d) := p in
                      restrict (if v then t_broadcasted else f_broadcasted) (Domain_as_index d))
                   mask_values_to_intersected_domains_mapping ;;
            match transformed with
            | _ :: _ => _concat transformed mask_dim
            | [] =>
                result_domain <- Domain_make [(mask_dim, UnitRange_make (Int 0) (Int 0))] ;;
                sh <- Domain_shape result_domain ;;
                from_array (xp_empty sh) result_domain None
            end
      | _ => Raise (ValueError "not enough values to unpack")
      end
  | _ => Raise (NotImplementedError
                  "'concat_where': Can only concatenate fields with a 1-dimensional mask.")
  end.

(** ** Scenario: [concat_where] with an alternating mask *)

Definition mask_TTFFT : NdArrayField :=
  mkNdArrayField [named_range I_dim 0 5] (mk_ndarray BoolDType [5%nat] [1; 1; 0; 0; 1]).

Definition ones_field : NdArrayField :=
  mkNdArrayField [named_range I_dim 0 5] (mk_ndarray Int64DType [5%nat] [1; 1; 1; 1; 1]).

Definition zeros_field : NdArrayField :=
  mkNdArrayField [named_range I_dim 0 5] (mk_ndarray Int64DType [5%nat] [0; 0; 0; 0; 0]).

(** ** Neighbor reductions *)

(** An entry of the offset provider: a neighbor table with the dimension its
    rows belong to, or some other kind of offset. *)
Inductive OffsetDefinition : Type :=
| NeighborTableOffsetProvider (table : ndarray) (origin_axis : Dimension)
| OtherOffsetProvider.

(** The ambient [embedded_context.offset_provider]: unset, or a mapping from
    offset names to their definitions. *)
Definition OffsetProvider : Type := option (list (string * OffsetDefinition)).

Fixpoint lookup_offset (name : string) (l : list (string * OffsetDefinition))
  : result OffsetDefinition :=
  match l with
  | [] => Raise (KeyError name)
  | (k, v) :: l' => if String.eqb k name then Ok v else lookup_offset name l'
  end.

(** The three reductions of the array namespace. *)
Definition xp_reduction (array_builtin_name : string) (a : ndarray) (axis : nat)
  : result ndarray :=
  if String.eqb array_builtin_name "sum" then xp_sum_axis a axis
  else if String.eqb array_builtin_name "max" then xp_max_axis a axis
  else if String.eqb array_builtin_name "min" then xp_min_axis a axis
  else Raise (Unmodelled "array function").

(** [_make_reduction(builtin_name, array_builtin_name, initial_value_op)]. *)
Definition _make_reduction (builtin_name array_builtin_name : string)
  (initial_value_op : NdArrayField -> result Scalar)
  (offset_provider : OffsetProvider) (field : NdArrayField) (axis : Dimension)
  : result NdArrayField :=
  if negb (DimensionKind_eqb (dim_kind axis) LOCAL)
  then Raise (ValueError "Can only reduce local dimensions.")
  else if negb (mem_dim axis (dims (domain field)))
  then Raise (ValueError "Field can not be reduced as it doesn't have the dimension.")
  else if (1 <? length (filter (fun d => DimensionKind_eqb (dim_kind d) LOCAL)
                               (dims (domain field))))%nat
  then Raise (NotImplementedError
                "Reducing a field with more than one local dimension is not supported.")
  else
    match dim_index (domain field) axis with
    | None => Raise (ValueError "tuple.index(x): x not in tuple")
    | Some reduce_dim_index =>
        match offset_provider with
        | None => Raise (AssertionError "")
        | Some current_offset_provider =>
            offset_definition <- lookup_offset (dim_value axis) current_offset_provider ;;
            match offset_definition with
            | OtherOffsetProvider => Raise (AssertionError "")
            | NeighborTableOffsetProvider table origin_axis =>
                new_domain <- Domain_make
                                (filter (fun nr : NamedRange => negb (Dimension_eqb (fst nr) axis))
                                        (domain field)) ;;
                let broadcast_slice :=
                  map (fun d => if mem_dim d [axis; origin_axis]
                                then slice None None else newaxis)
                      (dims (domain field)) in
                indexed <- getitem table broadcast_slice ;;
                as_array <- asarray indexed None ;;
                let has_neighbor :=
                  array_map BoolDType
                    (fun x => Z_of_bool (negb (x =? _DEFAULT_SKIP_VALUE))) as_array in
                initial_value <- initial_value_op field ;;
                masked_array <- xp_where has_neighbor (ndarray_of field)
                                  (scalar_array initial_value) ;;
                reduced <- xp_reduction array_builtin_name masked_array reduce_dim_index ;;
                from_array reduced new_domain None
            end
        end
    end.

(** The registered reductions with their initial values:
    [x.dtype.scalar_type(0)], [xp.min(x._ndarray)] and [xp.max(x._ndarray)]. *)
Definition neighbor_sum : OffsetProvider -> NdArrayField -> Dimension -> result NdArrayField :=
  _make_reduction "neighbor_sum" "sum" (fun x => Ok (mkScalar (field_dtype x) 0)).



(** ** The program parser of [func_to_past.py] *)



(** The Python syntax tree, every node with the location [get_location]
    gives it.  Modelled from the spec: [DialectParser], the base class of the
    parser, is not among the verified sources; a node without a visitor
    method ([ast_unsupported], [ast_unsupported_stmt] and the operators
    without one) is refused by its generic visitor with an
    [UnsupportedPythonFeatureError] at the location of the node. *)
Inductive ast_operator : Type :=
| ast_Add | ast_Sub | ast_Mult | ast_Div | ast_FloorDiv | ast_Pow | ast_Mod
| ast_BitAnd | ast_BitOr | ast_BitXor
| ast_MatMult | ast_LShift | ast_RShift.

Inductive ast_unaryop : Type := ast_USub | ast_UAdd | ast_Not | ast_Invert.

Inductive constant : Type :=
| const_int (z : Z)
| const_bool (b : bool)
| const_str (s : string)
| const_None.

(** A Python value: a literal or any other object. *)
Inductive pyvalue : Type :=
| py_constant (c : constant)
| py_object (repr : string).

Inductive ast_expr : Type :=
| ast_Name (loc : SourceLocation) (id : string)
| ast_Constant (loc : SourceLocation) (v : constant)
| ast_UnaryOp (loc : SourceLocation) (op : ast_unaryop) (operand : ast_expr)
| ast_BinOp (loc : SourceLocation) (left : ast_expr) (op : ast_operator) (right : ast_expr)
| ast_Call (loc : SourceLocation) (func : ast_expr) (args : list ast_expr)
    (keywords : list (string * ast_expr))
| ast_Subscript (loc : SourceLocation) (v : ast_expr) (slice_ : ast_expr)
| ast_Tuple (loc : SourceLocation) (elts : list ast_expr)
| ast_Slice (loc : SourceLocation) (lower upper step : option ast_expr)
| ast_Dict (loc : SourceLocation) (keys values : list ast_expr)
| ast_unsupported (loc : SourceLocation) (node_type : string).




(** The program syntax tree (PAST). *)
Inductive BinaryOperator : Type :=
| ADD | SUB | MULT | DIV | FLOOR_DIV | POW | MOD | BIT_AND | BIT_OR | BIT_XOR.

Inductive past_node : Type :=
| past_Name (id : string) (location : SourceLocation)
| past_Constant (v : constant) (type : TypeSpec) (location : SourceLocation)
| past_BinOp (op : BinaryOperator) (left right : past_node) (location : SourceLocation)
| past_Call (func : past_node) (args : list past_node) (kwargs : list (string * past_node))
    (location : SourceLocation)
| past_Subscript (v slice_ : past_node) (location : SourceLocation)
| past_TupleExpr (elts : list past_node) (location : SourceLocation) (type : TypeSpec)
| past_Slice (lower upper step : option past_node) (location : SourceLocation)
| past_Dict (keys_ values_ : list past_node) (location : SourceLocation).




Definition is_past_Name (n : past_node) : bool :=
  match n with past_Name _ _ => true | _ => false end.


Section ProgramParser.
(** The closure variables and annotations of the parsed definition, and
    the two translations of [type_translation], which is not part of this
    development. *)
Context {annotation : Type}.
Variable parser_closure_vars : list (string * pyvalue).
Variable annotations : string -> option annotation.
Variable from_value : pyvalue -> result TypeSpec.
Variable from_type_hint : annotation -> result TypeSpec.



(** [visit_Add] and the other operator visitors; an operator without a
    visitor is not supported. *)
Definition visit_operator (loc : SourceLocation) (op : ast_operator)
  : result BinaryOperator :=
  match op with
  | ast_Add => Ok ADD
  | ast_Sub => Ok SUB
  | ast_Mult => Ok MULT
  | ast_Div => Ok DIV
  | ast_FloorDiv => Ok FLOOR_DIV
  | ast_Pow => Ok POW
  | ast_Mod => Ok MOD
  | ast_BitAnd => Ok BIT_AND
  | ast_BitOr => Ok BIT_OR
  | ast_BitXor => Ok BIT_XOR
  | ast_MatMult => Raise (UnsupportedPythonFeatureError loc "MatMult")
  | ast_LShift => Raise (UnsupportedPythonFeatureError loc "LShift")
  | ast_RShift => Raise (UnsupportedPythonFeatureError loc "RShift")
  end.

(** [-node.operand.value]. *)
Definition negate_constant (v : constant) : result constant :=
  match v with
  | const_int z => Ok (const_int (- z))
  | const_bool b => Ok (const_int (- Z_of_bool b))
  | const_str _ => Raise (TypeError "bad operand type for unary -: 'str'")
  | const_None => Raise (TypeError "bad operand type for unary -: 'NoneType'")
  end.

Definition visit_option (visit : ast_expr -> result past_node) (o : option ast_expr)
  : result (option past_node) :=
  match o with
  | Some e => n <- visit e ;; Ok (Some n)
  | None => Ok None
  end.

(** [visit], with [visit_Name], [visit_Constant], [visit_UnaryOp],
    [visit_BinOp], [visit_Call], [visit_Subscript], [visit_Tuple],
    [visit_Slice] and [visit_Dict]. *)
Fixpoint visit (node : ast_expr) : result past_node :=
  match node with
  | ast_Name loc id => Ok (past_Name id loc)
  | ast_Constant loc v =>
      symbol_type <- from_value (py_constant v) ;;
      Ok (past_Constant v symbol_type loc)
  | ast_UnaryOp loc op operand =>
      match op, operand with
      | ast_USub, ast_Constant _ v =>
          symbol_type <- from_value (py_constant v) ;;
          negated <- negate_constant v ;;
          Ok (past_Constant negated symbol_type loc)
      | _, _ => Raise (DSLError loc "Unary operators are only applicable to literals.")
      end
  | ast_BinOp loc lhs op rhs =>
      new_op <- visit_operator loc op ;;
      new_left <- visit lhs ;;
      new_right <- visit rhs ;;
      Ok (past_BinOp new_op new_left new_right loc)
  | ast_Call loc func args keywords =>
      new_func <- visit func ;;
      if negb (is_past_Name new_func)
      then Raise (DSLError loc "Functions must be referenced by their name in function calls.")
      else
        new_args <- mapM visit args ;;
        new_kwargs <- mapM (fun kw : string * ast_expr =>
                              v <- visit (snd kw) ;; Ok (fst kw, v)) keywords ;;
        Ok (past_Call new_func new_args new_kwargs loc)
  | ast_Subscript loc v slice_ =>
      new_value <- visit v ;;
      new_slice <- visit slice_ ;;
      Ok (past_Subscript new_value new_slice loc)
  | ast_Tuple loc elts =>
      new_elts <- mapM visit elts ;;
      Ok (past_TupleExpr new_elts loc (DeferredType "TupleType"))
  | ast_Slice loc lower upper step =>
      new_lower <- visit_option visit lower ;;
      new_upper <- visit_option visit upper ;;
      new_step <- visit_option visit step ;;
      Ok (past_Slice new_lower new_upper new_step loc)
  | ast_Dict loc keys values =>
      new_keys <- mapM visit keys ;;
      new_values <- mapM visit values ;;
      Ok (past_Dict new_keys new_values loc)
  | ast_unsupported loc node_type => Raise (UnsupportedPythonFeatureError loc node_type)
  end.


End ProgramParser.

(** ** Well-formed fields *)

(** A domain as the constructors of [common] leave it: pairwise different
    dimensions and canonical ranges. *)
Definition wf_domain (d : Domain) : Prop :=
  unique_dims (dims d) = true /\ Forall UnitRange_canonical (ranges d).

(** A field as [from_array] accepts it: the array has one axis per dimension
    and every axis has the length of its range or the length one. *)
Definition wf_field (f : NdArrayField) : Prop :=
  wf_domain (domain f)
  /\ wf_ndarray (_ndarray f)
  /\ length (domain f) = length (shape (_ndarray f))
  /\ shape_matches (ranges (domain f)) (shape (_ndarray f)) = Ok true.

(** ** The run domains of [concat_where] *)

(** The domain of every run of equal mask values (the variable
    [mask_values_to_domain_mapping] of [_concat_where]). *)
Definition mask_run_domains (mask_field : NdArrayField) : result (list (bool * Domain)) :=
  runs <- _compute_mask_ranges (ndarray_of mask_field) ;;
  mapM (fun p : bool * UnitRange =>
          let (mask, relative_range) := p in
          d <- _relative_ranges_to_domain [relative_range] (domain mask_field) ;;
          Ok (mask, d))
       runs.

(** The run domains intersected with the domain of the field the run selects
    (the variable [mask_values_to_intersected_domains_mapping], before it is
    trimmed). *)
Definition intersected_run_domains (t_broadcasted f_broadcasted : NdArrayField)
  (runs : list (bool * Domain)) : list (bool * Domain) :=
  map (fun p : bool * Domain =>
         let (mask_value, mask_domain) := p in
         (mask_value,
          domain_intersection
            [if mask_value then domain t_broadcasted else domain f_broadcasted; mask_domain]))
      runs.

(** Trimming as the specification words it: drop the empty domains at the
    beginning, then those at the end. *)
Fixpoint drop_empty_domains (l : list (bool * Domain)) : list (bool * Domain) :=
  match l with
  | [] => []
  | x :: l' => if Domain_is_empty (snd x) then drop_empty_domains l' else l
  end.

Definition trim_both_ends (l : list (bool * Domain)) : list (bool * Domain) :=
  rev (drop_empty_domains (rev (drop_empty_domains l))).

(** A gap scenario: the mask [True, False, True] over [I:[0,3)], a true field
    over [I:[0,3)] and a false field over [I:[5,8)]. *)
Definition mask_TFT : NdArrayField :=
  mkNdArrayField [named_range I_dim 0 3] (mk_ndarray BoolDType [3%nat] [1; 0; 1]).

Definition true_field_0_3 : NdArrayField :=
  mkNdArrayField [named_range I_dim 0 3] (mk_ndarray Int64DType [3%nat] [1; 1; 1]).

Definition false_field_5_8 : NdArrayField :=
  mkNdArrayField [named_range I_dim 5 8] (mk_ndarray Int64DType [3%nat] [0; 0; 0]).

(** ** What a DSL-level error carries *)




(** ** Equality of array values *)

(** Elementwise equality of two arrays as [(a == b).all()] reads it: the
    shapes broadcast, and the entries agree at every position of the
    broadcast shape. *)
Definition elementwise_equal (a b : ndarray) : Prop :=
  exists sh,
    broadcast_shapes (shape a) (shape b) = Ok sh
    /\ forall idx, in_bounds sh idx ->
         item a (broadcast_index (shape a) idx) = item b (broadcast_index (shape b) idx).

(** No axis of length one stands for an empty range. *)
Definition no_empty_placeholder (f : NdArrayField) : Prop :=
  Forall2 (fun r n => n = 1%nat -> UnitRange_is_empty r = false)
          (ranges (domain f)) (shape (_ndarray f)).

(** The slice that selects the whole of a finite range from an array that
    starts where the range starts. *)
Definition own_slice (r : UnitRange) : index_item :=
  match start r, stop r with
  | Int s, Int e => slice (Some (s - s)) (Some (e - s))
  | _, _ => slice None None
  end.

(** The number of entries [own_slice r] keeps of an axis of length [n]. *)
Definition own_slice_len (r : UnitRange) (n : nat) : nat :=
  match start r, stop r with
  | Int s, Int e => Z.to_nat (Z.min (e - s) (Z.of_nat n))
  | _, _ => n
  end.

(** ** The bounding box of the selected positions *)

(** A position of the index array whose entry lies in the image range. *)
Definition selected (index_array : ndarray) (image_range : UnitRange) (p : list nat) : Prop :=
  in_bounds (shape index_array) p
  /\ UnitRange_contains image_range (item index_array p) = true.

(** An entry that lies in the image range or is the skip value. *)
Definition accepted (index_array : ndarray) (image_range : UnitRange) (skip_value : option Z)
  (p : list nat) : bool :=
  UnitRange_contains image_range (item index_array p)
  || match skip_value with
     | Some sv => item index_array p =? sv
     | None => false
     end.

(** A box: per axis the first position and the position after the last. *)
Definition box : Type := list (Z * Z).

Definition in_box (b : box) (p : list nat) : Prop :=
  Forall2 (fun lh i => fst lh <= Z.of_nat i < snd lh) b p.

(** The smallest box that holds every selected position: it has one interval
    per axis, holds the selected positions, and on every axis some selected
    position lies on its first and some on its last position. *)
Definition is_bounding_box (index_array : ndarray) (image_range : UnitRange) (b : box) : Prop :=
  length b = length (shape index_array)
  /\ (forall p, selected index_array image_range p -> in_box b p)
  /\ (forall k lo hi, nth_error b k = Some (lo, hi) ->
        (exists p, selected index_array image_range p /\ Z.of_nat (nth k p 0%nat) = lo)
        /\ (exists p, selected index_array image_range p /\ Z.of_nat (nth k p 0%nat) = hi - 1)).

Definition box_ranges (b : box) : list UnitRange :=
  map (fun lh : Z * Z => UnitRange_make (Int (fst lh)) (Int (snd lh))) b.

(** A connectivity none of whose entries lies in the queried range. *)
Definition V_dim : Dimension := mkDimension "V" HORIZONTAL.

Definition conn_out_of_range : NdArrayConnectivityField :=
  mkNdArrayConnectivityField
    (mkNdArrayField [named_range V_dim 0 1] (mk_ndarray Int64DType [1%nat] [5]))
    I_dim None.

(** The example of the docstring of [_hypercube]. *)
Definition docstring_index_array : ndarray :=
  mk_ndarray Int64DType [3%nat; 3%nat] [0; 1; -1; 3; 4; -1; -1; -1; -1].

(** The slices, the indexing plan and the shape of the part of an array a
    box cuts out. *)
Definition box_slices (b : box) : list index_item :=
  map (fun s : Z * Z => slice (Some (fst s)) (Some (snd s))) b.

Definition box_plan (b : box) : list axis_sel :=
  map (fun lh : Z * Z => Sel (Z.to_nat (fst lh)) (Z.to_nat (snd lh - fst lh))) b.

Definition box_shape (b : box) : list nat :=
  map (fun lh : Z * Z => Z.to_nat (snd lh - fst lh)) b.

(** A box that is not empty and lies inside an array of shape [sh]. *)
Definition box_fits (b : box) (sh : list nat) : Prop :=
  Forall2 (fun lh n => 0 <= fst lh /\ fst lh < snd lh /\ snd lh <= Z.of_nat n) b sh.

(** The smallest and the largest entry of a list that is not empty. *)
Definition min_of (l : list Z) : Z :=
  match l with [] => 0 | x :: l' => fold_left Z.min l' x end.
Definition max_of (l : list Z) : Z :=
  match l with [] => 0 | x :: l' => fold_left Z.max l' x end.

(** The coordinates along axis [k] of the selected positions, and the box
    they span. *)
Definition selected_coordinates (index_array : ndarray) (image_range : UnitRange) (k : nat)
  : list Z :=
  map (fun idx => Z.of_nat (nth k idx 0%nat))
      (filter (fun p => UnitRange_contains image_range (item index_array p))
              (indices (shape index_array))).

Definition bounding_box (index_array : ndarray) (image_range : UnitRange) : box :=
  map (fun k => (min_of (selected_coordinates index_array image_range k),
                 max_of (selected_coordinates index_array image_range k) + 1))
      (seq 0 (length (shape index_array))).

(** ** What the neighbor reductions reduce *)





(** A field over two vertices with two neighbor slots each; the first vertex
    has no neighbor. *)
Definition Vertex : Dimension := mkDimension "Vertex" HORIZONTAL.
Definition V2E : Dimension := mkDimension "V2E" LOCAL.

Definition neighbor_field : NdArrayField :=
  mkNdArrayField [named_range Vertex 0 2; named_range V2E 0 2]
    (mk_ndarray Int32DType [2%nat; 2%nat] [3; 4; 1; 2]).

Definition neighbor_table : ndarray :=
  mk_ndarray Int32DType [2%nat; 2%nat] [-1; -1; 0; 1].



(** ** Further examples *)

(** A field whose single axis of length one stands for the empty range
    [I:[0,0)]. *)
Definition placeholder_field : NdArrayField :=
  mkNdArrayField [named_range I_dim 0 0] (mk_ndarray Int64DType [1%nat] [7]).

(** A connectivity from [V:[0,3)] into [I] with the entries [4, 0, 2]. *)
Definition conn_V_to_I : NdArrayConnectivityField :=
  mkNdArrayConnectivityField
    (mkNdArrayField [named_range V_dim 0 3] (mk_ndarray Int64DType [3%nat] [4; 0; 2]))
    I_dim None.

(** A parser without closure variables in which only the parameter [a] has
    an annotation, a data type. *)
Definition example_location (line column : nat) : SourceLocation :=
  mkSourceLocation "program.py" line column.


Definition example_from_value (v : pyvalue) : result TypeSpec :=
  match v with
  | py_constant (const_int _) => Ok (DataType "int32")
  | py_constant (const_bool _) => Ok (DataType "bool")
  | py_constant (const_str _) => Ok (DataType "string")
  | _ => Raise (ValueError "Impossible to map the value to a type.")
  end.


(** A box of array positions as a domain: every interval is shifted by the
    start of the range of its dimension. *)
Definition absolute_box (dom : Domain) (b : box) : Domain :=
  map (fun p : NamedRange * (Z * Z) =>
         let '((dim, ar), (lo, hi)) := p in
         (dim, match start ar with
               | Int s => mkUnitRange (Int (lo + s)) (Int (hi + s))
               | _ => UnitRange_infinite
               end))
      (combine dom b).
(** * Further members of the two modules and what their properties speak of *)

(** ** The runs of a mask *)

(** Runs that tile the positions from [k] up to [n]: each run is a range
    that is not empty and starts where the run before it stops. *)
Fixpoint runs_from (k : Z) (runs : list (bool * UnitRange)) (n : Z) : Prop :=
  match runs with
  | [] => k = n
  | (_, r) :: runs' =>
      start r = Int k /\ exists e, stop r = Int e /\ k < e /\ runs_from e runs' n
  end.

(** Neighbouring runs have different values. *)
Fixpoint alternating (runs : list (bool * UnitRange)) : Prop :=
  match runs with
  | (v1, _) :: (((v2, _) :: _) as runs') => v1 <> v2 /\ alternating runs'
  | _ => True
  end.

(** Every position of a run holds the value of the run. *)
Definition runs_hold (mask : ndarray) (runs : list (bool * UnitRange)) : Prop :=
  forall v r i, In (v, r) runs -> UnitRange_contains r (Z.of_nat i) = true ->
                truth (item mask [i]) = v.

(** ** Domains that stack *)

(** Each range starts where the one before it stops. *)
Fixpoint ranges_meet (rs : list UnitRange) : bool :=
  match rs with
  | r1 :: ((r2 :: _) as rs') => Bound_eqb (start r2) (stop r1) && ranges_meet rs'
  | _ => true
  end.

(** The same, for ranges that follow a range that stops at [b]. *)
Fixpoint ranges_meet_from (b : Bound) (rs : list UnitRange) : bool :=
  match rs with
  | [] => true
  | r :: rs' => Bound_eqb (start r) b && ranges_meet_from (stop r) rs'
  end.

(** The domain [d] with the range at position [i] replaced by [r]. *)
Definition with_range (d : Domain) (i : nat) (r : UnitRange) : Domain :=
  firstn i d ++ (fst (nth i d (mkDimension "" HORIZONTAL, r)), r) :: skipn (S i) d.

(** ** What a parsed expression keeps *)

Definition ast_location (e : ast_expr) : SourceLocation :=
  match e with
  | ast_Name loc _ | ast_Constant loc _ | ast_UnaryOp loc _ _ | ast_BinOp loc _ _ _
  | ast_Call loc _ _ _ | ast_Subscript loc _ _ | ast_Tuple loc _ | ast_Slice loc _ _ _
  | ast_Dict loc _ _ | ast_unsupported loc _ => loc
  end.

Definition past_location (n : past_node) : SourceLocation :=
  match n with
  | past_Name _ loc | past_Constant _ _ loc | past_BinOp _ _ _ loc | past_Call _ _ _ loc
  | past_Subscript _ _ loc | past_TupleExpr _ loc _ | past_Slice _ _ _ loc
  | past_Dict _ _ loc => loc
  end.

Definition option_list {A B} (f : A -> list B) (o : option A) : list B :=
  match o with Some x => f x | None => [] end.

(** The locations of all nodes of a Python expression and of a PAST
    expression. *)
Fixpoint ast_locations (e : ast_expr) : list SourceLocation :=
  ast_location e ::
  match e with
  | ast_Name _ _ | ast_Constant _ _ | ast_unsupported _ _ => []
  | ast_UnaryOp _ _ operand => ast_locations operand
  | ast_BinOp _ lhs _ rhs => ast_locations lhs ++ ast_locations rhs
  | ast_Call _ func args keywords =>
      ast_locations func ++ flat_map ast_locations args
      ++ flat_map (fun kw : string * ast_expr => ast_locations (snd kw)) keywords
  | ast_Subscript _ v slice_ => ast_locations v ++ ast_locations slice_
  | ast_Tuple _ elts => flat_map ast_locations elts
  | ast_Slice _ lower upper step =>
      option_list ast_locations lower ++ option_list ast_locations upper
      ++ option_list ast_locations step
  | ast_Dict _ keys values => flat_map ast_locations keys ++ flat_map ast_locations values
  end.

Fixpoint past_locations (n : past_node) : list SourceLocation :=
  past_location n ::
  match n with
  | past_Name _ _ | past_Constant _ _ _ => []
  | past_BinOp _ lhs rhs _ => past_locations lhs ++ past_locations rhs
  | past_Call func args kwargs _ =>
      past_locations func ++ flat_map past_locations args
      ++ flat_map (fun kw : string * past_node => past_locations (snd kw)) kwargs
  | past_Subscript v slice_ _ => past_locations v ++ past_locations slice_
  | past_TupleExpr elts _ _ => flat_map past_locations elts
  | past_Slice lower upper step _ =>
      option_list past_locations lower ++ option_list past_locations upper
      ++ option_list past_locations step
  | past_Dict keys values _ => flat_map past_locations keys ++ flat_map past_locations values
  end.

Definition option_all {A} (f : A -> bool) (o : option A) : bool :=
  match o with Some x => f x | None => true end.

(** Every call inside a PAST expression names its function. *)
Fixpoint calls_by_name (n : past_node) : bool :=
  match n with
  | past_Name _ _ | past_Constant _ _ _ => true
  | past_BinOp _ lhs rhs _ => calls_by_name lhs && calls_by_name rhs
  | past_Call func args kwargs _ =>
      is_past_Name func && forallb calls_by_name args
      && forallb (fun kw : string * past_node => calls_by_name (snd kw)) kwargs
  | past_Subscript v slice_ _ => calls_by_name v && calls_by_name slice_
  | past_TupleExpr elts _ _ => forallb calls_by_name elts
  | past_Slice lower upper step _ =>
      option_all calls_by_name lower && option_all calls_by_name upper
      && option_all calls_by_name step
  | past_Dict keys values _ => forallb calls_by_name keys && forallb calls_by_name values
  end.

(** ** The expressions the parser accepts *)





(** ** Fields read at absolute points *)

(** A field whose array has on every axis exactly the length of the range of
    its dimension (no axis of length one stands in for a longer range). *)
Definition exact_field (f : NdArrayField) : Prop :=
  wf_domain (domain f)
  /\ wf_ndarray (_ndarray f)
  /\ Domain_shape (domain f) = Ok (shape (_ndarray f)).

(** A point, one coordinate per dimension, that lies in a domain. *)
Definition in_domain (d : Domain) (p : list Z) : Prop :=
  Forall2 (fun r k => UnitRange_contains r k = true) (ranges d) p.

(** The array position of a point: each coordinate counted from the start of
    its range. *)
Definition relative (d : Domain) (p : list Z) : list nat :=
  map (fun rk : UnitRange * Z =>
         match start (fst rk) with
         | Int s => Z.to_nat (snd rk - s)
         | _ => 0%nat
         end)
      (combine (ranges d) p).

(** The value of a field at a point of its domain. *)
Definition field_at (f : NdArrayField) (p : list Z) : Z :=
  item (_ndarray f) (relative (domain f) p).

(** [inner] is a finite range inside the finite range [outer]. *)
Definition sub_range (outer inner : UnitRange) : Prop :=
  exists s e si ei,
    start outer = Int s /\ stop outer = Int e
    /\ start inner = Int si /\ stop inner = Int ei
    /\ s <= si /\ si <= ei /\ ei <= e.

(** A domain over the same dimensions whose ranges lie inside those of
    [outer], as the constructors of [common] leave it. *)
Definition sub_domain_of (outer inner : Domain) : Prop :=
  dims inner = dims outer
  /\ Forall UnitRange_canonical (ranges inner)
  /\ Forall2 (fun ro ri => UnitRange_le ri ro = true) (ranges outer) (ranges inner).

(** The slice [_compute_slice] makes for the range [inner] of a dimension
    whose array starts at the start of [outer], what the slice selects, and
    how many entries that are. *)
Definition sub_slice (outer inner : UnitRange) : index_item :=
  match start outer, start inner, stop inner with
  | Int s, Int si, Int ei => slice (Some (si - s)) (Some (ei - s))
  | _, _, _ => slice None None
  end.

Definition sub_sel (outer inner : UnitRange) : axis_sel :=
  match start outer, start inner, stop inner with
  | Int s, Int si, Int ei => Sel (Z.to_nat (si - s)) (Z.to_nat (ei - si))
  | _, _, _ => Sel 0 0
  end.

Definition range_len (r : UnitRange) : nat :=
  match start r, stop r with
  | Int s, Int e => Z.to_nat (e - s)
  | _, _ => 0%nat
  end.

(** An axis that has exactly the length of a finite range. *)
Definition axis_of (r : UnitRange) (n : nat) : Prop :=
  exists s e, start r = Int s /\ stop r = Int e /\ s <= e /\ n = Z.to_nat (e - s).

(** The point at an array position: each position counted on from the start
    of its range. *)
Definition point_at (d : Domain) (idx : list nat) : list Z :=
  map (fun ri : UnitRange * nat =>
         match start (fst ri) with
         | Int s => s + Z.of_nat (snd ri)
         | _ => 0
         end)
      (combine (ranges d) idx).

(** ** Assignment: [NdArrayField.__setitem__] *)

(** The position in the result of basic indexing that reads position [q] of
    the indexed array, when the index selects [q]. *)
Fixpoint plan_target (p : list axis_sel) (q : list nat) : option (list nat) :=
  match p with
  | [] => match q with [] => Some [] | _ :: _ => None end
  | Sel s len :: p' =>
      match q with
      | i :: q' =>
          if (s <=? i)%nat && (i <? s + len)%nat
          then option_map (cons (i - s)%nat) (plan_target p' q')
          else None
      | [] => None
      end
  | Pick j :: p' =>
      match q with
      | i :: q' => if (i =? j)%nat then plan_target p' q' else None
      | [] => None
      end
  | New :: p' => option_map (cons 0%nat) (plan_target p' q)
  end.

(** [a[items] = v] for a basic index: the value is converted to the dtype of
    the array and broadcast to the shape of the selection; the entries the
    index selects are overwritten in place, all others stay.  A value of
    higher rank than the selection is outside the model. *)
Definition setitem (a : ndarray) (items : list index_item) (v : ndarray) : result ndarray :=
  p <- index_plan (shape a) items ;;
  (if (length (plan_shape p) <? length (shape v))%nat
   then Raise (Unmodelled "assignment of a value of higher rank than the selection")
   else Ok tt) ;;;
  v <- asarray v (Some (dtype a)) ;;
  v <- broadcast_to v (plan_shape p) ;;
  Ok (build (dtype a) (shape a)
        (fun q => match plan_target p q with
                  | Some r => item v r
                  | None => item a q
                  end)).

(** What is assigned: a field, an array or a scalar. *)
Inductive assigned : Type :=
| AField (f : NdArrayField)
| AArray (a : ndarray)
| AScalar (s : Scalar).

(** [NdArrayField.__setitem__(index, value)], for an absolute index.  The
    method returns nothing and overwrites the array of the field; here it
    returns the field as the assignment leaves it.  An exception leaves the
    array untouched. *)
Definition __setitem__ (self : NdArrayField) (index : AbsoluteIndexSequence) (value : assigned)
  : result NdArrayField :=
  ' (target_domain, target_slice) <- _slice self index ;;
  value <- match value with
           | AField f =>
               if negb (Domain_eqb (domain f) target_domain)
               then Raise (ValueError "Incompatible 'Domain' in assignment.")
               else Ok (ndarray_of f)
           | AArray a => Ok a
           | AScalar s => Ok (scalar_array s)
           end ;;
  new_ndarray <- setitem (_ndarray self) target_slice value ;;
  Ok (mkNdArrayField (_domain self) new_ndarray).

(** A field over [I:[1,3)] with the values [7, 8]. *)
Definition field_1_3 : NdArrayField :=
  mkNdArrayField [named_range I_dim 1 3] (mk_ndarray Int64DType [2%nat] [7; 8]).

(** ** Gathering through a connectivity *)

(** The box of all positions of an array of shape [sh]. *)
Definition full_box (sh : list nat) : box :=
  map (fun n => (0, Z.of_nat n)) sh.

(** ** Broadcasting to more dimensions *)

(** The shape [_broadcast] gives an array of shape [sh] over the dimensions
    [old] when it is broadcast to the dimensions [new]: a dimension the array
    has keeps its length, every other dimension gets an axis of length one. *)
Fixpoint broadcast_shape (old new : list Dimension) (sh : list nat) : list nat :=
  match new with
  | [] => []
  | dim :: new' =>
      if mem_dim dim old
      then hd 1%nat sh :: broadcast_shape old new' (tl sh)
      else 1%nat :: broadcast_shape old new' sh
  end.

(** A position of the broadcast array without the coordinates of the added
    dimensions. *)
Fixpoint drop_new (old new : list Dimension) (idx : list nat) : list nat :=
  match new, idx with
  | dim :: new', i :: idx' =>
      if mem_dim dim old then i :: drop_new old new' idx' else drop_new old new' idx'
  | _, _ => []
  end.

(** What the index [_broadcast] builds does with the axes: an axis the array
    has is kept whole, an added dimension inserts an axis. *)
Fixpoint broadcast_sels (old new : list Dimension) (sh : list nat) : list axis_sel :=
  match new with
  | [] => []
  | dim :: new' =>
      if mem_dim dim old
      then Sel 0 (hd 1%nat sh) :: broadcast_sels old new' (tl sh)
      else New :: broadcast_sels old new' sh
  end.

Definition K_dim : Dimension := mkDimension "K" VERTICAL.

(** ** Further members of [NdArrayField] and of the module *)

(** [a.item()]: the one entry of an array of size one. *)
Definition ndarray_item (a : ndarray) : result Z :=
  match data a with
  | [z] => Ok z
  | _ => Raise (ValueError "can only convert an array of size 1 to a Python scalar")
  end.

(** [NdArrayField.as_scalar()]: the value as a Python scalar, a boolean as
    [0] or [1]. *)
Definition as_scalar (self : NdArrayField) : result Z :=
  if negb (ndim (domain self) =? 0)%nat
  then Raise (ValueError "'as_scalar' is only valid on 0-dimensional 'Field's.")
  else ndarray_item (ndarray_of self).

(** [NdArrayField.__gt_origin__]: for every dimension the array position of
    the absolute index [0]. *)
Definition __gt_origin__ (self : NdArrayField) : result (list Z) :=
  assert (Domain_is_finite (_domain self)) ;;;
  mapM (fun r : UnitRange =>
          match start r with
          | Int s => Ok (- s)
          | _ => Raise (Unmodelled "negative of an infinite bound")
          end)
       (ranges (_domain self)).

(** [a.astype(type_)]: always a conversion to the dtype asked for. *)
Definition astype (a : ndarray) (type_ : DType) : result ndarray :=
  asarray a (Some type_).

(** [_astype(field, type_)], the implementation of [fbuiltins.astype]. *)
Definition _astype (field : value) (type_ : DType) : result NdArrayField :=
  match field with
  | VField f =>
      converted <- astype (ndarray_of f) type_ ;;
      from_array converted (domain f) None
  | VScalar _ =>
      Raise (AssertionError "This is the NdArrayField implementation of 'fbuiltins.astype'.")
  end.


Definition minimum (a b : value) : result NdArrayField :=
  _make_builtin "minimum" "minimum" false [a; b].

Definition maximum (a b : value) : result NdArrayField :=
  _make_builtin "maximum" "maximum" false [a; b].

(** ** Neighbor reductions *)

(** The sum over row [i] of a two-dimensional array of dtype [dt], taken
    over the [k] columns, where a column whose entry of the neighbor table
    is the skip value counts as [0]. *)
Definition neighbor_row_sum (dt : DType) (table a : ndarray) (i k : nat) : Z :=
  fold_left Z.add
    (map (fun j => wrap dt (if item table [i; j] =? _DEFAULT_SKIP_VALUE
                            then 0 else item a [i; j]))
         (seq 0 k))
    0.

(** Two adjacent fields over [I]. *)
Definition field_0_2 : NdArrayField :=
  mkNdArrayField [(I_dim, mkUnitRange (Int 0) (Int 2))] (mk_ndarray Int64DType [2%nat] [1; 2]).

Definition field_2_3 : NdArrayField :=
  mkNdArrayField [(I_dim, mkUnitRange (Int 2) (Int 3))] (mk_ndarray Int64DType [1%nat] [3]).

(** * Properties *)

(** ** The result monad and the data model *)

Lemma bind_Ok_inv {A B} (c : result A) (k : A -> result B) (b : B) :
  bind c k = Ok b -> exists a, c = Ok a /\ k a = Ok b.
Proof. destruct c as [a|e]; simpl; intros H; [eauto | discriminate]. Qed.

Lemma Dimension_eqb_eq a b : Dimension_eqb a b = true <-> a = b.
Proof.
  destruct a as [va ka], b as [vb kb]; unfold Dimension_eqb; simpl.
  rewrite andb_true_iff, String.eqb_eq. split.
  - intros [-> H]. destruct ka, kb; simpl in H; congruence.
  - intros H; injection H as -> ->. split; [reflexivity | destruct kb; reflexivity].
Qed.

Lemma Dimension_eqb_refl a : Dimension_eqb a a = true.
Proof. apply Dimension_eqb_eq; reflexivity. Qed.

Lemma Bound_eqb_eq a b : Bound_eqb a b = true <-> a = b.
Proof.
  destruct a, b; simpl; split; intros H; try congruence; try reflexivity.
  - apply Z.eqb_eq in H; congruence.
  - injection H as ->; apply Z.eqb_refl.
Qed.

Lemma UnitRange_eqb_eq r1 r2 : UnitRange_eqb r1 r2 = true <-> r1 = r2.
Proof.
  destruct r1 as [a b], r2 as [c d]; unfold UnitRange_eqb; simpl.
  rewrite andb_true_iff, !Bound_eqb_eq. split; [intros [-> ->] | intros H; injection H as -> ->]; auto.
Qed.

Lemma Domain_eqb_eq d1 d2 : Domain_eqb d1 d2 = true <-> d1 = d2.
Proof.
  revert d2; induction d1 as [|[da ra] d1 IH]; intros [|[db rb] d2]; simpl;
    try (split; [discriminate | congruence]); [tauto|].
  unfold NamedRange_eqb; simpl.
  rewrite !andb_true_iff, Dimension_eqb_eq, UnitRange_eqb_eq, IH.
  split; [intros [[-> ->] ->] | intros H; injection H as -> -> ->]; auto.
Qed.

Lemma Domain_eqb_refl d : Domain_eqb d d = true.
Proof. apply Domain_eqb_eq; reflexivity. Qed.

Lemma DType_eqb_eq a b : DType_eqb a b = true <-> a = b.
Proof. destruct a, b; simpl; split; congruence. Qed.

Section BlockFacts.
Context {A : Type} (f : nat -> list A) (m : nat).
Hypothesis Hlen : forall i, length (f i) = m.

Lemma length_block n : length (block f n) = (n * m)%nat.
Proof.
  induction n as [|n IH]; simpl; [reflexivity|].
  rewrite length_app, IH, Hlen; lia.
Qed.

Lemma nth_block n i j d :
  (i < n)%nat -> (j < m)%nat -> nth (i * m + j) (block f n) d = nth j (f i) d.
Proof.
  induction n as [|n IH]; intros Hi Hj; [lia|]. simpl.
  destruct (Nat.eq_dec i n) as [->|Hne].
  - rewrite app_nth2; rewrite length_block; [|lia].
    f_equal; lia.
  - rewrite app_nth1; [apply IH; lia|].
    rewrite length_block. nia.
Qed.

Lemma in_block n x : In x (block f n) <-> exists i, (i < n)%nat /\ In x (f i).
Proof.
  induction n as [|n IH]; simpl.
  - split; [tauto | intros (i & Hi & _); lia].
  - rewrite in_app_iff, IH. split.
    + intros [(i & Hi & Hx) | Hx]; [exists i | exists n]; split; auto; lia.
    + intros (i & Hi & Hx). destruct (Nat.eq_dec i n) as [->|Hne]; [right; auto|].
      left; exists i; split; auto; lia.
Qed.
End BlockFacts.

Lemma length_indices sh : length (indices sh) = size sh.
Proof.
  induction sh as [|n sh IH]; simpl; [reflexivity|].
  rewrite (length_block _ (m := size sh)); [reflexivity|].
  intros i; rewrite length_map; exact IH.
Qed.

Lemma in_indices sh idx : In idx (indices sh) <-> in_bounds sh idx.
Proof.
  revert idx; induction sh as [|n sh IH]; intros idx; simpl.
  - split.
    + intros [<-|[]]; constructor.
    + intros H; inversion H; left; reflexivity.
  - rewrite in_block. split.
    + intros (i & Hi & Hx). apply in_map_iff in Hx as (idx' & <- & Hx).
      constructor; [exact Hi | apply IH; exact Hx].
    + intros H; inversion H as [|i ? idx' ? Hi Hrest]; subst.
      exists i; split; [exact Hi|]. apply in_map; apply IH; exact Hrest.
Qed.

Lemma in_bounds_length sh idx : in_bounds sh idx -> length idx = length sh.
Proof. intros H; induction H; simpl; congruence. Qed.

Lemma ravel_lt sh idx : in_bounds sh idx -> (ravel sh idx < size sh)%nat.
Proof.
  intros H; induction H as [|i n idx sh Hi _ IH]; simpl; [lia|].
  nia.
Qed.

Lemma nth_indices sh idx d :
  in_bounds sh idx -> nth (ravel sh idx) (indices sh) d = idx.
Proof.
  intros H; revert d; induction H as [|i n idx sh Hi Hrest IH]; intros d; simpl; [reflexivity|].
  rewrite (nth_block _ (m := size sh)).
  - rewrite nth_indep with (d' := i :: d).
    + change (i :: d) with ((cons i) d). rewrite map_nth, IH; reflexivity.
    + rewrite length_map, length_indices. apply ravel_lt; exact Hrest.
  - intros k; rewrite length_map; apply length_indices.
  - exact Hi.
  - apply ravel_lt; exact Hrest.
Qed.

Lemma item_build dt sh f idx : in_bounds sh idx -> item (build dt sh f) idx = f idx.
Proof.
  intros H; unfold item, build; simpl.
  rewrite nth_indep with (d' := f []).
  - rewrite map_nth, nth_indices; [reflexivity | exact H].
  - rewrite length_map, length_indices; apply ravel_lt; exact H.
Qed.

Lemma ravel_nth_indices sh k d :
  (k < size sh)%nat -> ravel sh (nth k (indices sh) d) = k.
Proof.
  revert k d; induction sh as [|n sh IH]; intros k d Hk; simpl in *.
  - destruct k; [reflexivity | lia].
  - set (m := size sh) in *.
    assert (Hm : forall i, length (map (cons i) (indices sh)) = m)
      by (intros i; rewrite length_map; apply length_indices).
    assert (0 < m)%nat by (destruct m; [lia | lia]).
    pose proof (Nat.div_mod_eq k m) as Hdm.
    assert (Hj : (k mod m < m)%nat) by (apply Nat.mod_upper_bound; lia).
    assert (Hi : (k / m < n)%nat) by (apply Nat.Div0.div_lt_upper_bound; lia).
    replace k with ((k / m) * m + k mod m)%nat at 1 by lia.
    rewrite (nth_block _ Hm) by assumption.
    rewrite nth_indep with (d' := (k / m)%nat :: d)
      by (rewrite Hm; exact Hj).
    rewrite (map_nth (cons (k / m)%nat)). rewrite IH by exact Hj. lia.
Qed.

(** An array is the table of its own entries. *)
Lemma build_item a : wf_ndarray a -> build (dtype a) (shape a) (item a) = a.
Proof.
  destruct a as [dt sh dat]; unfold wf_ndarray, build, item; simpl; intros Hwf.
  f_equal. apply nth_ext with (d := 0) (d' := 0).
  - rewrite length_map, length_indices; symmetry; exact Hwf.
  - intros k Hk. rewrite length_map, length_indices in Hk.
    set (g := fun idx => nth (ravel sh idx) dat 0).
    rewrite nth_indep with (d' := g [])
      by (rewrite length_map, length_indices; exact Hk).
    rewrite (map_nth g). unfold g. rewrite ravel_nth_indices by exact Hk. reflexivity.
Qed.

Lemma wf_build dt sh f : wf_ndarray (build dt sh f).
Proof. unfold wf_ndarray, build; simpl. rewrite length_map; apply length_indices. Qed.

Lemma build_ext dt sh f g :
  (forall idx, in_bounds sh idx -> f idx = g idx) -> build dt sh f = build dt sh g.
Proof.
  intros H; unfold build; f_equal. apply map_ext_in.
  intros idx Hin; apply H, in_indices, Hin.
Qed.

(** ** Scenarios *)

(** C2: for field A over [I:[0,5)] with values [0,1,2,3,4] and field B over
    [I:[2,7)] with values [10,20,30,40,50], the sum [A + B] is the field over
    [I:[2,5)] with values [12,23,34]. *)
Theorem add_fields_A_B :
  __add__ field_A (VField field_B) =
  Ok (mkNdArrayField [named_range I_dim 2 5] (mk_ndarray Int64DType [3%nat] [12; 23; 34])).
Proof. vm_compute. reflexivity. Qed.

(** C5: for the mask [True,True,False,False,True] over [I:[0,5)], a true
    field of ones and a false field of zeros over [I:[0,5)], [concat_where]
    returns the field with values [1,1,0,0,1] over [I:[0,5)]. *)
Theorem concat_where_alternating_mask :
  _concat_where mask_TTFFT (VField ones_field) (VField zeros_field) =
  Ok (mkNdArrayField [named_range I_dim 0 5] (mk_ndarray Int64DType [5%nat] [1; 1; 0; 0; 1])).
Proof. vm_compute. reflexivity. Qed.

(** ** [remap] and the kind of a connectivity *)

Lemma NdArrayConnectivityField_kind_cases (c : NdArrayConnectivityField) :
  NdArrayConnectivityField_kind c = 4 \/ NdArrayConnectivityField_kind c = 5
  \/ NdArrayConnectivityField_kind c = 7.
Proof.
  unfold NdArrayConnectivityField_kind, MODIFY_STRUCTURE, MODIFY_RANK, MODIFY_DIMS.
  destruct (1 <? ndim (domain (conn_field c)))%nat;
    destruct (dim_index (domain (conn_field c)) (_codomain c)); simpl; auto.
Qed.

(** C10: the kind of an array-backed connectivity always has the
    [MODIFY_STRUCTURE] flag, whatever its domain, codomain and entries are;
    so [remap] through it never reuses the array of the field: the new array
    is always the one [remap_gather] computes by restriction, rebasing and
    gather. *)
Theorem NdArrayConnectivityField_always_modifies_structure
  (c : NdArrayConnectivityField) (self : NdArrayField) :
  has_flag (kind c) MODIFY_STRUCTURE = true
  /\ Z.land (kind c) MODIFY_STRUCTURE = MODIFY_STRUCTURE
  /\ remap self c =
     (assert (skip_value_supported (skip_value c)) ;;;
      match dim_index (domain self) (codomain c) with
      | None => Raise (ValueError
                  "Incompatible index field, expected a field with the codomain dimension.")
      | Some dim_idx =>
          let current_range := nth dim_idx (ranges (domain self)) UnitRange_infinite in
          new_ranges <- connectivity_inverse_image c current_range ;;
          new_domain <- Domain_replace (domain self) dim_idx new_ranges ;;
          new_buffer <- remap_gather self c dim_idx current_range new_ranges ;;
          from_array new_buffer new_domain (Some (field_dtype self))
      end).
Proof.
  assert (Hflag : has_flag (kind c) MODIFY_STRUCTURE = true).
  { unfold has_flag; simpl.
    destruct (NdArrayConnectivityField_kind_cases c) as [-> | [-> | ->]]; reflexivity. }
  split; [exact Hflag|]. split.
  - simpl. destruct (NdArrayConnectivityField_kind_cases c) as [-> | [-> | ->]]; reflexivity.
  - unfold remap. rewrite Hflag. reflexivity.
Qed.

Lemma DType_eqb_refl dt : DType_eqb dt dt = true.
Proof. destruct dt; reflexivity. Qed.

Lemma asarray_same_dtype a : asarray a (Some (dtype a)) = Ok a.
Proof. unfold asarray. rewrite DType_eqb_refl. reflexivity. Qed.

(** [from_array] with the dtype the array already has keeps the array. *)
Lemma from_array_same_dtype a dom :
  from_array a dom (Some (dtype a)) = from_array a dom None.
Proof.
  unfold from_array. rewrite asarray_same_dtype. simpl.
  rewrite DType_eqb_refl. reflexivity.
Qed.

Lemma from_array_Ok_inv data dom f :
  from_array data dom None = Ok f -> f = mkNdArrayField dom data.
Proof.
  unfold from_array; simpl.
  destruct (assert (length dom =? length (shape data))%nat); simpl; [|discriminate].
  destruct (shape_matches (ranges dom) (shape data)) as [[|]|]; simpl; congruence.
Qed.

Lemma from_array_Ok data dom :
  length dom = length (shape data) ->
  shape_matches (ranges dom) (shape data) = Ok true ->
  from_array data dom None = Ok (mkNdArrayField dom data).
Proof.
  intros Hlen Hshape. unfold from_array; simpl.
  rewrite Hlen, Nat.eqb_refl; simpl. rewrite Hshape. reflexivity.
Qed.

(** C7: if the kind of a connectivity does not have the [MODIFY_STRUCTURE]
    flag, [remap] keeps the array of the field as it is and only replaces the
    domain by the one the inverse image of the connectivity gives: every
    field [remap] returns has the array of [self] and that domain, and
    [remap] returns this field whenever the new domain fits the array. *)
Theorem remap_compact_keeps_array {C : Type} `{ConnectivityField C}
  (self : NdArrayField) (connectivity : C) :
  has_flag (kind connectivity) MODIFY_STRUCTURE = false ->
  (forall f',
      remap self connectivity = Ok f' ->
      _ndarray f' = _ndarray self
      /\ exists dim_idx new_ranges,
          dim_index (domain self) (codomain connectivity) = Some dim_idx
          /\ connectivity_inverse_image connectivity
               (nth dim_idx (ranges (domain self)) UnitRange_infinite) = Ok new_ranges
          /\ Domain_replace (domain self) dim_idx new_ranges = Ok (_domain f'))
  /\ (forall dim_idx new_ranges new_domain,
         skip_value_supported (skip_value connectivity) = true ->
         dim_index (domain self) (codomain connectivity) = Some dim_idx ->
         connectivity_inverse_image connectivity
           (nth dim_idx (ranges (domain self)) UnitRange_infinite) = Ok new_ranges ->
         Domain_replace (domain self) dim_idx new_ranges = Ok new_domain ->
         length new_domain = length (shape (_ndarray self)) ->
         shape_matches (ranges new_domain) (shape (_ndarray self)) = Ok true ->
         remap self connectivity = Ok (mkNdArrayField new_domain (_ndarray self))).
Proof.
  intros Hkind. split.
  - intros f' Hremap. unfold remap in Hremap. rewrite Hkind in Hremap. simpl in Hremap.
    apply bind_Ok_inv in Hremap as (_ & _ & Hremap).
    destruct (dim_index (domain self) (codomain connectivity)) as [dim_idx|]; [|discriminate].
    apply bind_Ok_inv in Hremap as (new_ranges & Hinv & Hremap).
    apply bind_Ok_inv in Hremap as (new_domain & Hrep & Hremap).
    unfold field_dtype, ndarray_of in Hremap.
    rewrite from_array_same_dtype in Hremap.
    apply from_array_Ok_inv in Hremap. subst f'. simpl.
    split; [reflexivity|]. exists dim_idx, new_ranges. auto.
  - intros dim_idx new_ranges new_domain Hskip Hdim Hinv Hrep Hlen Hshape.
    unfold remap. rewrite Hskip, Hdim, Hkind. simpl. rewrite Hinv. simpl. rewrite Hrep. simpl.
    unfold field_dtype, ndarray_of. rewrite from_array_same_dtype.
    apply from_array_Ok; assumption.
Qed.

(** A shift by one along [I] applied to field A of the first scenario. *)
Lemma remap_compact_keeps_array_witness :
  has_flag (kind (mkCartesianConnectivity I_dim 1)) MODIFY_STRUCTURE = false
  /\ remap field_A (mkCartesianConnectivity I_dim 1) =
     Ok (mkNdArrayField [named_range I_dim (-1) 4] (_ndarray field_A)).
Proof.
  split; [reflexivity|].
  apply (proj2 (@remap_compact_keeps_array _ CartesianConnectivity_ConnectivityField
                  field_A (mkCartesianConnectivity I_dim 1) eq_refl)
           0%nat [named_range I_dim (-1) 4]); reflexivity.
Defined.

(** ** Domain intersection of a single well-formed domain *)

Lemma mem_dim_false_iff x l : mem_dim x l = false <-> ~ In x l.
Proof.
  unfold mem_dim. split.
  - intros H Hin. assert (existsb (Dimension_eqb x) l = true); [|congruence].
    apply existsb_exists. exists x; split; [exact Hin | apply Dimension_eqb_refl].
  - intros Hnin. destruct (existsb (Dimension_eqb x) l) eqn:E; [|reflexivity].
    apply existsb_exists in E as (y & Hy & Heq). apply Dimension_eqb_eq in Heq; subst y.
    contradiction.
Qed.

Lemma unique_dims_NoDup l : unique_dims l = true <-> NoDup l.
Proof.
  induction l as [|x l IH]; simpl.
  - split; [constructor | reflexivity].
  - rewrite andb_true_iff, negb_true_iff, mem_dim_false_iff, IH. split.
    + intros [H1 H2]; constructor; assumption.
    + intros H; inversion H; auto.
Qed.

Lemma promote_dims_into_fresh acc l :
  NoDup l -> (forall x, In x l -> ~ In x acc) -> promote_dims_into acc l = acc ++ l.
Proof.
  revert acc; induction l as [|x l IH]; intros acc Hnd Hfresh; simpl.
  - symmetry; apply app_nil_r.
  - inversion Hnd as [|? ? Hx Hl]; subst.
    assert (Hm : mem_dim x acc = false) by (apply mem_dim_false_iff, Hfresh; left; reflexivity).
    rewrite Hm, IH.
    + rewrite <- app_assoc; reflexivity.
    + exact Hl.
    + intros y Hy Hin. apply in_app_iff in Hin as [Hin | [<- | []]].
      * apply (Hfresh y); [right; exact Hy | exact Hin].
      * contradiction.
Qed.

Lemma find_dim_in {A} (dim : Dimension) (l : list (Dimension * A)) (x : A) :
  NoDup (map fst l) -> In (dim, x) l ->
  exists i, find_dim dim l = Some i /\ nth_error l i = Some (dim, x).
Proof.
  induction l as [|[d y] l IH]; simpl; intros Hnd Hin; [contradiction|].
  inversion Hnd as [|? ? Hd Hl]; subst.
  destruct Hin as [Heq | Hin].
  - injection Heq as -> ->. rewrite Dimension_eqb_refl. exists 0%nat; auto.
  - destruct (Dimension_eqb d dim) eqn:E.
    + apply Dimension_eqb_eq in E; subst d. exfalso; apply Hd.
      change dim with (fst (dim, x)). apply in_map; exact Hin.
    + destruct (IH Hl Hin) as (i & Hf & Hn). exists (S i). rewrite Hf. auto.
Qed.

Lemma broadcast_range_in (d : Domain) dim r :
  NoDup (dims d) -> In (dim, r) d -> broadcast_range d dim = r.
Proof.
  intros Hnd Hin. unfold broadcast_range, dim_index.
  destruct (find_dim_in _ _ _ Hnd Hin) as (i & -> & Hn).
  unfold ranges. apply nth_error_nth with (d := UnitRange_infinite).
  rewrite nth_error_map, Hn. reflexivity.
Qed.

Lemma UnitRange_and_infinite_l r :
  UnitRange_canonical r -> UnitRange_and UnitRange_infinite r = r.
Proof.
  intros Hc. unfold UnitRange_and; simpl.
  replace (Bound_max NegInf (start r)) with (start r) by (destruct (start r); reflexivity).
  replace (Bound_min PosInf (stop r)) with (stop r) by (destruct (stop r); reflexivity).
  exact Hc.
Qed.

Lemma Domain_and_nil_l d : wf_domain d -> Domain_and [] d = d.
Proof.
  intros [Hu Hc]. apply unique_dims_NoDup in Hu.
  unfold Domain_and, promote_dims; simpl.
  rewrite (@promote_dims_into_fresh [] (dims d)) by (auto; exact Hu). simpl.
  unfold dims. rewrite map_map.
  transitivity (map (fun nr : NamedRange => nr) d); [|apply map_id].
  apply map_ext_in.
  intros [dim r] Hin; simpl. f_equal.
  rewrite (broadcast_range_in d dim r Hu Hin).
  apply UnitRange_and_infinite_l.
  rewrite Forall_forall in Hc. apply Hc. unfold ranges.
  change r with (snd (dim, r)). apply in_map; exact Hin.
Qed.

Lemma domain_intersection_single d : wf_domain d -> domain_intersection [d] = d.
Proof. intros H. unfold domain_intersection; simpl. apply Domain_and_nil_l, H. Qed.

Lemma mem_dim_true_iff x l : mem_dim x l = true <-> In x l.
Proof.
  destruct (mem_dim x l) eqn:E.
  - split; [intros _|reflexivity].
    unfold mem_dim in E. apply existsb_exists in E as (y & Hy & Heq).
    apply Dimension_eqb_eq in Heq; subst y; exact Hy.
  - apply mem_dim_false_iff in E. split; [discriminate | contradiction].
Qed.

Lemma promote_dims_into_present acc l :
  (forall x, In x l -> In x acc) -> promote_dims_into acc l = acc.
Proof.
  induction l as [|x l IH]; simpl; intros H; [reflexivity|].
  replace (mem_dim x acc) with true
    by (symmetry; apply mem_dim_true_iff, H; left; reflexivity).
  apply IH. intros y Hy; apply H; right; exact Hy.
Qed.




(** ** The boolean operators *)

Lemma mapM_Ok {A B} (f : A -> result B) (g : A -> B) l :
  (forall x, In x l -> f x = Ok (g x)) -> mapM f l = Ok (map g l).
Proof.
  induction l as [|x l IH]; simpl; intros H; [reflexivity|].
  rewrite (H x (or_introl eq_refl)). simpl. rewrite IH by auto. reflexivity.
Qed.


Lemma broadcast_shapes_nil_r s : broadcast_shapes s [] = Ok s.
Proof.
  unfold broadcast_shapes, pad_shape. simpl.
  rewrite Nat.max_0_r, Nat.sub_diag, Nat.sub_0_r. simpl.
  induction s as [|n s IH]; simpl; [reflexivity|].
  rewrite IH. simpl.
  unfold broadcast_axis. destruct (n =? 1)%nat eqn:E; [|reflexivity].
  apply Nat.eqb_eq in E; subst; reflexivity.
Qed.





Lemma xp_logical_or a b :
  xp_getattr "logical_or" [a; b] =
  elementwise BoolDType (binary (fun x y => Z_of_bool (truth x || truth y))) [a; b].
Proof. reflexivity. Qed.


(** ** [concat_where]: trimming and gaps *)

Lemma drop_empty_domains_nonempty_head x l :
  Domain_is_empty (snd x) = false -> drop_empty_domains (x :: l) = x :: l.
Proof. intros H; simpl; rewrite H; reflexivity. Qed.

(** [_trim_empty_domains] removes exactly the empty domains at both ends. *)
Lemma _trim_empty_domains_both_ends l : _trim_empty_domains l = trim_both_ends l.
Proof.
  funelim (_trim_empty_domains l); unfold trim_both_ends in *.
  - reflexivity.
  - rewrite H. simpl. rewrite Heq. reflexivity.
  - change (match l with [] => [] | _ :: _ => x :: removelast l end)
      with (removelast (x :: l)) in H.
    rewrite H.
    assert (Hne : x :: l <> []) by discriminate.
    pose proof (app_removelast_last x Hne) as Hsplit.
    remember (removelast (x :: l)) as k eqn:Hk.
    remember (last (x :: l) x) as z eqn:Hz.
    destruct k as [|y k].
    + simpl in Hsplit. injection Hsplit as Hx Hl. subst l. simpl in Hz. subst z.
      congruence.
    + simpl in Hsplit. injection Hsplit as Hx Hl. subst y.
      rewrite (@drop_empty_domains_nonempty_head x k Heq0).
      rewrite (@drop_empty_domains_nonempty_head x l Heq0).
      rewrite Hl. change (x :: k ++ [z]) with ((x :: k) ++ [z]).
      rewrite rev_app_distr. simpl. rewrite Heq. reflexivity.
  - rewrite (@drop_empty_domains_nonempty_head x l Heq0).
    assert (Hne : x :: l <> []) by discriminate.
    rewrite (app_removelast_last x Hne) at 2.
    rewrite rev_app_distr.
    change (rev [last (x :: l) x] ++ rev (removelast (x :: l)))
      with (last (x :: l) x :: rev (removelast (x :: l))).
    rewrite (@drop_empty_domains_nonempty_head (last (x :: l) x) _ Heq).
    change (last (x :: l) x :: rev (removelast (x :: l)))
      with (rev [last (x :: l) x] ++ rev (removelast (x :: l))).
    rewrite <- rev_app_distr, rev_involutive, <- app_removelast_last by exact Hne.
    reflexivity.
Qed.

(** C4: for a one-dimensional mask, if after the empty domains at both ends
    are trimmed some remaining run has an empty domain (the domain of the run
    intersected with the domain of the field the run selects), then
    [concat_where] fails with the non-contiguous domain error. *)
Theorem concat_where_gap_fails
  (mask_field : NdArrayField) (true_field false_field : value) (mask_dim : Dimension)
  (t_broadcasted f_broadcasted : NdArrayField) (runs : list (bool * Domain)) :
  dims (domain mask_field) = [mask_dim] ->
  _intersect_fields [true_field; false_field] [mask_dim] = Ok [t_broadcasted; f_broadcasted] ->
  mask_run_domains mask_field = Ok runs ->
  existsb (fun p : bool * Domain => Domain_is_empty (snd p))
          (_trim_empty_domains (intersected_run_domains t_broadcasted f_broadcasted runs)) = true ->
  _concat_where mask_field true_field false_field =
  Raise (NonContiguousDomain "In 'concat_where', cannot concatenate the following 'Domain's.").
Proof.
  intros Hdim Hinter Hruns Hgap.
  unfold _concat_where. simpl. rewrite Hdim, Hinter. simpl.
  unfold mask_run_domains in Hruns.
  destruct (_compute_mask_ranges (ndarray_of mask_field)) as [rel|e]; simpl in *; [|discriminate].
  rewrite Hruns. simpl.
  unfold intersected_run_domains in Hgap. rewrite Hgap. reflexivity.
Qed.

Lemma concat_where_gap_fails_witness :
  _concat_where mask_TFT (VField true_field_0_3) (VField false_field_5_8) =
  Raise (NonContiguousDomain "In 'concat_where', cannot concatenate the following 'Domain's.").
Proof.
  apply (@concat_where_gap_fails mask_TFT (VField true_field_0_3) (VField false_field_5_8)
           I_dim true_field_0_3 false_field_5_8
           [(true, [named_range I_dim 0 1]); (false, [named_range I_dim 1 2]);
            (true, [named_range I_dim 2 3])]);
    vm_compute; reflexivity.
Defined.

(** ** The program parser *)





(** ** Restriction of a field to its own domain *)

Lemma Bound_leb_refl b : Bound_leb b b = true.
Proof.
  unfold Bound_leb. replace (Bound_eqb b b) with true; [apply orb_true_r|].
  symmetry; apply Bound_eqb_eq; reflexivity.
Qed.

Lemma UnitRange_le_refl r : UnitRange_le r r = true.
Proof. unfold UnitRange_le. rewrite !Bound_leb_refl. reflexivity. Qed.

Lemma sub_domain_found (dom : Domain) (index : AbsoluteIndexSequence) :
  (forall dim r, In (dim, r) dom ->
     exists pos, find_dim dim index = Some pos
                 /\ nth_error index pos = Some (dim, a_range r)) ->
  sub_domain dom index = Ok dom.
Proof.
  induction dom as [|[dim r] dom IH]; intros H; simpl; [reflexivity|].
  destruct (H dim r (or_introl eq_refl)) as (pos & -> & ->).
  rewrite UnitRange_le_refl, IH; [reflexivity|].
  intros dim' r' Hin. apply H. right; exact Hin.
Qed.

Lemma dims_Domain_as_index d : map fst (Domain_as_index d) = dims d.
Proof. unfold Domain_as_index, dims. rewrite map_map. reflexivity. Qed.

Lemma find_dim_Domain_as_index d dim r :
  NoDup (dims d) -> In (dim, r) d ->
  exists pos, find_dim dim (Domain_as_index d) = Some pos
              /\ nth_error (Domain_as_index d) pos = Some (dim, a_range r).
Proof.
  intros Hnd Hin. apply find_dim_in.
  - rewrite dims_Domain_as_index; exact Hnd.
  - unfold Domain_as_index. apply in_map_iff. exists (dim, r); auto.
Qed.

Lemma sub_domain_own d : NoDup (dims d) -> sub_domain d (Domain_as_index d) = Ok d.
Proof.
  intros Hnd. apply sub_domain_found. intros dim r Hin.
  apply find_dim_Domain_as_index; assumption.
Qed.

Lemma in_combine_seq {A} (l : list A) k pos x :
  In (pos, x) (combine (seq k (length l)) l) -> nth_error l (pos - k) = Some x /\ (k <= pos)%nat.
Proof.
  revert k; induction l as [|y l IH]; simpl; intros k Hin; [contradiction|].
  destruct Hin as [Heq | Hin].
  - injection Heq as -> ->. rewrite Nat.sub_diag. auto.
  - apply IH in Hin as [Hn Hle].
    replace (pos - k)%nat with (S (pos - S k)) by lia. simpl. split; [exact Hn | lia].
Qed.

Lemma map_combine_seq_nth {A B C} (l : list A) (l' : list B) (F : A -> C) d0 :
  length l' = length l ->
  map (fun pd : nat * B => F (nth (fst pd) l d0)) (combine (seq 0 (length l)) l') = map F l.
Proof.
  intros Hlen.
  assert (Hgen : forall k (l1 : list A) (l2 : list B),
             length l2 = length l1 ->
             (forall i, nth (k + i) l d0 = nth i l1 d0) ->
             map (fun pd : nat * B => F (nth (fst pd) l d0)) (combine (seq k (length l1)) l2)
             = map F l1).
  { intros k l1; revert k; induction l1 as [|x l1 IH]; intros k [|y l2] Hl Hn; simpl in *;
      try reflexivity; try discriminate.
    f_equal.
    - specialize (Hn 0%nat). rewrite Nat.add_0_r in Hn. simpl in Hn. rewrite Hn. reflexivity.
    - apply IH; [congruence|]. intros i. specialize (Hn (S i)).
      rewrite Nat.add_succ_r in Hn. exact Hn. }
  apply Hgen; [exact Hlen | reflexivity].
Qed.

Lemma _get_slices_own d :
  NoDup (dims d) -> Domain_is_finite d = true ->
  _get_slices_from_domain_slice d (Domain_as_index d) = Ok (map own_slice (ranges d)).
Proof.
  intros Hnd Hfin. unfold _get_slices_from_domain_slice.
  rewrite (@mapM_Ok _ _ _ (fun pd : nat * Dimension =>
                              own_slice (nth (fst pd) (ranges d) UnitRange_infinite))).
  - f_equal. replace (length d) with (length (ranges d)) by apply length_map.
    apply map_combine_seq_nth. unfold dims, ranges. rewrite !length_map. reflexivity.
  - intros [pos dim] Hin.
    replace (length d) with (length (dims d)) in Hin by apply length_map.
    apply in_combine_seq in Hin as [Hn _]. rewrite Nat.sub_0_r in Hn.
    unfold dims in Hn. rewrite nth_error_map in Hn.
    destruct (@nth_error (Dimension * UnitRange) d pos) as [[dim' r]|] eqn:Hd;
      simpl in Hn; [|discriminate Hn].
    assert (dim' = dim) by congruence. subst dim'. clear Hn.
    destruct (@find_dim_Domain_as_index d dim r Hnd (nth_error_In _ _ Hd)) as (p & -> & ->).
    simpl.
    assert (Hr : nth pos (ranges d) UnitRange_infinite = r).
    { apply nth_error_nth. unfold ranges. rewrite nth_error_map, Hd. reflexivity. }
    unfold _compute_slice. rewrite Hr.
    assert (Hrf : UnitRange_is_finite r = true).
    { unfold Domain_is_finite in Hfin. rewrite forallb_forall in Hfin. apply Hfin.
      unfold ranges. change r with (snd (dim, r)). apply in_map. eapply nth_error_In; eauto. }
    unfold UnitRange_is_finite, is_left_finite, is_right_finite in Hrf.
    unfold own_slice.
    destruct (start r), (stop r); simpl in *; try discriminate. reflexivity.
Qed.

(** A finite canonical range: integer bounds with [start <= stop]. *)
Lemma finite_canonical_bounds r :
  UnitRange_is_finite r = true -> UnitRange_canonical r ->
  exists s e, start r = Int s /\ stop r = Int e /\ s <= e.
Proof.
  destruct r as [[|s|] [|e|]]; unfold UnitRange_is_finite, UnitRange_canonical, UnitRange_make;
    simpl; intros Hf Hc; try discriminate.
  exists s, e. repeat split. destruct (s <? e) eqn:E.
  - apply Z.ltb_lt in E; lia.
  - injection Hc as <- <-. lia.
Qed.

Lemma index_plan_own rs sh :
  Forall2 (fun r (_ : nat) => exists s e, start r = Int s /\ stop r = Int e /\ s <= e) rs sh ->
  index_plan sh (map own_slice rs) =
  Ok (map (fun p => Sel 0 (own_slice_len (fst p) (snd p))) (combine rs sh)).
Proof.
  induction 1 as [|r n rs sh (s & e & Hs & He & Hle) _ IH]; simpl; [reflexivity|].
  unfold own_slice at 1. rewrite Hs, He. simpl. rewrite IH. simpl.
  unfold own_slice_len at 2; simpl. rewrite Hs, He.
  rewrite Z.sub_diag. simpl.
  replace (e - s <? 0) with false by (symmetry; apply Z.ltb_ge; lia).
  replace (Z.min 0 (Z.of_nat n)) with 0 by lia.
  rewrite Z.sub_0_r. reflexivity.
Qed.

Lemma plan_shape_Sel {A} (g : A -> nat) (l : list A) :
  plan_shape (map (fun p => Sel 0 (g p)) l) = map g l.
Proof. induction l as [|x l IH]; simpl; [reflexivity | rewrite IH; reflexivity]. Qed.

Lemma plan_source_Sel {A} (g : A -> nat) (l : list A) idx :
  length idx = length l -> plan_source (map (fun p => Sel 0 (g p)) l) idx = idx.
Proof.
  revert idx; induction l as [|x l IH]; intros [|i idx] Hlen; simpl in *;
    try reflexivity; try discriminate.
  rewrite IH by congruence. reflexivity.
Qed.

Lemma shape_matches_Forall2 rs sh :
  length rs = length sh ->
  shape_matches rs sh = Ok true ->
  Forall2 (fun r n => n = 1%nat \/ UnitRange_len r = Ok n) rs sh.
Proof.
  revert sh; induction rs as [|r rs IH]; intros [|n sh] Hlen H; simpl in *;
    try discriminate; constructor.
  - destruct (n =? 1)%nat eqn:E; [left; apply Nat.eqb_eq; exact E|].
    right. destruct (UnitRange_len r) as [m|]; simpl in H; [|discriminate].
    destruct (m =? n)%nat eqn:E'; [|discriminate]. apply Nat.eqb_eq in E'. congruence.
  - apply IH; [congruence|].
    destruct (n =? 1)%nat; simpl in H; [exact H|].
    destruct (UnitRange_len r) as [m|]; simpl in H; [|discriminate].
    destruct (m =? n)%nat; [exact H | discriminate].
Qed.

Lemma Forall2_shape_matches rs sh :
  Forall2 (fun r n => n = 1%nat \/ UnitRange_len r = Ok n) rs sh ->
  shape_matches rs sh = Ok true.
Proof.
  induction 1 as [|r n rs sh Hrn _ IH]; simpl; [reflexivity|].
  destruct (n =? 1)%nat eqn:E; simpl; [exact IH|].
  destruct Hrn as [-> | ->]; [discriminate|]. simpl. rewrite Nat.eqb_refl. exact IH.
Qed.

Lemma Forall2_conj {A B} (P Q : A -> B -> Prop) l1 l2 :
  Forall2 P l1 l2 -> Forall2 Q l1 l2 -> Forall2 (fun a b => P a b /\ Q a b) l1 l2.
Proof.
  induction 1; intros HQ; inversion HQ; subst; constructor; auto.
Qed.

Lemma Forall_Forall2_l {A B} (P : A -> Prop) (l1 : list A) (l2 : list B) :
  length l1 = length l2 -> Forall P l1 -> Forall2 (fun a _ => P a) l1 l2.
Proof.
  revert l2; induction l1 as [|a l1 IH]; intros [|b l2] Hlen H; simpl in *;
    try discriminate; constructor; inversion H; subst; auto.
Qed.

(** In bounds of a shape, an axis of length one is read at [0] anyway. *)
Lemma broadcast_index_in_bounds sh idx : in_bounds sh idx -> broadcast_index sh idx = idx.
Proof.
  intros H. unfold broadcast_index.
  rewrite (in_bounds_length H), Nat.sub_diag. simpl.
  induction H as [|i n idx sh Hi _ IH]; simpl; [reflexivity|].
  rewrite IH. destruct (n =? 1)%nat eqn:E; [|reflexivity].
  apply Nat.eqb_eq in E. f_equal. lia.
Qed.

Lemma in_bounds_weaken sh' sh idx :
  Forall2 le sh' sh -> in_bounds sh' idx -> in_bounds sh idx.
Proof.
  unfold in_bounds.
  intros Hle; revert idx; induction Hle as [|n' n sh' sh Hn _ IH]; intros idx H;
    inversion H; subst; constructor.
  - lia.
  - apply IH; assumption.
Qed.

Lemma broadcast_shapes_left s1 s2 :
  Forall2 (fun a b => broadcast_axis a b = Ok a) s1 s2 -> broadcast_shapes s1 s2 = Ok s1.
Proof.
  intros H. unfold broadcast_shapes, pad_shape.
  rewrite <- (Forall2_length H), Nat.max_id, !Nat.sub_diag. simpl.
  induction H as [|a b s1 s2 Hab _ IH]; simpl; [reflexivity|].
  rewrite Hab. simpl. rewrite IH. reflexivity.
Qed.

(** What [own_slice] keeps of an axis that has the length of its range or
    the length one. *)
Lemma own_slice_len_axis r n :
  (exists s e, start r = Int s /\ stop r = Int e /\ s <= e) ->
  n = 1%nat \/ UnitRange_len r = Ok n ->
  (own_slice_len r n = 1%nat \/ UnitRange_len r = Ok (own_slice_len r n))
  /\ broadcast_axis (own_slice_len r n) n = Ok (own_slice_len r n)
  /\ (own_slice_len r n <= n)%nat
  /\ ((n = 1%nat -> UnitRange_is_empty r = false) -> own_slice_len r n = n).
Proof.
  intros (s & e & Hs & He & Hle) Hn.
  unfold own_slice_len, UnitRange_len, UnitRange_is_empty in *. rewrite Hs, He in *.
  destruct Hn as [-> | Hn].
  - destruct (Z.eq_dec (e - s) 0) as [Hz | Hz].
    + rewrite Hz. simpl. repeat split; auto.
      intros Hne. specialize (Hne eq_refl). apply Z.leb_gt in Hne. lia.
    + replace (Z.to_nat (Z.min (e - s) (Z.of_nat 1))) with 1%nat by lia.
      repeat split; auto.
  - injection Hn as Hn. subst n.
    replace (Z.to_nat (Z.min (e - s) (Z.of_nat (Z.to_nat (e - s))))) with (Z.to_nat (e - s)) by lia.
    repeat split; auto.
    unfold broadcast_axis. rewrite Nat.eqb_refl. reflexivity.
Qed.

Lemma Forall2_map_combine_l {A B C} (R : A -> B -> Prop) (Q : A -> C -> Prop)
  (g : A * B -> C) l1 l2 :
  Forall2 R l1 l2 -> (forall a b, R a b -> Q a (g (a, b))) ->
  Forall2 Q l1 (map g (combine l1 l2)).
Proof. induction 1; simpl; intros HQ; constructor; auto. Qed.

Lemma Forall2_map_combine_r {A B C} (R : A -> B -> Prop) (Q : C -> B -> Prop)
  (g : A * B -> C) l1 l2 :
  Forall2 R l1 l2 -> (forall a b, R a b -> Q (g (a, b)) b) ->
  Forall2 Q (map g (combine l1 l2)) l2.
Proof. induction 1; simpl; intros HQ; constructor; auto. Qed.

Lemma Forall2_map_combine_eq {A B} (R : A -> B -> Prop) (g : A * B -> B) l1 l2 :
  Forall2 R l1 l2 -> (forall a b, R a b -> g (a, b) = b) -> map g (combine l1 l2) = l2.
Proof. induction 1; simpl; intros Hg; [reflexivity|]. rewrite Hg, IHForall2; auto. Qed.

(** The axes of a well-formed field with a finite domain. *)
Lemma wf_field_axes f :
  wf_field f -> Domain_is_finite (domain f) = true ->
  Forall2 (fun r n => (exists s e, start r = Int s /\ stop r = Int e /\ s <= e)
                      /\ (n = 1%nat \/ UnitRange_len r = Ok n))
          (ranges (domain f)) (shape (_ndarray f)).
Proof.
  intros ((Hu & Hc) & Hwa & Hlen & Hsm) Hfin.
  assert (Hl : length (ranges (domain f)) = length (shape (_ndarray f)))
    by (unfold ranges; rewrite length_map; exact Hlen).
  apply Forall2_conj.
  - apply Forall_Forall2_l; [exact Hl|].
    rewrite Forall_forall in *. intros r Hr.
    apply finite_canonical_bounds; [|apply Hc; exact Hr].
    unfold Domain_is_finite in Hfin. rewrite forallb_forall in Hfin. apply Hfin; exact Hr.
  - apply shape_matches_Forall2; assumption.
Qed.

(** C6: restricting a well-formed field with a finite domain to its own
    domain returns a field with the same domain, the same dtype and
    elementwise-equal array values; the array is the very same array unless
    an axis of length one stands for an empty range. *)
Theorem restrict_own_domain (f : NdArrayField) :
  wf_field f -> Domain_is_finite (domain f) = true ->
  exists f',
    restrict f (Domain_as_index (domain f)) = Ok f'
    /\ domain f' = domain f
    /\ field_dtype f' = field_dtype f
    /\ elementwise_equal (_ndarray f') (_ndarray f)
    /\ (no_empty_placeholder f -> f' = f).
Proof.
  intros Hwf Hfin. pose proof (wf_field_axes Hwf Hfin) as Hax.
  destruct Hwf as ((Hu & Hc) & Hwa & Hlen & Hsm).
  apply unique_dims_NoDup in Hu.
  destruct f as [d a]; unfold domain, ndarray_of, field_dtype in *; simpl in *.
  set (sh' := map (fun p => own_slice_len (fst p) (snd p)) (combine (ranges d) (shape a))).
  assert (Hlen' : length sh' = length (shape a)).
  { unfold sh'. rewrite length_map, length_combine, (Forall2_length Hax). apply Nat.min_id. }
  assert (Hget : getitem a (map own_slice (ranges d)) = Ok (build (dtype a) sh' (item a))).
  { unfold getitem. rewrite index_plan_own.
    - simpl. rewrite plan_shape_Sel. fold sh'. f_equal. apply build_ext.
      intros idx Hidx. rewrite plan_source_Sel; [reflexivity|].
      rewrite (in_bounds_length Hidx). unfold sh'. apply length_map.
    - eapply Forall2_impl; [|exact Hax]. intros r n [H _]; exact H. }
  exists (mkNdArrayField d (build (dtype a) sh' (item a))).
  split; [|split; [reflexivity | split; [reflexivity | split]]].
  - unfold restrict, _slice, domain, ndarray_of; simpl.
    rewrite (@sub_domain_own d Hu), (@_get_slices_own d Hu Hfin). simpl.
    rewrite Hget. simpl. apply from_array_Ok; simpl.
    + congruence.
    + apply Forall2_shape_matches. unfold sh'.
      eapply Forall2_map_combine_l; [exact Hax|].
      intros r n [Hb Hn]. simpl. apply (@own_slice_len_axis r n Hb Hn).
  - exists sh'. simpl. split.
    + apply broadcast_shapes_left. unfold sh'.
      eapply Forall2_map_combine_r; [exact Hax|].
      intros r n [Hb Hn]. simpl. apply (@own_slice_len_axis r n Hb Hn).
    + intros idx Hidx.
      rewrite (broadcast_index_in_bounds Hidx), item_build by exact Hidx.
      rewrite broadcast_index_in_bounds; [reflexivity|].
      apply in_bounds_weaken with (sh' := sh'); [|exact Hidx]. unfold sh'.
      eapply Forall2_map_combine_r; [exact Hax|].
      intros r n [Hb Hn]. simpl. apply (@own_slice_len_axis r n Hb Hn).
  - intros Hne. unfold no_empty_placeholder in Hne; simpl in Hne.
    assert (Hsh : sh' = shape a).
    { unfold sh'. apply Forall2_map_combine_eq with
        (R := fun r n => ((exists s e, start r = Int s /\ stop r = Int e /\ s <= e)
                          /\ (n = 1%nat \/ UnitRange_len r = Ok n))
                         /\ (n = 1%nat -> UnitRange_is_empty r = false)).
      - apply Forall2_conj; assumption.
      - intros r n [[Hb Hn] He]. simpl. apply (@own_slice_len_axis r n Hb Hn). exact He. }
    rewrite Hsh, build_item by exact Hwa. reflexivity.
Qed.

(** Field A of the first scenario restricted to [I:[0,5)]. *)
Lemma restrict_own_domain_witness :
  exists f',
    restrict field_A (Domain_as_index (domain field_A)) = Ok f'
    /\ domain f' = domain field_A
    /\ field_dtype f' = field_dtype field_A
    /\ elementwise_equal (_ndarray f') (_ndarray field_A)
    /\ (no_empty_placeholder field_A -> f' = field_A).
Proof.
  apply (@restrict_own_domain field_A).
  - repeat split; try reflexivity.
    repeat constructor.
  - reflexivity.
Defined.

(** ** The boolean operators on fields *)





(** ** [_hypercube] and [inverse_image] *)

Lemma item_array_map dt f a p :
  wf_ndarray a -> in_bounds (shape a) p ->
  item (array_map dt f a) p = f (item a p).
Proof.
  intros Hwf Hp. unfold item, array_map; simpl.
  rewrite nth_indep with (d' := f 0).
  - apply map_nth.
  - rewrite length_map, Hwf. apply ravel_lt; exact Hp.
Qed.

Lemma truth_Z_of_bool b : truth (Z_of_bool b) = b.
Proof. destruct b; reflexivity. Qed.

Lemma fold_left_min_spec l x :
  In (fold_left Z.min l x) (x :: l) /\ forall y, In y (x :: l) -> fold_left Z.min l x <= y.
Proof.
  revert x; induction l as [|z l IH]; intros x; simpl.
  - split; [left; reflexivity | intros y [<- | []]; lia].
  - destruct (IH (Z.min x z)) as [Hin Hle]. split.
    + destruct Hin as [Heq | Hin]; [|right; right; exact Hin].
      rewrite <- Heq. destruct (Z.min_spec x z) as [[_ ->] | [_ ->]]; auto.
    + intros y [<- | [<- | Hy]].
      * specialize (Hle (Z.min x z) (or_introl eq_refl)). lia.
      * specialize (Hle (Z.min x z) (or_introl eq_refl)). lia.
      * apply Hle. right; exact Hy.
Qed.

Lemma fold_left_max_spec l x :
  In (fold_left Z.max l x) (x :: l) /\ forall y, In y (x :: l) -> y <= fold_left Z.max l x.
Proof.
  revert x; induction l as [|z l IH]; intros x; simpl.
  - split; [left; reflexivity | intros y [<- | []]; lia].
  - destruct (IH (Z.max x z)) as [Hin Hle]. split.
    + destruct Hin as [Heq | Hin]; [|right; right; exact Hin].
      rewrite <- Heq. destruct (Z.max_spec x z) as [[_ ->] | [_ ->]]; auto.
    + intros y [<- | [<- | Hy]].
      * specialize (Hle (Z.max x z) (or_introl eq_refl)). lia.
      * specialize (Hle (Z.max x z) (or_introl eq_refl)). lia.
      * apply Hle. right; exact Hy.
Qed.

Lemma Forall2_map_seq {A B} (R : A -> B -> Prop) (h : nat -> A) (l : list B) d :
  (forall k, (k < length l)%nat -> R (h k) (nth k l d)) ->
  Forall2 R (map h (seq 0 (length l))) l.
Proof.
  assert (Hgen : forall k0 (l1 : list B),
             (forall k, (k < length l1)%nat -> R (h (k0 + k)%nat) (nth k l1 d)) ->
             Forall2 R (map h (seq k0 (length l1))) l1).
  { intros k0 l1; revert k0; induction l1 as [|x l1 IH]; intros k0 H; simpl; constructor.
    - specialize (H 0%nat). rewrite Nat.add_0_r in H. apply H. simpl; lia.
    - apply IH. intros k Hk. specialize (H (S k)). rewrite Nat.add_succ_r in H.
      apply H. simpl; lia. }
  intros H. apply Hgen. exact H.
Qed.

Lemma in_bounds_nth sh p k :
  in_bounds sh p -> (k < length sh)%nat -> (nth k p 0 < nth k sh 0)%nat.
Proof.
  intros H; revert k; induction H as [|i n p sh Hi _ IH]; intros k Hk; simpl in *; [lia|].
  destruct k; [exact Hi | apply IH; lia].
Qed.

Lemma index_plan_box b sh : box_fits b sh -> index_plan sh (box_slices b) = Ok (box_plan b).
Proof.
  induction 1 as [|[lo hi] n b sh (H0 & Hlt & Hle) _ IH]; simpl in *; [reflexivity|].
  rewrite IH. simpl.
  replace (lo <? 0) with false by (symmetry; apply Z.ltb_ge; lia).
  replace (hi <? 0) with false by (symmetry; apply Z.ltb_ge; lia).
  rewrite !Z.min_l by lia. reflexivity.
Qed.

Lemma plan_shape_box b : plan_shape (box_plan b) = box_shape b.
Proof. induction b as [|lh b IH]; simpl; [reflexivity | rewrite IH; reflexivity]. Qed.

Lemma plan_source_box_in b sh ridx :
  box_fits b sh -> in_bounds (box_shape b) ridx ->
  in_bounds sh (plan_source (box_plan b) ridx) /\ in_box b (plan_source (box_plan b) ridx).
Proof.
  unfold in_bounds, in_box.
  intros Hfit; revert ridx; induction Hfit as [|[lo hi] n b sh (H0 & Hlt & Hle) _ IH];
    intros ridx Hr; simpl in *.
  - split; constructor.
  - inversion Hr as [|i m ridx' ? Hi Hrest]; subst. simpl.
    destruct (IH ridx' Hrest) as [Hb Hx]. split; constructor; auto; simpl; lia.
Qed.

Lemma plan_source_box_onto b sh p :
  box_fits b sh -> in_bounds sh p -> in_box b p ->
  exists ridx, in_bounds (box_shape b) ridx /\ plan_source (box_plan b) ridx = p.
Proof.
  unfold in_bounds, in_box.
  intros Hfit; revert p; induction Hfit as [|[lo hi] n b sh (H0 & Hlt & Hle) _ IH];
    intros p Hp Hbox; simpl in *.
  - inversion Hbox; subst. exists []. split; constructor.
  - inversion Hbox as [|? i ? p' Hi Hrest]; subst. inversion Hp as [|? ? ? ? Hin Hp']; subst.
    destruct (IH p' Hp' Hrest) as (ridx & Hr & Hsrc).
    exists ((i - Z.to_nat lo)%nat :: ridx). simpl in *. split.
    + constructor; [lia | exact Hr].
    + rewrite Hsrc. f_equal. lia.
Qed.

Lemma xp_all_build dt sh G :
  xp_all (build dt sh G) = true <-> forall idx, in_bounds sh idx -> truth (G idx) = true.
Proof.
  unfold xp_all, build; simpl. rewrite forallb_forall. split.
  - intros H idx Hidx. apply H. apply in_map. apply in_indices. exact Hidx.
  - intros H z Hz. apply in_map_iff in Hz as (idx & <- & Hin). apply H, in_indices, Hin.
Qed.

Lemma broadcast_axis_same n : broadcast_axis n n = Ok n.
Proof. unfold broadcast_axis. rewrite Nat.eqb_refl. reflexivity. Qed.

Lemma broadcast_shapes_same s : broadcast_shapes s s = Ok s.
Proof.
  apply broadcast_shapes_left. induction s; constructor; auto using broadcast_axis_same.
Qed.

(** [hcube |= ignored]: the elementwise disjunction of two boolean arrays of
    the same shape. *)
Lemma logical_or_build sh F G :
  xp_getattr "logical_or" [build BoolDType sh F; build BoolDType sh G] =
  Ok (build BoolDType sh (fun idx => Z_of_bool (truth (F idx) || truth (G idx)))).
Proof.
  rewrite xp_logical_or. unfold elementwise, has_float; simpl.
  unfold broadcast_apply; simpl.
  rewrite broadcast_shapes_nil_r; simpl. rewrite broadcast_shapes_same; simpl.
  f_equal. apply build_ext. intros idx Hidx.
  rewrite (broadcast_index_in_bounds Hidx), !item_build by exact Hidx.
  unfold binary. destruct (truth (F idx) || truth (G idx)); reflexivity.
Qed.

Lemma nth_error_map_seq {A} (h : nat -> A) n k x :
  nth_error (map h (seq 0 n)) k = Some x -> x = h k /\ (k < n)%nat.
Proof.
  assert (Hgen : forall k0 n0 k1, nth_error (map h (seq k0 n0)) k1 = Some x ->
                                  x = h (k0 + k1)%nat /\ (k1 < n0)%nat).
  { intros k0 n0; revert k0; induction n0 as [|n0 IH]; intros k0 [|k1] H; simpl in *;
      try discriminate.
    - injection H as <-. rewrite Nat.add_0_r. split; [reflexivity | lia].
    - apply IH in H as [-> Hlt]. rewrite Nat.add_succ_r. split; [reflexivity | lia]. }
  intros H. apply Hgen in H. exact H.
Qed.

Section Hypercube.
Variable index_array : ndarray.
Variable image_range : UnitRange.
Hypothesis Hwf : wf_ndarray index_array.

Let select_mask : ndarray :=
  array_map BoolDType (fun x => Z_of_bool (UnitRange_contains image_range x)) index_array.

Let P : list (list nat) :=
  filter (fun p => UnitRange_contains image_range (item index_array p))
         (indices (shape index_array)).

Lemma nonzero_positions_select_mask : nonzero_positions select_mask = P.
Proof.
  unfold nonzero_positions, P, select_mask. simpl.
  apply filter_ext_in. intros p Hp. apply in_indices in Hp.
  rewrite item_array_map by assumption. apply truth_Z_of_bool.
Qed.

Lemma in_P_selected p : In p P <-> selected index_array image_range p.
Proof.
  unfold P, selected. rewrite filter_In, in_indices. reflexivity.
Qed.

Lemma selected_coordinates_bounds k :
  (exists p, selected index_array image_range p) ->
  (exists p, selected index_array image_range p
             /\ Z.of_nat (nth k p 0%nat) = min_of (selected_coordinates index_array image_range k))
  /\ (exists p, selected index_array image_range p
                /\ Z.of_nat (nth k p 0%nat) = max_of (selected_coordinates index_array image_range k))
  /\ (forall p, selected index_array image_range p ->
                min_of (selected_coordinates index_array image_range k) <= Z.of_nat (nth k p 0%nat)
                <= max_of (selected_coordinates index_array image_range k)).
Proof.
  intros (p0 & Hp0). apply in_P_selected in Hp0.
  unfold selected_coordinates. fold P.
  set (C := map (fun idx => Z.of_nat (nth k idx 0%nat)) P).
  assert (HC : C <> []).
  { unfold C. destruct P; [contradiction | discriminate]. }
  destruct C as [|x C'] eqn:EC; [congruence|]. simpl.
  destruct (fold_left_min_spec C' x) as [Hmin_in Hmin_le].
  destruct (fold_left_max_spec C' x) as [Hmax_in Hmax_le].
  rewrite <- EC in *. unfold C in Hmin_in, Hmax_in.
  apply in_map_iff in Hmin_in as (pmin & Hpmin & Hin_min).
  apply in_map_iff in Hmax_in as (pmax & Hpmax & Hin_max).
  split; [|split].
  - exists pmin. split; [apply in_P_selected; exact Hin_min | exact Hpmin].
  - exists pmax. split; [apply in_P_selected; exact Hin_max | exact Hpmax].
  - intros p Hp. apply in_P_selected in Hp.
    assert (Hin : In (Z.of_nat (nth k p 0%nat)) C) by (unfold C; apply in_map_iff; eauto).
    split; [apply Hmin_le | apply Hmax_le]; exact Hin.
Qed.

(** The box [_hypercube] cuts out is the bounding box of the selected
    positions. *)
Lemma bounding_box_is_bounding_box :
  (exists p, selected index_array image_range p) ->
  is_bounding_box index_array image_range (bounding_box index_array image_range)
  /\ box_fits (bounding_box index_array image_range) (shape index_array).
Proof.
  intros Hsel. unfold is_bounding_box, bounding_box. repeat split.
  - rewrite length_map, length_seq. reflexivity.
  - intros p Hp. unfold in_box.
    rewrite <- (in_bounds_length (proj1 Hp)).
    apply Forall2_map_seq with (d := 0%nat). intros k Hk. simpl.
    destruct (selected_coordinates_bounds k Hsel) as (_ & _ & Hb).
    specialize (Hb p Hp). lia.
  - apply nth_error_map_seq in H as [Heq Hk]. injection Heq as -> ->.
    destruct (selected_coordinates_bounds k Hsel) as ((p & Hp & Hpk) & _). eauto.
  - apply nth_error_map_seq in H as [Heq Hk]. injection Heq as -> ->.
    destruct (selected_coordinates_bounds k Hsel) as (_ & (p & Hp & Hpk) & _).
    exists p. split; [exact Hp | lia].
  - unfold box_fits. apply Forall2_map_seq with (d := 0%nat). intros k Hk. simpl.
    destruct (selected_coordinates_bounds k Hsel)
      as ((pmin & Hpmin & Hmin) & (pmax & Hpmax & Hmax) & Hb).
    pose proof (Hb pmin Hpmin) as Hb1.
    pose proof (in_bounds_nth (proj1 Hpmax) Hk) as Hlt.
    lia.
Qed.
End Hypercube.

Lemma xp_nonzero_select_mask index_array image_range :
  wf_ndarray index_array -> shape index_array <> [] ->
  xp_nonzero (array_map BoolDType
                (fun x => Z_of_bool (UnitRange_contains image_range x)) index_array) =
  Ok (map (fun k =>
             mk_ndarray Int64DType
               [length (filter (fun p => UnitRange_contains image_range (item index_array p))
                               (indices (shape index_array)))]
               (selected_coordinates index_array image_range k))
          (seq 0 (length (shape index_array)))).
Proof.
  intros Hwf Hsh. unfold xp_nonzero.
  rewrite (nonzero_positions_select_mask image_range Hwf). simpl.
  unfold selected_coordinates.
  destruct (shape index_array); [congruence | reflexivity].
Qed.

Lemma hypercube_slices index_array image_range :
  (exists p, selected index_array image_range p) ->
  mapM (fun dim_nnz_indices =>
          lo <- xp_min dim_nnz_indices ;;
          hi <- xp_max dim_nnz_indices ;;
          Ok (lo, hi + 1))
       (map (fun k =>
               mk_ndarray Int64DType
                 [length (filter (fun p => UnitRange_contains image_range (item index_array p))
                                 (indices (shape index_array)))]
                 (selected_coordinates index_array image_range k))
            (seq 0 (length (shape index_array)))) =
  Ok (bounding_box index_array image_range).
Proof.
  intros (p0 & Hin0 & Hsel0).
  unfold bounding_box.
  rewrite (@mapM_Ok _ _ _ (fun arr : ndarray => (min_of (data arr), max_of (data arr) + 1))).
  - rewrite map_map. reflexivity.
  - intros arr Harr. apply in_map_iff in Harr as (k & <- & _).
    unfold xp_min, xp_max, float_guard; simpl.
    assert (HC : selected_coordinates index_array image_range k <> []).
    { unfold selected_coordinates.
      assert (Hp : In p0 (filter (fun p => UnitRange_contains image_range (item index_array p))
                                 (indices (shape index_array)))).
      { apply filter_In. split; [apply in_indices; exact Hin0 | exact Hsel0]. }
      destruct (filter _ _); [contradiction | discriminate]. }
    destruct (selected_coordinates index_array image_range k); [congruence|]. reflexivity.
Qed.

(** The part of the selection mask and of the skip mask that a box cuts out. *)
Lemma getitem_box_array_map dt f index_array b :
  box_fits b (shape index_array) ->
  getitem (array_map dt f index_array) (box_slices b) =
  Ok (build dt (box_shape b)
        (fun ridx => item (array_map dt f index_array) (plan_source (box_plan b) ridx))).
Proof.
  intros Hfit. unfold getitem. simpl.
  rewrite (index_plan_box Hfit). simpl. rewrite plan_shape_box. reflexivity.
Qed.

(** [_hypercube] on an index array with at least one axis and at least one
    entry in the image range: the result is the bounding box of the positions
    whose entries lie in the range when every entry inside that box lies in
    the range or is the skip value, and [None] when some entry inside the box
    does neither. *)
Theorem hypercube_bounding_box index_array image_range skip_value :
  wf_ndarray index_array -> shape index_array <> [] ->
  (exists p, selected index_array image_range p) ->
  is_bounding_box index_array image_range (bounding_box index_array image_range)
  /\ ((forall p, in_bounds (shape index_array) p ->
                 in_box (bounding_box index_array image_range) p ->
                 accepted index_array image_range skip_value p = true) ->
      _hypercube index_array image_range skip_value =
      Ok (Some (box_ranges (bounding_box index_array image_range))))
  /\ ((exists p, in_bounds (shape index_array) p
                 /\ in_box (bounding_box index_array image_range) p
                 /\ accepted index_array image_range skip_value p = false) ->
      _hypercube index_array image_range skip_value = Ok None).
Proof.
  intros Hwf Hsh Hsel.
  destruct (bounding_box_is_bounding_box Hsel) as [Hbb Hfit].
  split; [exact Hbb|].
  set (b := bounding_box index_array image_range) in *.
  assert (Hcut : exists hcube,
             (forall ridx, in_bounds (box_shape b) ridx ->
                truth (hcube ridx)
                = accepted index_array image_range skip_value (plan_source (box_plan b) ridx))
             /\ _hypercube index_array image_range skip_value =
                if negb (xp_all (build BoolDType (box_shape b) hcube)) then Ok None
                else Ok (Some (box_ranges b))).
  { unfold _hypercube.
    rewrite (xp_nonzero_select_mask image_range Hwf Hsh). simpl.
    rewrite (hypercube_slices Hsel). simpl. fold b.
    change (map (fun s : Z * Z => slice (Some (fst s)) (Some (snd s))) b) with (box_slices b).
    rewrite (getitem_box_array_map BoolDType _ index_array Hfit). simpl.
    destruct skip_value as [sv|].
    - rewrite (getitem_box_array_map BoolDType _ index_array Hfit). simpl.
      rewrite logical_or_build. simpl.
      eexists. split; [|reflexivity].
      intros ridx Hr. simpl.
      destruct (plan_source_box_in Hfit Hr) as [Hin _].
      rewrite !item_array_map by assumption.
      rewrite !truth_Z_of_bool. reflexivity.
    - eexists. split; [|reflexivity].
      intros ridx Hr. simpl.
      destruct (plan_source_box_in Hfit Hr) as [Hin _].
      rewrite item_array_map by assumption.
      rewrite truth_Z_of_bool. unfold accepted. rewrite orb_false_r. reflexivity. }
  destruct Hcut as (hcube & Hh & ->). split.
  - intros Hacc.
    assert (Hall : xp_all (build BoolDType (box_shape b) hcube) = true).
    { apply xp_all_build. intros ridx Hr. rewrite (Hh ridx Hr).
      destruct (plan_source_box_in Hfit Hr) as [Hin Hbox]. apply Hacc; assumption. }
    rewrite Hall. reflexivity.
  - intros (p & Hin & Hbox & Hrej).
    destruct (plan_source_box_onto Hfit Hin Hbox) as (ridx & Hr & Hsrc).
    assert (Hall : xp_all (build BoolDType (box_shape b) hcube) = false).
    { destruct (xp_all (build BoolDType (box_shape b) hcube)) eqn:E; [|reflexivity].
      rewrite xp_all_build in E. specialize (E ridx Hr).
      rewrite (Hh ridx Hr), Hsrc in E. congruence. }
    rewrite Hall. reflexivity.
Qed.

(** *** [inverse_image] *)



Lemma cache_get_In {K V} (eqb : K -> K -> bool) k (l : list (K * V)) v :
  cache_get eqb k l = Some v -> exists k', In (k', v) l /\ eqb k k' = true.
Proof.
  induction l as [|[k' v'] l IH]; simpl; [discriminate|].
  destruct (eqb k k') eqn:E.
  - intros H; injection H as ->. exists k'; auto.
  - intros H. destruct (IH H) as (k'' & Hin & Heq). exists k''; auto.
Qed.


Lemma inverse_image_fresh self q :
  inverse_image self empty_cache q =
  match inverse_image_compute self q with
  | Ok d => Ok (d, mkCache [(q, d)] [])
  | Raise e => Raise e
  end.
Proof. unfold inverse_image; simpl. destruct (inverse_image_compute self q); reflexivity. Qed.

(** When some entry inside the bounding box is neither in the image range
    nor the skip value, [inverse_image] fails with the non-contiguous error. *)
Lemma inverse_image_non_contiguous self image_range :
  wf_ndarray (_ndarray (conn_field self)) -> shape (_ndarray (conn_field self)) <> [] ->
  UnitRange_is_finite image_range = true ->
  (exists p, selected (_ndarray (conn_field self)) image_range p) ->
  (exists p, in_bounds (shape (_ndarray (conn_field self))) p
             /\ in_box (bounding_box (_ndarray (conn_field self)) image_range) p
             /\ accepted (_ndarray (conn_field self)) image_range (_skip_value self) p = false) ->
  inverse_image self empty_cache (inl image_range) =
  Raise (ValueError "Restriction generates non-contiguous dimensions.").
Proof.
  intros Hwf Hsh Hfin Hsel Hrej.
  rewrite inverse_image_fresh. unfold inverse_image_compute. simpl.
  rewrite Hfin. simpl. unfold ndarray_of.
  destruct (hypercube_bounding_box (_skip_value self) Hwf Hsh Hsel) as (_ & _ & Hnone).
  rewrite (Hnone Hrej). reflexivity.
Qed.

(** When every entry inside the bounding box is in the image range or the
    skip value, [inverse_image] is the bounding box shifted to the domain of
    the connectivity. *)
Lemma inverse_image_contiguous self image_range :
  wf_ndarray (_ndarray (conn_field self)) -> shape (_ndarray (conn_field self)) <> [] ->
  UnitRange_is_finite image_range = true ->
  (exists p, selected (_ndarray (conn_field self)) image_range p) ->
  (forall p, in_bounds (shape (_ndarray (conn_field self))) p ->
             in_box (bounding_box (_ndarray (conn_field self)) image_range) p ->
             accepted (_ndarray (conn_field self)) image_range (_skip_value self) p = true) ->
  inverse_image_compute self (inl image_range) =
  _relative_ranges_to_domain
    (box_ranges (bounding_box (_ndarray (conn_field self)) image_range))
    (domain (conn_field self)).
Proof.
  intros Hwf Hsh Hfin Hsel Hacc.
  unfold inverse_image_compute. simpl. rewrite Hfin. simpl. unfold ndarray_of.
  destruct (hypercube_bounding_box (_skip_value self) Hwf Hsh Hsel) as (_ & Hsome & _).
  rewrite (Hsome Hacc). reflexivity.
Qed.

(** C1, at an index array without any entry in the queried range: the
    connectivity over [V:[0,1)] with the single entry [5] and the query
    [[0,3)].  No position is selected, and [inverse_image] returns no
    hypercube and does not fail with the non-contiguous error either: the
    minimum of the empty coordinate array raises. *)
Theorem inverse_image_without_entry_in_range :
  (forall p, ~ selected (_ndarray (conn_field conn_out_of_range))
                        (UnitRange_make (Int 0) (Int 3)) p)
  /\ _hypercube (_ndarray (conn_field conn_out_of_range)) (UnitRange_make (Int 0) (Int 3)) None =
     Raise (ValueError "zero-size array to reduction operation minimum which has no identity")
  /\ inverse_image conn_out_of_range empty_cache (inl (UnitRange_make (Int 0) (Int 3))) =
     Raise (ValueError "zero-size array to reduction operation minimum which has no identity").
Proof.
  split; [|split; vm_compute; reflexivity].
  intros p [Hin Hsel]. simpl in Hin.
  inversion Hin as [|i n p' sh Hi Hrest]; subst. inversion Hrest; subst.
  assert (i = 0%nat) by lia. subst i. vm_compute in Hsel. discriminate.
Qed.

(** The example of the docstring of [_hypercube]: the 2x2 box. *)
Example hypercube_docstring_example :
  _hypercube docstring_index_array (UnitRange_make (Int 0) (Int 5)) (Some (-1)) =
  Ok (Some [UnitRange_make (Int 0) (Int 2); UnitRange_make (Int 0) (Int 2)]).
Proof. vm_compute. reflexivity. Qed.

(** ** Broadcasting reads every operand in bounds *)











(** ** Neighbor reductions *)



Lemma item_scalar_array dt z idx : item (scalar_array (mkScalar dt z)) idx = z.
Proof. unfold item; simpl. destruct idx; reflexivity. Qed.






(** ** Further properties of the memo, of [remap] and of the examples *)

Lemma range_or_index_eqb_eq a b : range_or_index_eqb a b = true <-> a = b.
Proof.
  destruct a as [r1|i], b as [r2|j]; simpl; try (split; [discriminate | congruence]).
  - rewrite UnitRange_eqb_eq. split; congruence.
  - rewrite Z.eqb_eq. split; congruence.
Qed.

Lemma index_eqb_eq a b : index_eqb a b = true <-> a = b.
Proof.
  revert b; induction a as [|[d1 x] a IH]; intros [|[d2 y] b]; simpl;
    try (split; [discriminate | congruence]); [tauto|].
  rewrite !andb_true_iff, Dimension_eqb_eq, range_or_index_eqb_eq, IH.
  split; [intros [[-> ->] ->] | intros H; injection H as -> -> ->]; auto.
Qed.

(** The memo of [restrict] is transparent in the same way. *)
Lemma conn_restrict_memo self cache index :
  cache_consistent self cache ->
  match conn_restrict_compute self index with
  | Ok c => exists cache', conn_restrict self cache index = Ok (c, cache')
                           /\ cache_consistent self cache'
  | Raise e => conn_restrict self cache index = Raise e
  end.
Proof.
  intros [Hinv Hres]. unfold conn_restrict.
  destruct (cache_get index_eqb index (restrictions cache)) as [c|] eqn:Hget.
  - apply cache_get_In in Hget as (i' & Hin & Heq).
    apply index_eqb_eq in Heq. subst i'.
    rewrite (Hres index c Hin). exists cache. split; [reflexivity | split; assumption].
  - destruct (conn_restrict_compute self index) as [c|e] eqn:Hc; simpl; [|reflexivity].
    eexists. split; [reflexivity|]. split; simpl.
    + exact Hinv.
    + intros i' c' [Heq | Hin]; [injection Heq as <- <-; exact Hc | apply Hres; exact Hin].
Qed.

Lemma cache_consistent_empty self : cache_consistent self empty_cache.
Proof. split; simpl; intros; contradiction. Qed.

(** [remap] of field A through an array-backed connectivity gathers the
    entries the connectivity points to. *)
Example remap_gathers_example :
  remap field_A conn_V_to_I =
  Ok (mkNdArrayField [named_range V_dim 0 3] (mk_ndarray Int64DType [3%nat] [4; 0; 2])).
Proof. vm_compute. reflexivity. Qed.

(** A field that [from_array] accepts and whose restriction to its own domain
    has an array of another shape: the axis of length one over the empty
    range becomes an axis of length zero. *)
Example restrict_placeholder_example :
  from_array (_ndarray placeholder_field) (domain placeholder_field) None = Ok placeholder_field
  /\ restrict placeholder_field (Domain_as_index (domain placeholder_field)) =
     Ok (mkNdArrayField [named_range I_dim 0 0] (mk_ndarray Int64DType [0%nat] [])).
Proof. split; vm_compute; reflexivity. Qed.



(** *** The inverse image as a domain *)

Lemma unique_dims_combine (ds : list Dimension) (rs : list UnitRange) :
  length ds = length rs -> map fst (combine ds rs) = ds.
Proof.
  revert rs; induction ds as [|d ds IH]; intros [|r rs] H; simpl in *;
    try discriminate; [reflexivity|].
  rewrite IH by congruence. reflexivity.
Qed.

Lemma _relative_ranges_to_domain_box (dom : Domain) (b : box) :
  unique_dims (dims dom) = true ->
  length b = length dom ->
  Forall (fun lh : Z * Z => fst lh < snd lh) b ->
  Forall (fun r => exists s, start r = Int s) (ranges dom) ->
  _relative_ranges_to_domain (box_ranges b) dom = Ok (absolute_box dom b).
Proof.
  intros Hu Hlen Hb Hs. unfold _relative_ranges_to_domain.
  rewrite (@mapM_Ok _ _ _ (fun p : UnitRange * UnitRange =>
                             match start (fst p) with
                             | Int s => UnitRange_add (snd p) s
                             | _ => snd p
                             end)).
  - simpl. unfold Domain_of_dims_ranges.
    assert (Hl : length (dims dom) =
                 length (map (fun p : UnitRange * UnitRange =>
                                match start (fst p) with
                                | Int s => UnitRange_add (snd p) s
                                | _ => snd p
                                end) (combine (ranges dom) (box_ranges b)))).
    { unfold dims, ranges, box_ranges.
      rewrite !length_map, length_combine, !length_map.
      unfold Domain, NamedRange in *. lia. }
    rewrite <- Hl, Nat.eqb_refl. simpl.
    unfold Domain_make. rewrite (unique_dims_combine _ _ Hl), Hu. f_equal.
    clear Hu Hl. revert b Hlen Hb Hs. unfold absolute_box.
    induction dom as [|[dim ar] dom IH]; intros [|[lo hi] b] Hlen Hb Hs; simpl in *;
      try discriminate; [reflexivity|].
    inversion Hb as [|? ? Hlt Hb']; subst. inversion Hs as [|? ? (s & Hst) Hs']; subst.
    rewrite Hst. simpl in Hlt.
    f_equal; [|apply IH; [congruence | assumption | assumption]].
    f_equal. unfold UnitRange_add, UnitRange_make; simpl.
    replace (lo <? hi) with true by (symmetry; apply Z.ltb_lt; lia). simpl.
    replace (lo + s <? hi + s) with true by (symmetry; apply Z.ltb_lt; lia).
    reflexivity.
  - intros [ar rr] Hin. simpl.
    apply in_combine_l in Hin. rewrite Forall_forall in Hs.
    destruct (Hs ar Hin) as (s & ->). reflexivity.
Qed.

Lemma box_fits_nonempty b sh : box_fits b sh -> Forall (fun lh : Z * Z => fst lh < snd lh) b.
Proof. induction 1 as [|lh n b sh (_ & H & _) _ IH]; constructor; auto. Qed.

(** The inverse image of a connectivity over a domain with finite starts:
    when every entry inside the bounding box of the selected positions lies in
    the image range or is the skip value, it is this box as a domain, one
    range per dimension of the connectivity. *)
Lemma inverse_image_absolute_box self image_range :
  wf_ndarray (_ndarray (conn_field self)) -> shape (_ndarray (conn_field self)) <> [] ->
  unique_dims (dims (domain (conn_field self))) = true ->
  length (domain (conn_field self)) = length (shape (_ndarray (conn_field self))) ->
  Forall (fun r => exists s, start r = Int s) (ranges (domain (conn_field self))) ->
  UnitRange_is_finite image_range = true ->
  (exists p, selected (_ndarray (conn_field self)) image_range p) ->
  (forall p, in_bounds (shape (_ndarray (conn_field self))) p ->
             in_box (bounding_box (_ndarray (conn_field self)) image_range) p ->
             accepted (_ndarray (conn_field self)) image_range (_skip_value self) p = true) ->
  inverse_image_compute self (inl image_range) =
  Ok (absolute_box (domain (conn_field self))
        (bounding_box (_ndarray (conn_field self)) image_range)).
Proof.
  intros Hwf Hsh Hu Hlen Hs Hfin Hsel Hacc.
  rewrite (inverse_image_contiguous self Hwf Hsh Hfin Hsel Hacc).
  destruct (bounding_box_is_bounding_box Hsel) as [(Hbl & _) Hfit].
  apply _relative_ranges_to_domain_box; try assumption.
  - congruence.
  - apply (box_fits_nonempty Hfit).
Qed.
(** * Further properties *)

(** ** The runs of a mask *)

Lemma UnitRange_make_lt a b :
  a < b -> UnitRange_make (Int a) (Int b) = mkUnitRange (Int a) (Int b).
Proof.
  intros H. unfold UnitRange_make; simpl.
  replace (a <? b) with true by (symmetry; apply Z.ltb_lt; exact H). reflexivity.
Qed.

Lemma UnitRange_contains_Int a b k :
  UnitRange_contains (mkUnitRange (Int a) (Int b)) k = true <-> a <= k < b.
Proof.
  unfold UnitRange_contains, Bound_leb; simpl.
  rewrite andb_true_iff, orb_true_iff, Z.ltb_lt, Z.ltb_lt, Z.eqb_eq. lia.
Qed.

Lemma mask_ranges_loop_spec mask m :
  forall i cur ind res,
    (ind < i)%nat ->
    (forall j, (ind <= j < i)%nat -> truth (item mask [j]) = cur) ->
    exists tail r,
      (let '(res', cur', ind') := mask_ranges_loop mask (seq i m) cur ind res in
       res' ++ [(cur', UnitRange_make (Int (Z.of_nat ind')) (Int (Z.of_nat (i + m))))])
      = res ++ (cur, r) :: tail
      /\ runs_from (Z.of_nat ind) ((cur, r) :: tail) (Z.of_nat (i + m))
      /\ alternating ((cur, r) :: tail)
      /\ runs_hold mask ((cur, r) :: tail).
Proof.
  induction m as [|m IH]; intros i cur ind res Hlt Hcur; simpl.
  - exists [], (UnitRange_make (Int (Z.of_nat ind)) (Int (Z.of_nat (i + 0)))).
    rewrite UnitRange_make_lt by lia.
    split; [reflexivity | split; [|split; [exact I|]]].
    + simpl. split; [reflexivity|]. exists (Z.of_nat (i + 0)).
      split; [reflexivity | split; [lia | reflexivity]].
    + intros v r j [Heq | []] Hc. injection Heq as <- <-.
      apply UnitRange_contains_Int in Hc. apply Hcur. lia.
  - destruct (Bool.eqb (truth (item mask [i])) cur) eqn:E; simpl.
    + apply Bool.eqb_prop in E.
      destruct (IH (S i) cur ind res) as (tail & r & Heq & Hr & Ha & Hh).
      * lia.
      * intros j Hj. destruct (Nat.eq_dec j i) as [->|Hne]; [exact E | apply Hcur; lia].
      * exists tail, r. replace (i + S m)%nat with (S i + m)%nat by lia.
        split; [exact Heq | split; [exact Hr | split; [exact Ha | exact Hh]]].
    + assert (Hne : truth (item mask [i]) <> cur) by (intros H; rewrite H, Bool.eqb_reflx in E; discriminate).
      destruct (IH (S i) (truth (item mask [i])) i
                  (res ++ [(cur, UnitRange_make (Int (Z.of_nat ind)) (Int (Z.of_nat i)))]))
        as (tail & r & Heq & Hr & Ha & Hh).
      * lia.
      * intros j Hj. replace j with i by lia. reflexivity.
      * exists ((truth (item mask [i]), r) :: tail),
          (UnitRange_make (Int (Z.of_nat ind)) (Int (Z.of_nat i))).
        replace (i + S m)%nat with (S i + m)%nat by lia.
        rewrite Heq, <- app_assoc. simpl.
        rewrite UnitRange_make_lt by lia.
        split; [reflexivity | split; [|split; [|]]].
        -- simpl. split; [reflexivity|]. exists (Z.of_nat i).
           split; [reflexivity | split; [lia | exact Hr]].
        -- simpl. split; [congruence | exact Ha].
        -- intros v' r' j [Hin | Hin] Hc.
           ++ injection Hin as <- <-. apply UnitRange_contains_Int in Hc. apply Hcur. lia.
           ++ apply (Hh v' r' j Hin Hc).
Qed.

Lemma _compute_mask_ranges_spec mask n :
  shape mask = [n] -> (0 < n)%nat ->
  exists runs,
    _compute_mask_ranges mask = Ok runs
    /\ runs_from 0 runs (Z.of_nat n)
    /\ alternating runs
    /\ runs_hold mask runs.
Proof.
  intros Hsh Hn. unfold _compute_mask_ranges. rewrite Hsh. simpl.
  replace (n =? 0)%nat with false by (symmetry; apply Nat.eqb_neq; lia).
  destruct (@mask_ranges_loop_spec mask (n - 1) 1 (truth (item mask [0%nat])) 0 [])
    as (tail & r & Heq & Hr & Ha & Hh).
  - lia.
  - intros j Hj. replace j with 0%nat by lia. reflexivity.
  - replace (1 + (n - 1))%nat with n in * by lia.
    destruct (mask_ranges_loop mask (seq 1 (n - 1)) (truth (item mask [0%nat])) 0 [])
      as [[res' cur'] ind'].
    simpl in Heq. rewrite Heq.
    eexists. split; [reflexivity|]. split; [exact Hr | split; [exact Ha | exact Hh]].
Qed.

(** X1: [_compute_mask_ranges] on a one-dimensional mask that is not empty
    returns the runs of the mask: ranges that are not empty, tile the
    positions [0 .. n) in order, change value from each run to the next, and
    each hold one truth value of the mask at all their positions. *)
Theorem _compute_mask_ranges_runs mask n :
  shape mask = [n] -> (0 < n)%nat ->
  exists runs,
    _compute_mask_ranges mask = Ok runs
    /\ runs_from 0 runs (Z.of_nat n)
    /\ alternating runs
    /\ runs_hold mask runs.
Proof. apply _compute_mask_ranges_spec. Qed.

Lemma _compute_mask_ranges_runs_witness :
  exists runs,
    _compute_mask_ranges (_ndarray mask_TTFFT) = Ok runs
    /\ runs_from 0 runs 5
    /\ alternating runs
    /\ runs_hold (_ndarray mask_TTFFT) runs.
Proof.
  apply (@_compute_mask_ranges_runs (_ndarray mask_TTFFT) 5); [reflexivity | lia].
Defined.

(** ** Trimming and stacking of domains *)

(** X2: [_trim_empty_domains] returns a contiguous segment of its argument:
    everything before and after the segment has an empty domain, and the
    segment, when it is not empty, begins and ends with a domain that is not
    empty.  Empty domains inside the segment stay. *)
Theorem _trim_empty_domains_segment (lst : list (bool * Domain)) :
  exists before after,
    lst = before ++ _trim_empty_domains lst ++ after
    /\ Forall (fun x => Domain_is_empty (snd x) = true) before
    /\ Forall (fun x => Domain_is_empty (snd x) = true) after
    /\ match _trim_empty_domains lst with
       | [] => True
       | x :: rest =>
           Domain_is_empty (snd x) = false
           /\ Domain_is_empty (snd (last (x :: rest) x)) = false
       end.
Proof.
  funelim (_trim_empty_domains lst).
  - exists [], []. repeat split; constructor.
  - destruct H as (before & after & Hsplit & Hb & Ha & Hends).
    exists (x :: before), after. split; [simpl; rewrite <- Hsplit; reflexivity|].
    split; [constructor; assumption|]. split; assumption.
  - change (match l with [] => [] | _ :: _ => x :: removelast l end)
      with (removelast (x :: l)) in H.
    destruct H as (before & after & Hsplit & Hb & Ha & Hends).
    exists before, (after ++ [last (x :: l) x]).
    split; [|split; [exact Hb | split; [|exact Hends]]].
    + rewrite (@app_removelast_last _ (x :: l) x) at 1 by discriminate.
      rewrite Hsplit at 1. rewrite <- !app_assoc. reflexivity.
    + apply Forall_app. split; [exact Ha | constructor; [exact Heq | constructor]].
  - exists [], []. rewrite app_nil_r. simpl. repeat split; try constructor; assumption.
Qed.

Lemma find_dim_nth_error {A} (dim : Dimension) (l : list (Dimension * A)) i :
  find_dim dim l = Some i -> exists x, nth_error l i = Some (dim, x).
Proof.
  revert i; induction l as [|[d y] l IH]; simpl; intros i H; [discriminate|].
  destruct (Dimension_eqb d dim) eqn:E.
  - injection H as <-. apply Dimension_eqb_eq in E; subst d. exists y; reflexivity.
  - destruct (find_dim dim l) as [j|]; simpl in H; [|discriminate].
    injection H as <-. destruct (IH j eq_refl) as (x & Hx). exists x; exact Hx.
Qed.

Lemma Domain_get_Ok (d : Domain) dim i :
  dim_index d dim = Some i ->
  Domain_get d dim = Ok (dim, nth i (ranges d) UnitRange_infinite)
  /\ nth_error d i = Some (dim, nth i (ranges d) UnitRange_infinite).
Proof.
  intros H. unfold Domain_get. rewrite H.
  destruct (find_dim_nth_error _ _ H) as (r & Hr).
  assert (Hn : nth i (ranges d) UnitRange_infinite = r).
  { apply nth_error_nth. unfold ranges. rewrite nth_error_map.
    unfold Domain, NamedRange in *. rewrite Hr. reflexivity. }
  rewrite Hn. unfold Domain, NamedRange in *. rewrite Hr. auto.
Qed.

Lemma dims_with_range (d : Domain) i dim r0 r :
  nth_error d i = Some (dim, r0) ->
  with_range d i r = firstn i d ++ (dim, r) :: skipn (S i) d
  /\ dims (with_range d i r) = dims d.
Proof.
  intros H. unfold with_range.
  rewrite (nth_error_nth _ _ _ H). simpl. split; [reflexivity|].
  unfold dims. rewrite map_app. simpl.
  rewrite <- (firstn_skipn i d) at 3. rewrite map_app. f_equal.
  assert (Hs : skipn i d = (dim, r0) :: skipn (S i) d).
  { clear r. revert i H; induction d as [|x d IH]; intros [|i] H; simpl in *; try discriminate.
    - injection H as ->. reflexivity.
    - apply IH; exact H. }
  rewrite Hs. reflexivity.
Qed.

Lemma ranges_meet_from_cons r rs :
  ranges_meet (r :: rs) = ranges_meet_from (stop r) rs.
Proof.
  revert r; induction rs as [|r' rs IH]; intros r; [reflexivity|].
  change (ranges_meet (r :: r' :: rs))
    with (Bound_eqb (start r') (stop r) && ranges_meet (r' :: rs)).
  rewrite IH. reflexivity.
Qed.

Lemma stack_domains_loop_spec dim ds rs :
  Forall2 (fun (d : Domain) r => Domain_get d dim = Ok (dim, r)) ds rs ->
  forall b,
    stack_domains_loop ds dim b =
    Ok (if ranges_meet_from b rs
        then Some (fold_left (fun _ r => stop r) rs b) else None).
Proof.
  induction 1 as [|d r ds rs Hd _ IH]; intros b; simpl; [reflexivity|].
  rewrite Hd. simpl.
  destruct (Bound_eqb (start r) b); simpl; [apply IH | reflexivity].
Qed.

Lemma last_cons_indep {A} (x : A) l d d' : last (x :: l) d = last (x :: l) d'.
Proof.
  revert x; induction l as [|y l IH]; intros x; [reflexivity|].
  change (last (y :: l) d = last (y :: l) d'). apply IH.
Qed.

Lemma fold_left_stop_last rs : forall r0,
  fold_left (fun _ r => stop r) rs (stop r0) = stop (last rs r0).
Proof.
  induction rs as [|r rs IH]; intros r0; [reflexivity|].
  simpl fold_left. rewrite IH. destruct rs as [|u rs]; [reflexivity|].
  change (last (r :: u :: rs) r0) with (last (u :: rs) r0).
  f_equal. apply last_cons_indep.
Qed.

(** X3: [_stack_domains] of domains that all have the dimension [dim]: when
    the range of [dim] in every domain starts where the range in the domain
    before it stops, the result is the first domain with the range of [dim]
    stretched to the stop of the last one; when two neighbours do not meet,
    there is no result.  The other dimensions of the later domains are never
    looked at. *)
Theorem _stack_domains_meet dim (d0 : Domain) ds r0 rs i :
  unique_dims (dims d0) = true ->
  dim_index d0 dim = Some i ->
  Forall2 (fun (d : Domain) r => Domain_get d dim = Ok (dim, r)) (d0 :: ds) (r0 :: rs) ->
  _stack_domains (d0 :: ds) dim =
  Ok (if ranges_meet (r0 :: rs)
      then Some (with_range d0 i (UnitRange_make (start r0) (stop (last rs r0))))
      else None).
Proof.
  intros Hu Hi Hall. inversion Hall as [|? ? ? ? Hd0 Hrest]; subst.
  rewrite ranges_meet_from_cons.
  unfold _stack_domains. rewrite Hd0. cbn [bind snd stack_domains_loop].
  rewrite Hd0. cbn [bind snd].
  replace (Bound_eqb (start r0) (start r0)) with true
    by (symmetry; apply Bound_eqb_eq; reflexivity).
  cbn [negb].
  destruct (Domain_get_Ok _ _ Hi) as [_ Hn].
  destruct (dims_with_range _ _ (UnitRange_make (start r0) (stop (last rs r0))) Hn)
    as [Hw Hdims].
  assert (Hrep : forall r, Domain_replace d0 i [(dim, r)] = Ok (with_range d0 i r)).
  { intros r. destruct (dims_with_range _ _ r Hn) as [Hw' Hd'].
    unfold Domain_replace.
    change (firstn i d0 ++ [(dim, r)] ++ skipn (S i) d0)
      with (firstn i d0 ++ (dim, r) :: skipn (S i) d0).
    rewrite <- Hw'. unfold Domain_make.
    change (map fst (with_range d0 i r)) with (dims (with_range d0 i r)).
    rewrite Hd', Hu. reflexivity. }
  rewrite (stack_domains_loop_spec Hrest (stop r0)), fold_left_stop_last.
  destruct (ranges_meet_from (stop r0) rs); [|reflexivity].
  cbn [bind]. rewrite Hi, Hrep. reflexivity.
Qed.

Lemma _stack_domains_meet_witness :
  _stack_domains [[named_range I_dim 0 2]; [named_range I_dim 2 5]] I_dim =
  Ok (Some [named_range I_dim 0 5]).
Proof.
  apply (@_stack_domains_meet I_dim [named_range I_dim 0 2] [[named_range I_dim 2 5]]
           (UnitRange_make (Int 0) (Int 2)) [UnitRange_make (Int 2) (Int 5)] 0%nat).
  - reflexivity.
  - reflexivity.
  - repeat constructor.
Defined.

(** ** The program parser *)

Lemma mapM_Forall2 {A B} (f : A -> result B) l ys :
  mapM f l = Ok ys <-> Forall2 (fun x y => f x = Ok y) l ys.
Proof.
  revert ys; induction l as [|x l IH]; intros ys; simpl.
  - split; [intros H; injection H as <-; constructor | intros H; inversion H; reflexivity].
  - split.
    + intros H. apply bind_Ok_inv in H as (y & Hy & H).
      apply bind_Ok_inv in H as (ys' & Hys & H). injection H as <-.
      constructor; [exact Hy | apply IH; exact Hys].
    + intros H. inversion H as [|? y ? ys' Hy Hys]; subst.
      rewrite Hy. simpl. apply IH in Hys. rewrite Hys. reflexivity.
Qed.

(** An induction principle for Python expressions that reaches into the
    argument lists and the optional parts. *)
Section AstInduction.
Variable P : ast_expr -> Prop.
Hypothesis HName : forall loc id, P (ast_Name loc id).
Hypothesis HConstant : forall loc v, P (ast_Constant loc v).
Hypothesis HUnaryOp : forall loc op operand, P operand -> P (ast_UnaryOp loc op operand).
Hypothesis HBinOp : forall loc lhs op rhs, P lhs -> P rhs -> P (ast_BinOp loc lhs op rhs).
Hypothesis HCall : forall loc func args keywords,
  P func -> Forall P args -> Forall (fun kw : string * ast_expr => P (snd kw)) keywords ->
  P (ast_Call loc func args keywords).
Hypothesis HSubscript : forall loc v slice_, P v -> P slice_ -> P (ast_Subscript loc v slice_).
Hypothesis HTuple : forall loc elts, Forall P elts -> P (ast_Tuple loc elts).
Hypothesis HSlice : forall loc lower upper step,
  match lower with Some e => P e | None => True end ->
  match upper with Some e => P e | None => True end ->
  match step with Some e => P e | None => True end ->
  P (ast_Slice loc lower upper step).
Hypothesis HDict : forall loc keys values,
  Forall P keys -> Forall P values -> P (ast_Dict loc keys values).
Hypothesis Hunsupported : forall loc node_type, P (ast_unsupported loc node_type).

Lemma ast_expr_nested_ind : forall e, P e.
Proof.
  fix IH 1. intros [loc id|loc v|loc op operand|loc lhs op rhs|loc func args keywords
                    |loc v slice_|loc elts|loc lower upper step|loc keys values|loc node_type].
  - apply HName.
  - apply HConstant.
  - apply HUnaryOp, IH.
  - apply HBinOp; apply IH.
  - apply HCall; [apply IH | |].
    + induction args as [|a args IHa]; constructor; [apply IH | exact IHa].
    + induction keywords as [|[k a] keywords IHk]; constructor; [apply IH | exact IHk].
  - apply HSubscript; apply IH.
  - apply HTuple. induction elts as [|a elts IHa]; constructor; [apply IH | exact IHa].
  - apply HSlice; [destruct lower | destruct upper | destruct step]; try apply IH; exact I.
  - apply HDict.
    + induction keys as [|a keys IHa]; constructor; [apply IH | exact IHa].
    + induction values as [|a values IHa]; constructor; [apply IH | exact IHa].
  - apply Hunsupported.
Qed.
End AstInduction.

Lemma Forall_mapM_Forall2 {A B} (f : A -> result B) (P : A -> Prop) (Q : A -> B -> Prop) l ys :
  Forall P l -> mapM f l = Ok ys ->
  (forall x y, P x -> f x = Ok y -> Q x y) ->
  Forall2 Q l ys.
Proof.
  intros HP HM HQ. apply mapM_Forall2 in HM.
  induction HM as [|x y l ys Hxy _ IH]; constructor; inversion HP; subst; auto.
Qed.

Lemma Forall2_forallb_r {A B} (g : B -> bool) (l : list A) ys :
  Forall2 (fun _ y => g y = true) l ys -> forallb g ys = true.
Proof. induction 1 as [|x y l ys Hy _ IH]; simpl; [reflexivity | rewrite Hy, IH; reflexivity]. Qed.

Lemma visit_option_inv fv (P : ast_expr -> Prop) (Q : ast_expr -> past_node -> Prop) o r :
  match o with Some e => P e | None => True end ->
  visit_option (visit fv) o = Ok r ->
  (forall e n, P e -> visit fv e = Ok n -> Q e n) ->
  match o, r with
  | Some e, Some n => Q e n
  | None, None => True
  | _, _ => False
  end.
Proof.
  intros HP H HQ. destruct o as [e|]; simpl in H.
  - apply bind_Ok_inv in H as (n & Hn & H). injection H as <-. apply (HQ e n HP Hn).
  - injection H as <-. exact I.
Qed.

(** X4: in every PAST expression the parser returns, each call refers to its
    function by a plain name, at every depth of the expression. *)
Theorem visit_calls_by_name from_value node n :
  visit from_value node = Ok n -> calls_by_name n = true.
Proof.
  revert n.
  induction node as [loc id|loc v|loc op operand IHo|loc lhs op rhs IHl IHr
                    |loc func args keywords IHf IHargs IHkw|loc v slice_ IHv IHs
                    |loc elts IHelts|loc lower upper step IHlo IHup IHst
                    |loc keys values IHk IHvs|loc node_type]
    using ast_expr_nested_ind; intros n H; simpl in H.
  - injection H as <-. reflexivity.
  - apply bind_Ok_inv in H as (t & _ & H). injection H as <-. reflexivity.
  - destruct op; try discriminate. destruct operand; try discriminate.
    apply bind_Ok_inv in H as (t & _ & H). apply bind_Ok_inv in H as (c & _ & H).
    injection H as <-. reflexivity.
  - apply bind_Ok_inv in H as (o & _ & H). apply bind_Ok_inv in H as (l & Hl & H).
    apply bind_Ok_inv in H as (r & Hr & H). injection H as <-. simpl.
    rewrite (IHl _ Hl), (IHr _ Hr). reflexivity.
  - apply bind_Ok_inv in H as (f & Hf & H).
    destruct (is_past_Name f) eqn:Hname; simpl in H; [|discriminate].
    apply bind_Ok_inv in H as (new_args & Hargs & H).
    apply bind_Ok_inv in H as (new_kwargs & Hkw & H). injection H as <-. simpl.
    rewrite Hname. simpl. apply andb_true_iff. split.
    + apply (@Forall2_forallb_r _ _ calls_by_name args).
      eapply Forall_mapM_Forall2; [exact IHargs | exact Hargs |]. intros x y Hx Hy; simpl in *. apply Hx, Hy.
    + apply (@Forall2_forallb_r _ _ (fun kw : string * past_node => calls_by_name (snd kw))
               keywords).
      eapply Forall_mapM_Forall2; [exact IHkw | exact Hkw |]. intros x y Hx Hy; simpl in *.
      apply bind_Ok_inv in Hy as (v & Hv & Hy). injection Hy as <-. simpl. apply Hx, Hv.
  - apply bind_Ok_inv in H as (l & Hl & H). apply bind_Ok_inv in H as (r & Hr & H).
    injection H as <-. simpl. rewrite (IHv _ Hl), (IHs _ Hr). reflexivity.
  - apply bind_Ok_inv in H as (new_elts & Helts & H). injection H as <-. simpl.
    apply (@Forall2_forallb_r _ _ calls_by_name elts).
    eapply Forall_mapM_Forall2; [exact IHelts | exact Helts |]. intros x y Hx Hy; simpl in *. apply Hx, Hy.
  - apply bind_Ok_inv in H as (l & Hl & H). apply bind_Ok_inv in H as (u & Hu & H).
    apply bind_Ok_inv in H as (s & Hs & H). injection H as <-. simpl.
    pose proof (@visit_option_inv from_value _ (fun _ n => calls_by_name n = true) _ _ IHlo Hl
                  (fun e n He Hn => He n Hn)) as Ql.
    pose proof (@visit_option_inv from_value _ (fun _ n => calls_by_name n = true) _ _ IHup Hu
                  (fun e n He Hn => He n Hn)) as Qu.
    pose proof (@visit_option_inv from_value _ (fun _ n => calls_by_name n = true) _ _ IHst Hs
                  (fun e n He Hn => He n Hn)) as Qs.
    destruct lower, l; try contradiction; destruct upper, u; try contradiction;
      destruct step, s; try contradiction; simpl;
      rewrite ?Ql, ?Qu, ?Qs; reflexivity.
  - apply bind_Ok_inv in H as (ks & Hks & H). apply bind_Ok_inv in H as (vs & Hvs & H).
    injection H as <-. simpl. apply andb_true_iff. split.
    + apply (@Forall2_forallb_r _ _ calls_by_name keys).
      eapply Forall_mapM_Forall2; [exact IHk | exact Hks |]. intros x y Hx Hy; simpl in *. apply Hx, Hy.
    + apply (@Forall2_forallb_r _ _ calls_by_name values).
      eapply Forall_mapM_Forall2; [exact IHvs | exact Hvs |]. intros x y Hx Hy; simpl in *. apply Hx, Hy.
  - discriminate.
Qed.

Lemma visit_calls_by_name_witness :
  visit example_from_value
    (ast_Call (example_location 1 0) (ast_Name (example_location 1 0) "f")
       [ast_Constant (example_location 1 2) (const_int 1)] []) =
  Ok (past_Call (past_Name "f" (example_location 1 0))
        [past_Constant (const_int 1) (DataType "int32") (example_location 1 2)] []
        (example_location 1 0))
  /\ calls_by_name
       (past_Call (past_Name "f" (example_location 1 0))
          [past_Constant (const_int 1) (DataType "int32") (example_location 1 2)] []
          (example_location 1 0)) = true.
Proof.
  split; [reflexivity|].
  apply (@visit_calls_by_name example_from_value
           (ast_Call (example_location 1 0) (ast_Name (example_location 1 0) "f")
              [ast_Constant (example_location 1 2) (const_int 1)] [])).
  reflexivity.
Defined.

Lemma incl_cons_same {A} (x : A) l1 l2 : incl l1 l2 -> incl (x :: l1) (x :: l2).
Proof. intros H. apply incl_cons; [left; reflexivity | apply incl_tl; exact H]. Qed.

Lemma incl_flat_map_Forall2 {A B C} (g : B -> list C) (h : A -> list C) l ys :
  Forall2 (fun x y => incl (g y) (h x)) l ys -> incl (flat_map g ys) (flat_map h l).
Proof.
  induction 1 as [|x y l ys Hxy _ IH]; simpl; [apply incl_refl|].
  apply incl_app_app; assumption.
Qed.

Lemma incl_option_list {A B C} (g : B -> list C) (h : A -> list C) (o : option A) (r : option B) :
  match o, r with
  | Some e, Some n => incl (g n) (h e)
  | None, None => True
  | _, _ => False
  end ->
  incl (option_list g r) (option_list h o).
Proof.
  destruct o, r; simpl; intros H; try contradiction; [exact H | apply incl_refl].
Qed.

(** X5: the parser invents no source location.  The PAST expression it
    returns carries at its root the location of the Python expression, and
    every node inside it, at any depth, carries the location of some node of
    that Python expression. *)
Theorem visit_keeps_locations from_value node n :
  visit from_value node = Ok n ->
  past_location n = ast_location node
  /\ incl (past_locations n) (ast_locations node).
Proof.
  revert n.
  induction node as [loc id|loc v|loc op operand IHo|loc lhs op rhs IHl IHr
                    |loc func args keywords IHf IHargs IHkw|loc v slice_ IHv IHs
                    |loc elts IHelts|loc lower upper step IHlo IHup IHst
                    |loc keys values IHk IHvs|loc node_type]
    using ast_expr_nested_ind; intros n H; simpl in H.
  - injection H as <-. split; [reflexivity | apply incl_refl].
  - apply bind_Ok_inv in H as (t & _ & H). injection H as <-.
    split; [reflexivity | apply incl_refl].
  - destruct op; try discriminate. destruct operand; try discriminate.
    apply bind_Ok_inv in H as (t & _ & H). apply bind_Ok_inv in H as (c & _ & H).
    injection H as <-. split; [reflexivity|].
    simpl. apply incl_cons_same. intros x [].
  - apply bind_Ok_inv in H as (o & _ & H). apply bind_Ok_inv in H as (l & Hl & H).
    apply bind_Ok_inv in H as (r & Hr & H). injection H as <-.
    split; [reflexivity|].
    change (incl (loc :: past_locations l ++ past_locations r)
                 (loc :: ast_locations lhs ++ ast_locations rhs)).
    apply incl_cons_same, incl_app_app; [apply (IHl _ Hl) | apply (IHr _ Hr)].
  - apply bind_Ok_inv in H as (f & Hf & H).
    destruct (is_past_Name f) eqn:Hname; simpl in H; [|discriminate].
    apply bind_Ok_inv in H as (new_args & Hargs & H).
    apply bind_Ok_inv in H as (new_kwargs & Hkw & H). injection H as <-.
    split; [reflexivity|].
    change (incl (loc :: past_locations f ++ flat_map past_locations new_args
                    ++ flat_map (fun kw : string * past_node => past_locations (snd kw))
                         new_kwargs)
                 (loc :: ast_locations func ++ flat_map ast_locations args
                    ++ flat_map (fun kw : string * ast_expr => ast_locations (snd kw))
                         keywords)).
    apply incl_cons_same, incl_app_app; [apply (IHf _ Hf)|].
    apply incl_app_app; apply incl_flat_map_Forall2.
    + eapply Forall_mapM_Forall2; [exact IHargs | exact Hargs |].
      intros x y Hx Hy; simpl in *. apply (Hx _ Hy).
    + eapply Forall_mapM_Forall2; [exact IHkw | exact Hkw |].
      intros x y Hx Hy; simpl in *.
      apply bind_Ok_inv in Hy as (v & Hv & Hy). injection Hy as <-. simpl. apply (Hx _ Hv).
  - apply bind_Ok_inv in H as (l & Hl & H). apply bind_Ok_inv in H as (r & Hr & H).
    injection H as <-. split; [reflexivity|].
    change (incl (loc :: past_locations l ++ past_locations r)
                 (loc :: ast_locations v ++ ast_locations slice_)).
    apply incl_cons_same, incl_app_app; [apply (IHv _ Hl) | apply (IHs _ Hr)].
  - apply bind_Ok_inv in H as (new_elts & Helts & H). injection H as <-.
    split; [reflexivity|].
    change (incl (loc :: flat_map past_locations new_elts)
                 (loc :: flat_map ast_locations elts)).
    apply incl_cons_same, incl_flat_map_Forall2.
    eapply Forall_mapM_Forall2; [exact IHelts | exact Helts |].
    intros x y Hx Hy; simpl in *. apply (Hx _ Hy).
  - apply bind_Ok_inv in H as (l & Hl & H). apply bind_Ok_inv in H as (u & Hu & H).
    apply bind_Ok_inv in H as (s & Hs & H). injection H as <-.
    split; [reflexivity|].
    change (incl (loc :: option_list past_locations l ++ option_list past_locations u
                    ++ option_list past_locations s)
                 (loc :: option_list ast_locations lower ++ option_list ast_locations upper
                    ++ option_list ast_locations step)).
    apply incl_cons_same, incl_app_app; [|apply incl_app_app]; apply incl_option_list.
    + apply (@visit_option_inv from_value _
               (fun e n => incl (past_locations n) (ast_locations e)) _ _ IHlo Hl).
      intros e n He Hn. apply (He _ Hn).
    + apply (@visit_option_inv from_value _
               (fun e n => incl (past_locations n) (ast_locations e)) _ _ IHup Hu).
      intros e n He Hn. apply (He _ Hn).
    + apply (@visit_option_inv from_value _
               (fun e n => incl (past_locations n) (ast_locations e)) _ _ IHst Hs).
      intros e n He Hn. apply (He _ Hn).
  - apply bind_Ok_inv in H as (ks & Hks & H). apply bind_Ok_inv in H as (vs & Hvs & H).
    injection H as <-. split; [reflexivity|].
    change (incl (loc :: flat_map past_locations ks ++ flat_map past_locations vs)
                 (loc :: flat_map ast_locations keys ++ flat_map ast_locations values)).
    apply incl_cons_same, incl_app_app; apply incl_flat_map_Forall2.
    + eapply Forall_mapM_Forall2; [exact IHk | exact Hks |].
      intros x y Hx Hy; simpl in *. apply (Hx _ Hy).
    + eapply Forall_mapM_Forall2; [exact IHvs | exact Hvs |].
      intros x y Hx Hy; simpl in *. apply (Hx _ Hy).
  - discriminate.
Qed.

Lemma visit_keeps_locations_witness :
  past_location
    (past_BinOp ADD (past_Name "a" (example_location 1 0))
       (past_Constant (const_int (-2)) (DataType "int32") (example_location 1 4))
       (example_location 1 0)) = example_location 1 0
  /\ incl
       (past_locations
          (past_BinOp ADD (past_Name "a" (example_location 1 0))
             (past_Constant (const_int (-2)) (DataType "int32") (example_location 1 4))
             (example_location 1 0)))
       (ast_locations
          (ast_BinOp (example_location 1 0) (ast_Name (example_location 1 0) "a") ast_Add
             (ast_UnaryOp (example_location 1 4) ast_USub
                (ast_Constant (example_location 1 5) (const_int 2))))).
Proof.
  apply (@visit_keeps_locations example_from_value
           (ast_BinOp (example_location 1 0) (ast_Name (example_location 1 0) "a") ast_Add
              (ast_UnaryOp (example_location 1 4) ast_USub
                 (ast_Constant (example_location 1 5) (const_int 2))))).
  reflexivity.
Defined.






(** ** Slices of a sub-domain *)

Lemma canonical_le_sub_range ro ri :
  UnitRange_is_finite ro = true -> UnitRange_canonical ri ->
  UnitRange_le ri ro = true -> sub_range ro ri.
Proof.
  destruct ro as [[|s|] [|e|]]; unfold UnitRange_is_finite; simpl; try discriminate.
  intros _.
  destruct ri as [[|si|] [|ei|]];
    unfold UnitRange_canonical, UnitRange_make, UnitRange_le, Bound_leb; simpl;
    intros Hc Hle; try discriminate Hc; try discriminate Hle.
  - exists s, e, si, ei. simpl.
    assert (Hb : s <= si /\ ei <= e).
    { apply andb_true_iff in Hle as [H1 H2].
      apply orb_true_iff in H1. apply orb_true_iff in H2.
      rewrite Z.ltb_lt, Z.eqb_eq in H1, H2. lia. }
    assert (Hi : si <= ei).
    { destruct (si <? ei) eqn:E; [apply Z.ltb_lt in E; lia | injection Hc as <- <-; lia]. }
    repeat split; try reflexivity; lia.
  - rewrite andb_false_r in Hle. discriminate Hle.
Qed.

Lemma UnitRange_len_axis_of r n :
  UnitRange_canonical r -> UnitRange_len r = Ok n -> axis_of r n.
Proof.
  destruct r as [[|s|] [|e|]]; unfold UnitRange_len, UnitRange_canonical, UnitRange_make;
    simpl; intros Hc H; try discriminate.
  injection H as <-. exists s, e. repeat split.
  destruct (s <? e) eqn:E; [apply Z.ltb_lt in E; lia | injection Hc as <- <-; lia].
Qed.

Lemma axis_of_len r n : axis_of r n -> UnitRange_len r = Ok n /\ range_len r = n.
Proof.
  intros (s & e & Hs & He & _ & ->). unfold UnitRange_len, range_len. rewrite Hs, He. auto.
Qed.

Lemma exact_field_axes f :
  exact_field f -> Forall2 axis_of (ranges (domain f)) (shape (_ndarray f)).
Proof.
  intros ((_ & Hc) & _ & Hsh). unfold Domain_shape in Hsh.
  apply mapM_Forall2 in Hsh.
  induction Hsh as [|r n rs sh Hrn _ IH]; constructor.
  - inversion Hc; subst. apply UnitRange_len_axis_of; assumption.
  - apply IH. inversion Hc; assumption.
Qed.

Lemma axes_shape_matches rs sh : Forall2 axis_of rs sh -> shape_matches rs sh = Ok true.
Proof.
  intros H. apply Forall2_shape_matches.
  induction H as [|r n rs sh Hrn _ IH]; constructor; [|exact IH].
  right. apply axis_of_len, Hrn.
Qed.

Lemma axes_Domain_shape (d : Domain) sh :
  Forall2 axis_of (ranges d) sh -> Domain_shape d = Ok sh.
Proof.
  intros H. unfold Domain_shape. apply mapM_Forall2.
  induction H as [|r n rs sh' Hrn _ IH]; constructor; [apply axis_of_len, Hrn | exact IH].
Qed.


Lemma Forall2_impl_In {A B} (R Q : A -> B -> Prop) l1 l2 :
  (forall a b, In a l1 -> In b l2 -> R a b -> Q a b) -> Forall2 R l1 l2 -> Forall2 Q l1 l2.
Proof.
  intros H HR. induction HR as [|a b l1 l2 Hab _ IH]; constructor.
  - apply H; [left; reflexivity | left; reflexivity | exact Hab].
  - apply IH. intros a' b' Ha Hb. apply H; right; assumption.
Qed.

Lemma sub_domain_of_Forall2 (outer inner : Domain) :
  dims inner = dims outer ->
  Forall2 (fun ro ri => UnitRange_le ri ro = true) (ranges outer) (ranges inner) ->
  Forall2 (fun nro nri : NamedRange =>
             fst nri = fst nro /\ UnitRange_le (snd nri) (snd nro) = true) outer inner.
Proof.
  revert inner; induction outer as [|[dim ro] outer IH]; intros [|[dim' ri] inner] Hd Hr;
    simpl in *; try discriminate; constructor.
  - inversion Hr; subst. injection Hd as -> _. auto.
  - injection Hd as _ Hd. inversion Hr; subst. apply IH; assumption.
Qed.

Lemma sub_domain_ranges (dom d : Domain) (index : AbsoluteIndexSequence) :
  Forall2 (fun nro nri : NamedRange =>
             fst nri = fst nro /\ UnitRange_le (snd nri) (snd nro) = true
             /\ exists pos, find_dim (fst nro) index = Some pos
                            /\ nth_error index pos = Some (fst nro, a_range (snd nri)))
          dom d ->
  sub_domain dom index = Ok d.
Proof.
  induction 1 as [|[dim ro] [dim' ri] dom d (Hdim & Hle & pos & Hf & Hn) _ IH]; simpl in *;
    [reflexivity|].
  subst dim'. rewrite Hf, Hn, Hle, IH. reflexivity.
Qed.

(** The domain a restriction to a sub-domain leaves is that sub-domain. *)
Lemma sub_domain_sub (dom d : Domain) :
  NoDup (dims dom) -> sub_domain_of dom d -> sub_domain dom (Domain_as_index d) = Ok d.
Proof.
  intros Hnd (Hd & _ & Hle). apply sub_domain_ranges.
  apply Forall2_impl_In with (2 := sub_domain_of_Forall2 _ _ Hd Hle).
  intros [dim ro] [dim' ri] _ Hin [Hdim Hl]. simpl in *. subst dim'.
  repeat split; try assumption.
  apply find_dim_Domain_as_index; [rewrite Hd; exact Hnd | exact Hin].
Qed.

Lemma Forall2_combine_seq {A B} (R : nat * A -> B -> Prop) (l : list A) : forall (ys : list B) k,
  length ys = length l ->
  (forall i a y, nth_error l i = Some a -> nth_error ys i = Some y -> R ((k + i)%nat, a) y) ->
  Forall2 R (combine (seq k (length l)) l) ys.
Proof.
  induction l as [|a l IH]; intros [|y ys] k Hlen H; simpl in *; try discriminate; constructor.
  - specialize (H 0%nat a y eq_refl eq_refl). rewrite Nat.add_0_r in H. exact H.
  - apply IH; [congruence|]. intros i a' y' Ha Hy.
    replace (S k + i)%nat with (k + S i)%nat by lia. apply H; assumption.
Qed.

Lemma sub_ranges_of (outer inner : Domain) sh :
  Forall2 axis_of (ranges outer) sh ->
  sub_domain_of outer inner ->
  Forall2 sub_range (ranges outer) (ranges inner).
Proof.
  intros Hax (_ & Hcd & Hle). revert sh Hax Hcd.
  induction Hle as [|ro ri ros ris Hle _ IH]; intros sh Hax Hcd; constructor.
  - inversion Hax as [|? ? ? ? (s & e & Hs & He & _) _]; subst. inversion Hcd; subst.
    apply canonical_le_sub_range; try assumption.
    unfold UnitRange_is_finite, is_left_finite, is_right_finite. rewrite Hs, He. reflexivity.
  - inversion Hax; subst. inversion Hcd; subst. eapply IH; eassumption.
Qed.

Lemma _compute_slice_sub (dom : Domain) pos ro ri :
  nth_error (ranges dom) pos = Some ro -> sub_range ro ri ->
  _compute_slice (a_range ri) dom pos = Ok (sub_slice ro ri).
Proof.
  intros Hn (s & e & si & ei & Hs & He & Hsi & Hei & _).
  unfold _compute_slice, sub_slice. rewrite (nth_error_nth _ _ _ Hn).
  rewrite Hs, He, Hsi, Hei. reflexivity.
Qed.

(** The slices [_get_slices_from_domain_slice] computes for a sub-domain. *)
Lemma _get_slices_sub (dom d : Domain) :
  NoDup (dims dom) -> dims d = dims dom ->
  Forall2 sub_range (ranges dom) (ranges d) ->
  _get_slices_from_domain_slice dom (Domain_as_index d) =
  Ok (map (fun p => sub_slice (fst p) (snd p)) (combine (ranges dom) (ranges d))).
Proof.
  intros Hnd Hd Hsub. unfold _get_slices_from_domain_slice.
  apply mapM_Forall2.
  replace (length dom) with (length (dims dom)) by apply length_map.
  assert (Hlr : length (ranges d) = length (ranges dom)) by (symmetry; apply (Forall2_length Hsub)).
  apply Forall2_combine_seq.
  - rewrite length_map, length_combine, Hlr, Nat.min_id. unfold ranges, dims.
    rewrite !length_map. reflexivity.
  - intros i dim y Hdim Hy. simpl.
    rewrite nth_error_map in Hy.
    destruct (nth_error (combine (ranges dom) (ranges d)) i) as [[ro ri]|] eqn:Hc;
      simpl in Hy; [|discriminate]. injection Hy as <-.
    assert (Hro : nth_error (ranges dom) i = Some ro /\ nth_error (ranges d) i = Some ri).
    { clear - Hc. revert i Hc. generalize (ranges dom) (ranges d).
      induction l as [|a l IH]; intros [|b l'] [|i] H; simpl in *; try discriminate.
      - injection H as -> ->. auto.
      - apply IH; exact H. }
    destruct Hro as [Hro Hri].
    assert (Hin : In (dim, ri) d).
    { unfold ranges in Hri. rewrite nth_error_map in Hri.
      rewrite <- Hd in Hdim. unfold dims in Hdim. rewrite nth_error_map in Hdim.
      destruct (@nth_error (Dimension * UnitRange) d i) as [[dim' ri']|] eqn:Hdi;
        simpl in *; [|discriminate].
      injection Hri as ->. injection Hdim as ->. eapply nth_error_In; exact Hdi. }
    destruct (@find_dim_Domain_as_index d dim ri) as (pos & -> & ->);
      [rewrite Hd; exact Hnd | exact Hin |].
    apply _compute_slice_sub; [exact Hro|].
    clear - Hsub Hro Hri. revert i Hro Hri.
    induction Hsub as [|a b l l' Hab _ IH]; intros [|i] Ha Hb; simpl in *; try discriminate.
    + injection Ha as <-. injection Hb as <-. exact Hab.
    + apply (IH i); assumption.
Qed.

(** The indexing plan of these slices on an array that has the lengths of
    the outer ranges. *)
Lemma index_plan_sub ros ris sh :
  Forall2 axis_of ros sh -> Forall2 sub_range ros ris ->
  index_plan sh (map (fun p => sub_slice (fst p) (snd p)) (combine ros ris)) =
  Ok (map (fun p => sub_sel (fst p) (snd p)) (combine ros ris)).
Proof.
  intros Hax; revert ris.
  induction Hax as [|ro n ros sh (s0 & e0 & Hs0 & He0 & Hle0 & Hn) _ IH]; intros ris Hsub;
    inversion Hsub as [|? ri ? ris' (s & e & si & ei & Hs & He & Hsi & Hei & H1 & H2 & H3) Hsub'];
    subst; simpl; [reflexivity|].
  rewrite Hs in Hs0. injection Hs0 as <-. rewrite He in He0. injection He0 as <-.
  unfold sub_slice at 1. rewrite Hs, Hsi, Hei. simpl.
  rewrite (IH _ Hsub'). simpl. unfold sub_sel at 2. simpl. rewrite Hs, Hsi, Hei.
  replace (si - s <? 0) with false by (symmetry; apply Z.ltb_ge; lia).
  replace (ei - s <? 0) with false by (symmetry; apply Z.ltb_ge; lia).
  do 3 f_equal; lia.
Qed.

Lemma plan_shape_sub ros ris :
  Forall2 sub_range ros ris ->
  plan_shape (map (fun p => sub_sel (fst p) (snd p)) (combine ros ris)) = map range_len ris.
Proof.
  induction 1 as [|ro ri ros ris (s & e & si & ei & Hs & He & Hsi & Hei & _) _ IH]; simpl;
    [reflexivity|].
  unfold sub_sel at 1, range_len at 1. simpl. rewrite Hs, Hsi, Hei, IH. reflexivity.
Qed.

Lemma sub_range_axis_of ro ri : sub_range ro ri -> axis_of ri (range_len ri).
Proof.
  intros (s & e & si & ei & _ & _ & Hsi & Hei & _ & H & _).
  exists si, ei. unfold range_len. rewrite Hsi, Hei. repeat split; auto.
Qed.

Lemma sub_ranges_axes ros ris :
  Forall2 sub_range ros ris -> Forall2 axis_of ris (map range_len ris).
Proof.
  induction 1 as [|ro ri ros ris H _ IH]; simpl; constructor;
    [apply (sub_range_axis_of H) | exact IH].
Qed.

Lemma relative_in_bounds ris p :
  Forall2 (fun r k => UnitRange_contains r k = true) ris p ->
  Forall (fun r => exists si ei, start r = Int si /\ stop r = Int ei) ris ->
  in_bounds (map range_len ris)
    (map (fun rk : UnitRange * Z =>
            match start (fst rk) with Int s => Z.to_nat (snd rk - s) | _ => 0%nat end)
         (combine ris p)).
Proof.
  induction 1 as [|r k ris p Hc _ IH]; intros Hf; simpl; constructor.
  - inversion Hf as [|? ? (si & ei & Hsi & Hei) _]; subst.
    destruct r as [a b]; simpl in *; subst. unfold range_len; simpl.
    apply UnitRange_contains_Int in Hc. lia.
  - apply IH. inversion Hf; assumption.
Qed.

Lemma plan_source_sub ros ris p :
  Forall2 sub_range ros ris ->
  Forall2 (fun r k => UnitRange_contains r k = true) ris p ->
  plan_source (map (fun q => sub_sel (fst q) (snd q)) (combine ros ris))
    (map (fun rk : UnitRange * Z =>
            match start (fst rk) with Int s => Z.to_nat (snd rk - s) | _ => 0%nat end)
         (combine ris p))
  = map (fun rk : UnitRange * Z =>
           match start (fst rk) with Int s => Z.to_nat (snd rk - s) | _ => 0%nat end)
        (combine ros p).
Proof.
  intros Hsub; revert p.
  induction Hsub as [|ro ri ros ris (s & e & si & ei & Hs & He & Hsi & Hei & H1 & H2 & H3) _ IH];
    intros p Hin; inversion Hin as [|? k ? p' Hc Hin']; subst; simpl; [reflexivity|].
  unfold sub_sel at 1. simpl. rewrite Hs, Hsi, Hei. simpl. rewrite (IH _ Hin').
  f_equal. destruct ri as [a b]; simpl in *; subst.
  apply UnitRange_contains_Int in Hc. lia.
Qed.

Lemma sub_range_finite ros ris :
  Forall2 sub_range ros ris ->
  Forall (fun r => exists si ei, start r = Int si /\ stop r = Int ei) ris.
Proof.
  induction 1 as [|ro ri ros ris (s & e & si & ei & _ & _ & Hsi & Hei & _) _ IH];
    constructor; eauto.
Qed.

Lemma in_domain_sub ros ris p :
  Forall2 sub_range ros ris ->
  Forall2 (fun r k => UnitRange_contains r k = true) ris p ->
  Forall2 (fun r k => UnitRange_contains r k = true) ros p.
Proof.
  intros Hsub; revert p.
  induction Hsub as [|ro ri ros ris (s & e & si & ei & Hs & He & Hsi & Hei & H1 & H2 & H3) _ IH];
    intros p Hin; inversion Hin as [|? k ? p' Hc Hin']; subst; constructor; [|apply IH; exact Hin'].
  destruct ro as [a b], ri as [a' b']; simpl in *; subst.
  apply UnitRange_contains_Int. apply UnitRange_contains_Int in Hc. lia.
Qed.

(** Restriction to a sub-domain, point by point. *)
Lemma restrict_to_sub_domain f d :
  exact_field f -> sub_domain_of (domain f) d ->
  exists f',
    restrict f (Domain_as_index d) = Ok f'
    /\ domain f' = d
    /\ exact_field f'
    /\ field_dtype f' = field_dtype f
    /\ forall p, in_domain d p -> field_at f' p = field_at f p.
Proof.
  intros Hex Hsubd.
  pose proof (exact_field_axes Hex) as Hax.
  destruct Hex as ((Hu & Hc) & Hwa & Hsh).
  assert (Hnd : NoDup (dims (domain f))) by (apply unique_dims_NoDup; exact Hu).
  pose proof (@sub_ranges_of _ _ _ Hax Hsubd) as Hsub.
  destruct Hsubd as (Hd & Hcd & Hle).
  unfold restrict, _slice.
  rewrite (@sub_domain_sub _ _ Hnd (conj Hd (conj Hcd Hle))). simpl.
  rewrite (@_get_slices_sub _ _ Hnd Hd Hsub). simpl.
  unfold getitem, ndarray_of. rewrite (@index_plan_sub _ _ _ Hax Hsub). simpl.
  rewrite (@plan_shape_sub _ _ Hsub).
  pose proof (@sub_ranges_axes _ _ Hsub) as Haxd.
  rewrite from_array_Ok.
  - eexists. split; [reflexivity|]. split; [reflexivity|]. split; [|split; [reflexivity|]].
    + split; [|split].
      * split; [|exact Hcd]. simpl. rewrite Hd. exact Hu.
      * apply wf_build.
      * simpl. apply axes_Domain_shape. exact Haxd.
    + intros p Hp. unfold field_at, relative. simpl.
      rewrite item_build.
      * rewrite (@plan_source_sub _ _ _ Hsub Hp). reflexivity.
      * apply relative_in_bounds; [exact Hp | apply (@sub_range_finite _ _ Hsub)].
  - simpl. rewrite length_map. unfold ranges. rewrite length_map. reflexivity.
  - simpl. apply axes_shape_matches. exact Haxd.
Qed.

(** X7: restricting a field to a sub-domain (the same dimensions, every range
    inside the range of the field) returns a field over exactly that
    sub-domain, with the dtype of the field, whose value at every point of
    the sub-domain is the value of the field at that point. *)
Theorem restrict_sub_domain f d :
  exact_field f -> sub_domain_of (domain f) d ->
  exists f',
    restrict f (Domain_as_index d) = Ok f'
    /\ domain f' = d
    /\ exact_field f'
    /\ field_dtype f' = field_dtype f
    /\ forall p, in_domain d p -> field_at f' p = field_at f p.
Proof. apply restrict_to_sub_domain. Qed.

Lemma restrict_sub_domain_witness :
  exists f',
    restrict field_A (Domain_as_index [named_range I_dim 1 3]) = Ok f'
    /\ domain f' = [named_range I_dim 1 3]
    /\ exact_field f'
    /\ field_dtype f' = field_dtype field_A
    /\ forall p, in_domain [named_range I_dim 1 3] p -> field_at f' p = field_at field_A p.
Proof.
  apply (@restrict_sub_domain field_A [named_range I_dim 1 3]).
  - repeat split; try reflexivity. repeat constructor.
  - repeat split; try reflexivity; repeat constructor.
Defined.

(** ** Fields are determined by their values *)

Lemma ndarray_ext a b :
  wf_ndarray a -> wf_ndarray b -> dtype a = dtype b -> shape a = shape b ->
  (forall idx, in_bounds (shape a) idx -> item a idx = item b idx) -> a = b.
Proof.
  intros Ha Hb Hdt Hsh Hitem.
  rewrite <- (build_item Ha), <- (build_item Hb), Hdt, <- Hsh.
  apply build_ext. exact Hitem.
Qed.

Lemma point_at_relative (d : Domain) sh idx :
  Forall2 axis_of (ranges d) sh -> in_bounds sh idx ->
  in_domain d (point_at d idx) /\ relative d (point_at d idx) = idx.
Proof.
  unfold in_domain, relative, point_at. generalize (ranges d) as rs.
  intros rs Hax; revert idx.
  induction Hax as [|r n rs sh (s & e & Hs & He & Hle & Hn) _ IH]; intros idx Hin;
    inversion Hin as [|i ? idx' ? Hi Hin']; subst; simpl.
  - split; [constructor | reflexivity].
  - destruct (IH _ Hin') as [IH1 IH2]. rewrite Hs. split.
    + constructor; [|exact IH1].
      destruct r as [a b]; simpl in *; subst. apply UnitRange_contains_Int. lia.
    + f_equal; [lia | exact IH2].
Qed.

(** Two exact fields over one domain with one dtype that agree at every
    point of the domain are the same field. *)
Lemma exact_field_ext f g :
  exact_field f -> exact_field g -> domain f = domain g -> field_dtype f = field_dtype g ->
  (forall p, in_domain (domain f) p -> field_at f p = field_at g p) -> f = g.
Proof.
  intros Hf Hg Hd Hdt Hat.
  pose proof (exact_field_axes Hf) as Hax.
  destruct Hf as (_ & Hwf & Hsf), Hg as (_ & Hwg & Hsg).
  destruct f as [df af], g as [dg ag]; simpl in *. subst dg. f_equal.
  assert (Hsh : shape af = shape ag) by congruence.
  apply ndarray_ext; try assumption.
  intros idx Hin.
  destruct (@point_at_relative df _ _ Hax Hin) as [Hp Hr].
  specialize (Hat _ Hp). unfold field_at in Hat; simpl in Hat. rewrite Hr in Hat. exact Hat.
Qed.

Lemma sub_range_trans r0 r1 r2 : sub_range r0 r1 -> sub_range r1 r2 -> sub_range r0 r2.
Proof.
  intros (s & e & s1 & e1 & Hs & He & Hs1 & He1 & A1 & A2 & A3)
         (s1' & e1' & s2 & e2 & Hs1' & He1' & Hs2 & He2 & B1 & B2 & B3).
  rewrite Hs1 in Hs1'. injection Hs1' as <-. rewrite He1 in He1'. injection He1' as <-.
  exists s, e, s2, e2. repeat split; try assumption; lia.
Qed.

Lemma sub_range_le ro ri : sub_range ro ri -> UnitRange_le ri ro = true.
Proof.
  intros (s & e & si & ei & Hs & He & Hsi & Hei & H1 & H2 & H3).
  unfold UnitRange_le, Bound_leb. rewrite Hs, He, Hsi, Hei. simpl.
  apply andb_true_iff. split; apply orb_true_iff.
  - destruct (Z.eq_dec s si) as [->|]; [right; apply Z.eqb_refl | left; apply Z.ltb_lt; lia].
  - destruct (Z.eq_dec ei e) as [->|]; [right; apply Z.eqb_refl | left; apply Z.ltb_lt; lia].
Qed.

Lemma sub_domain_of_trans (d0 d1 d2 : Domain) sh :
  Forall2 axis_of (ranges d0) sh ->
  sub_domain_of d0 d1 -> sub_domain_of d1 d2 -> sub_domain_of d0 d2.
Proof.
  intros Hax H01 H12.
  pose proof (@sub_ranges_of _ _ _ Hax H01) as S01.
  pose proof (@sub_ranges_of _ _ _ (@sub_ranges_axes _ _ S01) H12) as S12.
  destruct H01 as (Hd1 & _ & _), H12 as (Hd2 & Hc2 & _).
  split; [congruence | split; [exact Hc2|]].
  clear - S01 S12. revert S12. generalize (ranges d2) as r2s.
  induction S01 as [|r0 r1 r0s r1s H01 _ IH]; intros r2s S12;
    inversion S12 as [|? r2 ? r2s' H12 S12']; subst; constructor.
  - apply sub_range_le. apply (sub_range_trans H01 H12).
  - apply IH; exact S12'.
Qed.

(** X8: restrictions compose.  Restricting a field to a sub-domain and the
    result to a sub-domain of that is the same as restricting the field to
    the smaller sub-domain at once. *)
Theorem restrict_restrict f d1 d2 :
  exact_field f -> sub_domain_of (domain f) d1 -> sub_domain_of d1 d2 ->
  exists f1 f2,
    restrict f (Domain_as_index d1) = Ok f1
    /\ restrict f1 (Domain_as_index d2) = Ok f2
    /\ restrict f (Domain_as_index d2) = Ok f2.
Proof.
  intros Hex H1 H2.
  pose proof (@sub_domain_of_trans _ _ _ _ (exact_field_axes Hex) H1 H2) as H02.
  destruct (restrict_to_sub_domain Hex H1) as (f1 & R1 & D1 & E1 & T1 & V1).
  rewrite <- D1 in H2.
  destruct (restrict_to_sub_domain E1 H2) as (f12 & R12 & D12 & E12 & T12 & V12).
  destruct (restrict_to_sub_domain Hex H02) as (f2 & R2 & D2 & E2 & T2 & V2).
  exists f1, f12. split; [exact R1 | split; [exact R12|]].
  rewrite R2. f_equal. apply exact_field_ext; try assumption; try congruence.
  intros p Hp. rewrite D2 in Hp.
  rewrite (V2 p Hp), (V12 p Hp). symmetry. apply V1.
  pose proof (@sub_ranges_of _ _ _ (exact_field_axes E1) H2) as S12.
  rewrite D1 in S12. apply (@in_domain_sub _ _ _ S12 Hp).
Qed.

Lemma restrict_restrict_witness :
  exists f1 f2,
    restrict field_A (Domain_as_index [named_range I_dim 1 4]) = Ok f1
    /\ restrict f1 (Domain_as_index [named_range I_dim 2 3]) = Ok f2
    /\ restrict field_A (Domain_as_index [named_range I_dim 2 3]) = Ok f2.
Proof.
  apply (@restrict_restrict field_A [named_range I_dim 1 4] [named_range I_dim 2 3]).
  - repeat split; try reflexivity. repeat constructor.
  - repeat split; try reflexivity; repeat constructor.
  - repeat split; try reflexivity; repeat constructor.
Defined.

(** ** Assignment *)

Lemma axes_shape rs sh : Forall2 axis_of rs sh -> sh = map range_len rs.
Proof.
  induction 1 as [|r n rs sh H _ IH]; simpl; [reflexivity|].
  rewrite <- IH. f_equal. symmetry. apply axis_of_len, H.
Qed.

Lemma broadcast_to_same a : wf_ndarray a -> broadcast_to a (shape a) = Ok a.
Proof.
  intros Hwf. unfold broadcast_to. rewrite broadcast_shapes_same. simpl.
  unfold list_nat_eqb. destruct (list_eq_dec Nat.eq_dec (shape a) (shape a)); [|congruence].
  f_equal. rewrite <- (build_item Hwf) at 3. apply build_ext.
  intros idx Hin. rewrite broadcast_index_in_bounds by exact Hin. reflexivity.
Qed.

Lemma plan_target_sub_in ros ris p :
  Forall2 sub_range ros ris ->
  Forall2 (fun r k => UnitRange_contains r k = true) ris p ->
  plan_target (map (fun q => sub_sel (fst q) (snd q)) (combine ros ris))
    (map (fun rk : UnitRange * Z =>
            match start (fst rk) with Int s => Z.to_nat (snd rk - s) | _ => 0%nat end)
       (combine ros p))
  = Some (map (fun rk : UnitRange * Z =>
                 match start (fst rk) with Int s => Z.to_nat (snd rk - s) | _ => 0%nat end)
            (combine ris p)).
Proof.
  intros Hsub; revert p.
  induction Hsub as [|ro ri ros ris (s & e & si & ei & Hs & He & Hsi & Hei & H1 & H2 & H3) _ IH];
    intros p Hin; inversion Hin as [|? k ? p' Hc Hin']; subst; simpl; [reflexivity|].
  unfold sub_sel at 1. simpl. rewrite Hs, Hsi, Hei. simpl. rewrite (IH _ Hin'). simpl.
  destruct ri as [a b]; simpl in *; subst. apply UnitRange_contains_Int in Hc.
  replace (Z.to_nat (si - s) <=? Z.to_nat (k - s))%nat with true
    by (symmetry; apply Nat.leb_le; lia).
  replace (Z.to_nat (k - s) <? Z.to_nat (si - s) + Z.to_nat (ei - si))%nat with true
    by (symmetry; apply Nat.ltb_lt; lia).
  simpl. do 2 f_equal. lia.
Qed.

Lemma plan_target_sub_out ros ris p :
  Forall2 sub_range ros ris ->
  Forall2 (fun r k => UnitRange_contains r k = true) ros p ->
  ~ Forall2 (fun r k => UnitRange_contains r k = true) ris p ->
  plan_target (map (fun q => sub_sel (fst q) (snd q)) (combine ros ris))
    (map (fun rk : UnitRange * Z =>
            match start (fst rk) with Int s => Z.to_nat (snd rk - s) | _ => 0%nat end)
       (combine ros p))
  = None.
Proof.
  intros Hsub; revert p.
  induction Hsub as [|ro ri ros ris (s & e & si & ei & Hs & He & Hsi & Hei & H1 & H2 & H3) _ IH];
    intros p Hin Hout; inversion Hin as [|? k ? p' Hc Hin']; subst; simpl.
  - exfalso. apply Hout. constructor.
  - unfold sub_sel at 1. simpl. rewrite Hs, Hsi, Hei. simpl.
    destruct ro as [a b], ri as [a' b']; simpl in *; subst.
    apply UnitRange_contains_Int in Hc.
    destruct ((Z.to_nat (si - s) <=? Z.to_nat (k - s))%nat
              && (Z.to_nat (k - s) <? Z.to_nat (si - s) + Z.to_nat (ei - si))%nat) eqn:E;
      [|reflexivity].
    apply andb_true_iff in E as [E1 E2]. apply Nat.leb_le in E1. apply Nat.ltb_lt in E2.
    rewrite IH; [reflexivity | exact Hin' |].
    intros Hrest. apply Hout. constructor; [|exact Hrest].
    apply UnitRange_contains_Int. lia.
Qed.

Lemma axes_finite rs sh :
  Forall2 axis_of rs sh ->
  Forall (fun r => exists si ei, start r = Int si /\ stop r = Int ei) rs.
Proof.
  induction 1 as [|r n rs sh (s & e & Hs & He & _) _ IH]; constructor; eauto.
Qed.

(** X9: assignment of a field to the sub-domain it lives on.  [f[d] = g],
    where [g] is a field over the sub-domain [d] of [f] with the dtype of
    [f], leaves the domain of [f] as it is; afterwards reading [f[d]] gives
    back [g], and [f] has its old value at every point outside [d]. *)
Theorem setitem_then_restrict self g :
  exact_field self -> exact_field g -> sub_domain_of (domain self) (domain g) ->
  field_dtype g = field_dtype self ->
  exists self',
    __setitem__ self (Domain_as_index (domain g)) (AField g) = Ok self'
    /\ domain self' = domain self
    /\ exact_field self'
    /\ restrict self' (Domain_as_index (domain g)) = Ok g
    /\ forall p, in_domain (domain self) p -> ~ in_domain (domain g) p ->
                 field_at self' p = field_at self p.
Proof.
  intros Hex Hexg Hsubd Hdt.
  pose proof (exact_field_axes Hex) as Hax.
  pose proof (exact_field_axes Hexg) as Haxg.
  pose proof (@sub_ranges_of _ _ _ Hax Hsubd) as Hsub.
  assert (Hnd : NoDup (dims (domain self)))
    by (apply unique_dims_NoDup; apply Hex).
  pose proof (axes_shape Hax) as Hsh. pose proof (axes_shape Haxg) as Hshg.
  set (pl := map (fun q => sub_sel (fst q) (snd q))
                 (combine (ranges (domain self)) (ranges (domain g)))).
  set (new := build (dtype (_ndarray self)) (shape (_ndarray self))
                (fun q => match plan_target pl q with
                          | Some r => item (_ndarray g) r
                          | None => item (_ndarray self) q
                          end)).
  assert (Hset : __setitem__ self (Domain_as_index (domain g)) (AField g) =
                 Ok (mkNdArrayField (_domain self) new)).
  { unfold __setitem__, _slice.
    rewrite (@sub_domain_sub _ _ Hnd Hsubd). cbn [bind].
    rewrite (@_get_slices_sub _ _ Hnd (proj1 Hsubd) Hsub). cbn [bind].
    rewrite Domain_eqb_refl. cbn [negb bind].
    unfold setitem. rewrite (@index_plan_sub _ _ _ Hax Hsub). cbn [bind].
    rewrite (@plan_shape_sub _ _ Hsub), <- Hshg.
    unfold ndarray_of. rewrite Nat.ltb_irrefl. cbn [bind].
    unfold field_dtype in Hdt. rewrite <- Hdt, asarray_same_dtype. cbn [bind].
    rewrite broadcast_to_same by apply Hexg. cbn [bind]. unfold new, pl.
    rewrite <- Hdt. reflexivity. }
  assert (Hex' : exact_field (mkNdArrayField (_domain self) new)).
  { split; [apply Hex | split; [apply wf_build | apply Hex]]. }
  exists (mkNdArrayField (_domain self) new).
  split; [exact Hset | split; [reflexivity | split; [exact Hex' | split]]].
  - destruct (@restrict_to_sub_domain (mkNdArrayField (_domain self) new) (domain g) Hex' Hsubd)
      as (f' & R & D & E & T & V).
    rewrite R. f_equal. apply exact_field_ext; try assumption.
    + rewrite T. unfold field_dtype in *. simpl. symmetry. exact Hdt.
    + intros p Hp. rewrite D in Hp. rewrite (V p Hp).
      unfold field_at. simpl. unfold new. rewrite item_build.
      * unfold relative, pl, domain in *.
        rewrite (@plan_target_sub_in _ _ _ Hsub Hp). reflexivity.
      * rewrite Hsh. apply relative_in_bounds.
        -- apply (@in_domain_sub _ _ _ Hsub Hp).
        -- apply (axes_finite Hax).
  - intros p Hp Hout. unfold field_at. simpl. unfold new. rewrite item_build.
    + unfold in_domain, relative, pl, domain in *.
      rewrite (@plan_target_sub_out _ _ _ Hsub Hp Hout). reflexivity.
    + rewrite Hsh. apply relative_in_bounds; [exact Hp | apply (axes_finite Hax)].
Qed.

Lemma setitem_then_restrict_witness :
  exists self',
    __setitem__ field_A (Domain_as_index (domain field_1_3)) (AField field_1_3) = Ok self'
    /\ domain self' = domain field_A
    /\ exact_field self'
    /\ restrict self' (Domain_as_index (domain field_1_3)) = Ok field_1_3
    /\ forall p, in_domain (domain field_A) p -> ~ in_domain (domain field_1_3) p ->
                 field_at self' p = field_at field_A p.
Proof.
  apply (@setitem_then_restrict field_A field_1_3).
  - repeat split; try reflexivity. repeat constructor.
  - repeat split; try reflexivity. repeat constructor.
  - repeat split; try reflexivity; repeat constructor.
  - reflexivity.
Defined.

(** ** Arithmetic on fields over the same dimensions *)

Lemma same_dims_Forall2 (d1 d2 : Domain) :
  dims d2 = dims d1 -> Forall2 (fun a b : NamedRange => fst a = fst b) d1 d2.
Proof.
  revert d2; induction d1 as [|[dim r] d1 IH]; intros [|[dim' r'] d2] H; simpl in *;
    try discriminate; constructor.
  - injection H as -> _. reflexivity.
  - apply IH. injection H as _ H. exact H.
Qed.

Lemma map_fst_combine {A B C D} (F : A -> D) (G : (A * B) * C -> D) (l1 : list (A * B)) l2 :
  Forall2 (fun a b => F (fst a) = G (a, b)) l1 l2 ->
  map F (map fst l1) = map G (combine l1 l2).
Proof. induction 1 as [|a b l1 l2 H _ IH]; simpl; [reflexivity | rewrite H, IH; reflexivity]. Qed.

Lemma Domain_and_same_dims (d1 d2 : Domain) :
  NoDup (dims d1) -> dims d2 = dims d1 ->
  Domain_and d1 d2 =
  map (fun p : NamedRange * NamedRange =>
         (fst (fst p), UnitRange_and (snd (fst p)) (snd (snd p))))
      (combine d1 d2).
Proof.
  intros Hnd Hd. unfold Domain_and, promote_dims; simpl.
  rewrite (@promote_dims_into_fresh [] (dims d1)) by (auto; exact Hnd). simpl.
  rewrite promote_dims_into_present by (rewrite Hd; auto).
  assert (H : Forall2 (fun a b : NamedRange =>
                         fst a = fst b
                         /\ broadcast_range d1 (fst a) = snd a
                         /\ broadcast_range d2 (fst a) = snd b) d1 d2).
  { apply Forall2_impl_In with (2 := same_dims_Forall2 _ _ Hd).
    intros [dim r1] [dim' r2] H1 H2 Hf. simpl in *. subst dim'.
    repeat split.
    - apply broadcast_range_in; assumption.
    - apply broadcast_range_in; [rewrite Hd; exact Hnd | exact H2]. }
  unfold dims. apply map_fst_combine.
  apply Forall2_impl_In with (2 := H).
  intros [dim r1] [dim' r2] _ _ (Hf & H1 & H2). simpl in *. rewrite H1, H2. reflexivity.
Qed.

Lemma UnitRange_make_canonical a b : UnitRange_canonical (UnitRange_make a b).
Proof.
  unfold UnitRange_canonical, UnitRange_make.
  destruct (Bound_ltb a b) eqn:E; simpl; [rewrite E; reflexivity | reflexivity].
Qed.

Lemma UnitRange_and_inside r1 r2 n1 n2 :
  axis_of r1 n1 -> axis_of r2 n2 ->
  UnitRange_is_empty (UnitRange_and r1 r2) = false ->
  UnitRange_le (UnitRange_and r1 r2) r1 = true
  /\ UnitRange_le (UnitRange_and r1 r2) r2 = true.
Proof.
  intros (s1 & e1 & Hs1 & He1 & _) (s2 & e2 & Hs2 & He2 & _).
  unfold UnitRange_and, UnitRange_make, Bound_max, Bound_min, UnitRange_is_empty, UnitRange_le,
    Bound_leb.
  rewrite Hs1, He1, Hs2, He2. simpl.
  destruct (s1 <? s2) eqn:A; destruct (e2 <? e1) eqn:B; simpl;
    match goal with
    | |- context [if ?c then _ else _] => destruct c eqn:C; simpl
    end;
    try discriminate; intros _;
    apply Z.ltb_lt in C;
    try apply Z.ltb_lt in A; try apply Z.ltb_ge in A;
    try apply Z.ltb_lt in B; try apply Z.ltb_ge in B;
    rewrite ?andb_true_iff, ?orb_true_iff, ?Z.ltb_lt, ?Z.eqb_eq; lia.
Qed.

(** The intersection of two finite domains over the same dimensions, when
    it is not empty, is a sub-domain of both. *)
Lemma intersection_sub_domains (d1 d2 : Domain) sh1 sh2 :
  wf_domain d1 -> dims d2 = dims d1 ->
  Forall2 axis_of (ranges d1) sh1 -> Forall2 axis_of (ranges d2) sh2 ->
  Domain_is_empty (domain_intersection [d1; d2]) = false ->
  domain_intersection [d1; d2] = Domain_and d1 d2
  /\ sub_domain_of d1 (Domain_and d1 d2)
  /\ sub_domain_of d2 (Domain_and d1 d2).
Proof.
  intros Hwf Hd Hax1 Hax2 Hne.
  assert (Hnd : NoDup (dims d1)) by (apply unique_dims_NoDup, Hwf).
  assert (Hi : domain_intersection [d1; d2] = Domain_and d1 d2).
  { unfold domain_intersection; simpl. rewrite (Domain_and_nil_l Hwf). reflexivity. }
  rewrite Hi in Hne. split; [exact Hi|].
  rewrite (@Domain_and_same_dims _ _ Hnd Hd) in *.
  unfold Domain_is_empty in Hne.
  pose proof (same_dims_Forall2 _ _ Hd) as Hf.
  assert (Hd' : dims (map (fun p : NamedRange * NamedRange =>
                             (fst (fst p), UnitRange_and (snd (fst p)) (snd (snd p))))
                          (combine d1 d2)) = dims d1).
  { clear - Hf. induction Hf as [|[a r1] [b r2] l1 l2 H _ IH]; simpl in *; [reflexivity|].
    unfold dims in *. simpl. rewrite IH. reflexivity. }
  assert (Hall : Forall2 (fun ro ri => UnitRange_le ri ro = true) (ranges d1)
                   (ranges (map (fun p : NamedRange * NamedRange =>
                                   (fst (fst p), UnitRange_and (snd (fst p)) (snd (snd p))))
                                (combine d1 d2)))
                 /\ Forall2 (fun ro ri => UnitRange_le ri ro = true) (ranges d2)
                      (ranges (map (fun p : NamedRange * NamedRange =>
                                      (fst (fst p), UnitRange_and (snd (fst p)) (snd (snd p))))
                                   (combine d1 d2)))
                 /\ Forall UnitRange_canonical
                      (ranges (map (fun p : NamedRange * NamedRange =>
                                      (fst (fst p), UnitRange_and (snd (fst p)) (snd (snd p))))
                                   (combine d1 d2)))).
  { clear Hd' Hi Hd Hnd Hwf. revert sh1 sh2 Hax1 Hax2 Hne.
    induction Hf as [|[a r1] [b r2] l1 l2 H _ IH]; intros sh1 sh2 Hax1 Hax2 Hne; simpl in *.
    - repeat split; constructor.
    - inversion Hax1 as [|? n1 ? sh1' A1 Hax1']; subst.
      inversion Hax2 as [|? n2 ? sh2' A2 Hax2']; subst.
      apply orb_false_iff in Hne as [Hne1 Hne2].
      destruct (UnitRange_and_inside A1 A2 Hne1) as [L1 L2].
      destruct (IH _ _ Hax1' Hax2' Hne2) as (I1 & I2 & I3).
      repeat split; constructor; try assumption.
      apply UnitRange_make_canonical. }
  destruct Hall as (H1 & H2 & H3).
  split; repeat split; try assumption. congruence.
Qed.

Lemma dims_eqb_refl l : dims_eqb l l = true.
Proof.
  unfold dims_eqb. rewrite Nat.eqb_refl. simpl.
  induction l as [|x l IH]; simpl; [reflexivity|].
  rewrite Dimension_eqb_refl, IH. reflexivity.
Qed.

(** What [_make_builtin] hands to the array function for a field operand
    when the intersection is a sub-domain of the operand's domain. *)
Lemma operand_on_sub_domain f d :
  exact_field f -> sub_domain_of (domain f) d ->
  exists t,
    (if Domain_eqb (domain f) d
     then asarray (ndarray_of f) None
     else
       f_broadcasted <- _broadcast f (dims d) ;;
       f_slices <- _get_slices_from_domain_slice (domain f_broadcasted) (Domain_as_index d) ;;
       sliced <- getitem (ndarray_of f_broadcasted) f_slices ;;
       asarray sliced None) = Ok t
    /\ wf_ndarray t
    /\ dtype t = field_dtype f
    /\ shape t = map range_len (ranges d)
    /\ forall p, in_domain d p -> item t (relative d p) = field_at f p.
Proof.
  intros Hex Hsubd.
  pose proof (exact_field_axes Hex) as Hax.
  destruct (Domain_eqb (domain f) d) eqn:E.
  - apply Domain_eqb_eq in E. subst d.
    exists (_ndarray f). simpl.
    split; [reflexivity | split; [apply Hex | split; [reflexivity | split]]].
    + apply (axes_shape Hax).
    + intros p _. reflexivity.
  - pose proof (@sub_ranges_of _ _ _ Hax Hsubd) as Hsub.
    assert (Hnd : NoDup (dims (domain f))) by (apply unique_dims_NoDup; apply Hex).
    unfold _broadcast. rewrite <- (proj1 Hsubd), dims_eqb_refl. cbn [bind].
    rewrite (@_get_slices_sub _ _ Hnd (proj1 Hsubd) Hsub). cbn [bind].
    unfold getitem, ndarray_of. rewrite (@index_plan_sub _ _ _ Hax Hsub). cbn [bind asarray].
    rewrite (@plan_shape_sub _ _ Hsub).
    eexists. split; [reflexivity|].
    split; [apply wf_build | split; [reflexivity | split; [reflexivity|]]].
    intros p Hp. unfold field_at, relative. rewrite item_build.
    + rewrite (@plan_source_sub _ _ _ Hsub Hp). reflexivity.
    + apply relative_in_bounds; [exact Hp | apply (@sub_range_finite _ _ Hsub)].
Qed.

Lemma has_float_two a b :
  DType_eqb (dtype a) Float64DType = false -> DType_eqb (dtype b) Float64DType = false ->
  has_float [a; b] = false.
Proof. intros Ha Hb. unfold has_float; simpl. rewrite Ha, Hb. reflexivity. Qed.

(** A binary array function on fields over the same dimensions whose
    domains overlap: the result lives on the intersection of the domains and
    is computed point by point. *)
Lemma binary_builtin_pointwise builtin_name array_builtin_name (op : Z -> Z -> Z) f g :
  exact_field f -> exact_field g -> dims (domain g) = dims (domain f) ->
  DType_eqb (field_dtype f) Float64DType = false ->
  DType_eqb (field_dtype g) Float64DType = false ->
  Domain_is_empty (domain_intersection [domain f; domain g]) = false ->
  (forall a b, dtype a = field_dtype f -> dtype b = field_dtype g ->
     xp_getattr array_builtin_name [a; b] =
     elementwise (result_type [field_dtype f; field_dtype g]) (binary op) [a; b]) ->
  exists h,
    _make_builtin builtin_name array_builtin_name false [VField f; VField g] = Ok h
    /\ domain h = domain_intersection [domain f; domain g]
    /\ exact_field h
    /\ field_dtype h = result_type [field_dtype f; field_dtype g]
    /\ forall p, in_domain (domain h) p ->
         field_at h p = wrap (field_dtype h) (op (field_at f p) (field_at g p)).
Proof.
  intros Hf Hg Hd Hff Hfg Hne Hop.
  destruct (@intersection_sub_domains (domain f) (domain g) _ _ (proj1 Hf) Hd
              (exact_field_axes Hf) (exact_field_axes Hg) Hne) as (Hi & S1 & S2).
  set (d := Domain_and (domain f) (domain g)) in *.
  destruct (operand_on_sub_domain Hf S1) as (tf & Tf & Wf & Df & Sf & Vf).
  destruct (operand_on_sub_domain Hg S2) as (tg & Tg & Wg & Dg & Sg & Vg).
  pose proof (@sub_ranges_of _ _ _ (exact_field_axes Hf) S1) as Hsub.
  pose proof (@sub_ranges_axes _ _ Hsub) as Haxd.
  unfold _make_builtin. cbn [_get_nd_array_class existsb orb bind].
  cbn [field_domains flat_map app]. rewrite Hi.
  cbn [mapM]. rewrite Tf. cbn [bind]. rewrite Tg. cbn [bind].
  rewrite (Hop tf tg Df Dg).
  unfold elementwise. rewrite has_float_two by (rewrite ?Df, ?Dg; assumption).
  unfold broadcast_apply. cbn [map broadcast_shapes_list bind].
  rewrite broadcast_shapes_nil_r. cbn [bind]. rewrite Sf, Sg, broadcast_shapes_same.
  cbn [bind]. rewrite from_array_Ok.
  - eexists. split; [reflexivity|]. split; [reflexivity|]. split; [|split; [reflexivity|]].
    + split; [|split].
      * split; [|apply S1]. simpl. rewrite (proj1 S1). apply Hf.
      * apply wf_build.
      * simpl. apply axes_Domain_shape. exact Haxd.
    + intros p Hp. simpl in Hp. unfold field_at at 1. simpl.
      assert (Hin : in_bounds (map range_len (ranges d)) (relative d p)).
      { apply relative_in_bounds; [exact Hp | apply (@sub_range_finite _ _ Hsub)]. }
      rewrite item_build by exact Hin. simpl.
      rewrite <- Sf at 1. rewrite <- Sg at 1.
      rewrite !broadcast_index_in_bounds by (rewrite ?Sf, ?Sg; exact Hin).
      rewrite (Vf p Hp), (Vg p Hp). reflexivity.
  - simpl. rewrite length_map. unfold ranges. rewrite length_map. reflexivity.
  - simpl. apply axes_shape_matches. exact Haxd.
Qed.

(** X10: the sum and the product of two fields over the same dimensions
    whose domains overlap.  The result lives on the intersection of the two
    domains, has the promoted dtype, and its value at every point of the
    intersection is the sum (the product) of the values of the two fields at
    that point, converted to that dtype. *)
Theorem add_mul_fields_pointwise f g :
  exact_field f -> exact_field g -> dims (domain g) = dims (domain f) ->
  DType_eqb (field_dtype f) Float64DType = false ->
  DType_eqb (field_dtype g) Float64DType = false ->
  Domain_is_empty (domain_intersection [domain f; domain g]) = false ->
  (exists h,
     __add__ f (VField g) = Ok h
     /\ domain h = domain_intersection [domain f; domain g]
     /\ field_dtype h = result_type [field_dtype f; field_dtype g]
     /\ forall p, in_domain (domain h) p ->
          field_at h p = wrap (field_dtype h) (field_at f p + field_at g p))
  /\ (exists h,
        __mul__ f (VField g) = Ok h
        /\ domain h = domain_intersection [domain f; domain g]
        /\ field_dtype h = result_type [field_dtype f; field_dtype g]
        /\ forall p, in_domain (domain h) p ->
             field_at h p = wrap (field_dtype h) (field_at f p * field_at g p)).
Proof.
  intros Hf Hg Hd Hff Hfg Hne. split.
  - destruct (@binary_builtin_pointwise "add" "add" Z.add f g Hf Hg Hd Hff Hfg Hne)
      as (h & H1 & H2 & _ & H3 & H4).
    + intros a b Ha Hb. unfold xp_getattr. simpl. rewrite Ha, Hb. reflexivity.
    + exists h. repeat split; assumption.
  - destruct (@binary_builtin_pointwise "mul" "multiply" Z.mul f g Hf Hg Hd Hff Hfg Hne)
      as (h & H1 & H2 & _ & H3 & H4).
    + intros a b Ha Hb. unfold xp_getattr. simpl. rewrite Ha, Hb. reflexivity.
    + exists h. repeat split; assumption.
Qed.

Lemma add_mul_fields_pointwise_witness :
  (exists h,
     __add__ field_A (VField field_B) = Ok h
     /\ domain h = domain_intersection [domain field_A; domain field_B]
     /\ field_dtype h = result_type [field_dtype field_A; field_dtype field_B]
     /\ forall p, in_domain (domain h) p ->
          field_at h p = wrap (field_dtype h) (field_at field_A p + field_at field_B p))
  /\ (exists h,
        __mul__ field_A (VField field_B) = Ok h
        /\ domain h = domain_intersection [domain field_A; domain field_B]
        /\ field_dtype h = result_type [field_dtype field_A; field_dtype field_B]
        /\ forall p, in_domain (domain h) p ->
             field_at h p = wrap (field_dtype h) (field_at field_A p * field_at field_B p)).
Proof.
  apply (@add_mul_fields_pointwise field_A field_B).
  - repeat split; try reflexivity. repeat constructor.
  - repeat split; try reflexivity. repeat constructor.
  - reflexivity.
  - reflexivity.
  - reflexivity.
  - reflexivity.
Defined.

(** ** A scalar operand and the reversed operators *)

Lemma broadcast_shapes_nil_l s : broadcast_shapes [] s = Ok s.
Proof.
  unfold broadcast_shapes, pad_shape. simpl.
  rewrite Nat.sub_0_r, Nat.sub_diag. simpl. rewrite app_nil_r.
  induction s as [|n s IH]; simpl; [reflexivity|].
  rewrite IH. replace (broadcast_axis 1 n) with (Ok n); [reflexivity|].
  unfold broadcast_axis. destruct (1 =? n)%nat eqn:E; [|reflexivity].
  apply Nat.eqb_eq in E. subst. reflexivity.
Qed.

Lemma result_type_comm a b : result_type [a; b] = result_type [b; a].
Proof. destruct a, b; reflexivity. Qed.

Lemma result_type_not_float a b :
  DType_eqb a Float64DType = false -> DType_eqb b Float64DType = false ->
  DType_eqb (result_type [a; b]) Float64DType = false.
Proof. destruct a, b; simpl; intros; congruence. Qed.

(** X11: subtraction of a scalar and the reversed subtraction.  For a field
    [f] and a scalar [c] (integers, the promoted dtype not boolean), [f - c]
    and [c - f] both live on the domain of [f]; the entries of [f - c] are
    those of [f] minus [c], and the entries of [c - f] are [c] minus those of
    [f]: the reversed operator swaps the operands before it calls the array
    function. *)
Theorem sub_rsub_scalar f dt z :
  wf_field f ->
  DType_eqb (field_dtype f) Float64DType = false -> DType_eqb dt Float64DType = false ->
  result_type [field_dtype f; dt] <> BoolDType ->
  exists h1 h2,
    __sub__ f (VScalar (mkScalar dt z)) = Ok h1
    /\ __rsub__ f (VScalar (mkScalar dt z)) = Ok h2
    /\ domain h1 = domain f /\ domain h2 = domain f
    /\ shape (_ndarray h1) = shape (_ndarray f) /\ shape (_ndarray h2) = shape (_ndarray f)
    /\ forall idx, in_bounds (shape (_ndarray f)) idx ->
         item (_ndarray h1) idx
         = wrap (result_type [field_dtype f; dt]) (item (_ndarray f) idx - z)
         /\ item (_ndarray h2) idx
            = wrap (result_type [field_dtype f; dt]) (z - item (_ndarray f) idx).
Proof.
  intros Hwf Hff Hfs Hnb.
  destruct Hwf as (Hd & Hwa & Hlen & Hsm).
  assert (Hrt : DType_eqb (result_type [field_dtype f; dt]) BoolDType = false).
  { destruct (DType_eqb (result_type [field_dtype f; dt]) BoolDType) eqn:E; [|reflexivity].
    apply DType_eqb_eq in E. contradiction. }
  assert (H1 : __sub__ f (VScalar (mkScalar dt z)) =
               Ok (mkNdArrayField (domain f)
                     (build (result_type [field_dtype f; dt]) (shape (_ndarray f))
                        (fun idx => wrap (result_type [field_dtype f; dt])
                                      (item (_ndarray f)
                                         (broadcast_index (shape (_ndarray f)) idx) - z))))).
  { unfold __sub__, _make_builtin. cbn [_get_nd_array_class existsb orb bind].
    cbn [field_domains flat_map app]. rewrite (domain_intersection_single Hd).
    cbn [mapM]. rewrite Domain_eqb_refl. cbn [asarray bind rev app].
    unfold xp_getattr. cbn [String.eqb Ascii.eqb Bool.eqb].
    unfold arity. cbn [length Nat.eqb bind map scalar_array dtype].
    unfold ndarray_of, field_dtype in *. rewrite Hrt.
    unfold elementwise. rewrite has_float_two by assumption.
    unfold broadcast_apply. cbn [map broadcast_shapes_list bind shape].
    rewrite broadcast_shapes_nil_r. cbn [bind]. rewrite broadcast_shapes_nil_r. cbn [bind].
    rewrite from_array_Ok; [reflexivity | exact Hlen | exact Hsm]. }
  assert (H2 : __rsub__ f (VScalar (mkScalar dt z)) =
               Ok (mkNdArrayField (domain f)
                     (build (result_type [field_dtype f; dt]) (shape (_ndarray f))
                        (fun idx => wrap (result_type [field_dtype f; dt])
                                      (z - item (_ndarray f)
                                             (broadcast_index (shape (_ndarray f)) idx)))))).
  { unfold __rsub__, _make_builtin. cbn [_get_nd_array_class existsb orb bind].
    cbn [field_domains flat_map app]. rewrite (domain_intersection_single Hd).
    cbn [mapM]. rewrite Domain_eqb_refl. cbn [asarray bind rev app].
    unfold xp_getattr. cbn [String.eqb Ascii.eqb Bool.eqb].
    unfold arity. cbn [length Nat.eqb bind map scalar_array dtype].
    unfold ndarray_of, field_dtype in *.
    rewrite (result_type_comm dt (dtype (_ndarray f))), Hrt.
    unfold elementwise. rewrite has_float_two by assumption.
    unfold broadcast_apply. cbn [map broadcast_shapes_list bind shape].
    rewrite broadcast_shapes_nil_r. cbn [bind]. rewrite broadcast_shapes_nil_l. cbn [bind].
    rewrite from_array_Ok; [reflexivity | exact Hlen | exact Hsm]. }
  eexists. eexists. split; [exact H1 | split; [exact H2|]].
  repeat split; try reflexivity.
  - simpl. rewrite item_build by exact H. rewrite broadcast_index_in_bounds by exact H.
    reflexivity.
  - simpl. rewrite item_build by exact H. rewrite broadcast_index_in_bounds by exact H.
    reflexivity.
Qed.

Lemma sub_rsub_scalar_witness :
  exists h1 h2,
    __sub__ field_A (VScalar (mkScalar Int64DType 10)) = Ok h1
    /\ __rsub__ field_A (VScalar (mkScalar Int64DType 10)) = Ok h2
    /\ domain h1 = domain field_A /\ domain h2 = domain field_A
    /\ shape (_ndarray h1) = shape (_ndarray field_A)
    /\ shape (_ndarray h2) = shape (_ndarray field_A)
    /\ forall idx, in_bounds (shape (_ndarray field_A)) idx ->
         item (_ndarray h1) idx
         = wrap (result_type [field_dtype field_A; Int64DType]) (item (_ndarray field_A) idx - 10)
         /\ item (_ndarray h2) idx
            = wrap (result_type [field_dtype field_A; Int64DType])
                (10 - item (_ndarray field_A) idx).
Proof.
  apply (@sub_rsub_scalar field_A Int64DType 10).
  - repeat split; try reflexivity. repeat constructor.
  - reflexivity.
  - reflexivity.
  - discriminate.
Defined.

(** ** [remap] through an array-backed connectivity *)

Lemma Forall2_eq_eq {A} (l1 l2 : list A) : Forall2 eq l1 l2 -> l1 = l2.
Proof. induction 1; [reflexivity | subst; reflexivity]. Qed.

Lemma in_bounds_zeros sh : Forall (fun n => (0 < n)%nat) sh -> in_bounds sh (map (fun _ => 0%nat) sh).
Proof. induction 1; simpl; constructor; assumption. Qed.

Lemma in_bounds_last sh :
  Forall (fun n => (0 < n)%nat) sh -> in_bounds sh (map (fun n => (n - 1)%nat) sh).
Proof. induction 1; simpl; constructor; [lia | assumption]. Qed.

Lemma item_in_data a p : wf_ndarray a -> in_bounds (shape a) p -> In (item a p) (data a).
Proof.
  intros Hwf Hp. unfold item. apply nth_In. rewrite Hwf. apply ravel_lt, Hp.
Qed.

Lemma nth_map_lt {A B} (f : A -> B) l k d d' :
  (k < length l)%nat -> nth k (map f l) d = f (nth k l d').
Proof.
  revert k; induction l as [|x l IH]; intros [|k] H; simpl in *; try lia; [reflexivity|].
  apply IH. lia.
Qed.

(** When every entry of an array that is not empty lies in the image range,
    the bounding box of the selected positions is the whole array. *)
Lemma full_bounding_box a r :
  wf_ndarray a -> Forall (fun n => (0 < n)%nat) (shape a) ->
  Forall (fun x => UnitRange_contains r x = true) (data a) ->
  bounding_box a r = full_box (shape a)
  /\ exists p, selected a r p.
Proof.
  intros Hwf Hpos Hall.
  assert (Hsel : forall p, in_bounds (shape a) p -> selected a r p).
  { intros p Hp. split; [exact Hp|]. rewrite Forall_forall in Hall.
    apply Hall, item_in_data; assumption. }
  assert (Hex : exists p, selected a r p).
  { eexists. apply Hsel, in_bounds_zeros, Hpos. }
  split; [|exact Hex].
  apply Forall2_eq_eq. unfold bounding_box.
  replace (length (shape a)) with (length (full_box (shape a)))
    by (unfold full_box; apply length_map).
  apply Forall2_map_seq with (d := (0, 0)). intros k Hk.
  unfold full_box in *. rewrite length_map in Hk.
  rewrite (nth_map_lt _ _ _ 0%nat Hk).
  destruct (selected_coordinates_bounds k Hex) as ((pmin & Smin & Emin) & (pmax & Smax & Emax) & Hb).
  pose proof (Hb _ (Hsel _ (in_bounds_zeros Hpos))) as B0.
  pose proof (Hb _ (Hsel _ (in_bounds_last Hpos))) as B1.
  pose proof (in_bounds_nth (proj1 Smax) Hk) as Hlt.
  rewrite (nth_map_lt _ _ _ 0%nat Hk) in B0. rewrite (nth_map_lt _ _ _ 0%nat Hk) in B1.
  f_equal; lia.
Qed.

Lemma absolute_box_full (d : Domain) sh :
  Forall2 axis_of (ranges d) sh -> Forall (fun n => (0 < n)%nat) sh ->
  absolute_box d (full_box sh) = d.
Proof.
  unfold absolute_box, full_box, ranges.
  revert sh; induction d as [|[dim r] d IH]; intros sh Hax Hpos; simpl in *;
    inversion Hax as [|? n ? sh' (s & e & Hs & He & Hle & Hn) Hax']; subst; simpl;
    [reflexivity|].
  inversion Hpos; subst. rewrite Hs, (IH _ Hax') by assumption.
  destruct r as [a b]; simpl in *; subst.
  replace (Z.of_nat (Z.to_nat (e - s)) + s) with e by lia. reflexivity.
Qed.

(** X12: [remap] through an array-backed connectivity is composition.  For a
    field [f] over the one dimension the connectivity points into, and a
    connectivity that is not empty and all of whose entries lie in the range
    of [f], the result lives on the domain of the connectivity, has the dtype
    of [f], and its value at a point [p] is the value of [f] at the entry the
    connectivity has at [p]. *)
Theorem remap_gathers f (c : NdArrayConnectivityField) r :
  exact_field f -> domain f = [(_codomain c, r)] ->
  exact_field (conn_field c) ->
  shape (_ndarray (conn_field c)) <> [] ->
  Forall (fun n => (0 < n)%nat) (shape (_ndarray (conn_field c))) ->
  skip_value_supported (_skip_value c) = true ->
  field_dtype (conn_field c) = Int32DType \/ field_dtype (conn_field c) = Int64DType ->
  Forall (fun x => UnitRange_contains r x = true) (data (_ndarray (conn_field c))) ->
  Z.of_nat (range_len r) <= 2 ^ 31 ->
  exists h,
    remap f c = Ok h
    /\ domain h = domain (conn_field c)
    /\ field_dtype h = field_dtype f
    /\ forall p, in_domain (domain h) p ->
         field_at h p = field_at f [field_at (conn_field c) p].
Proof.
  intros Hf Hdf Hc Hrank Hpos Hskip Hdt Hall Hsmall.
  pose proof (exact_field_axes Hf) as Haxf.
  pose proof (exact_field_axes Hc) as Haxc.
  destruct (@full_bounding_box _ r (proj1 (proj2 Hc)) Hpos Hall) as [Hbox Hsel].
  unfold remap. cbn [skip_value NdArrayConnectivityField_ConnectivityField].
  rewrite Hskip. cbn [assert bind codomain].
  rewrite Hdf. unfold dim_index. cbn [find_dim]. rewrite Dimension_eqb_refl.
  cbn [ranges map snd nth connectivity_inverse_image].
  change (connectivity_inverse_image c r) with (inverse_image_compute c (inl r)).
  assert (Hr : axis_of r (range_len r)).
  { rewrite Hdf in Haxf. simpl in Haxf. inversion Haxf as [|? n ? ? A _]; subst.
    destruct (axis_of_len A) as [_ <-]. exact A. }
  destruct Hr as (s & e & Hs & He & Hle & Hn).
  assert (Hlenc : length (domain (conn_field c)) = length (shape (_ndarray (conn_field c)))).
  { pose proof (Forall2_length Haxc) as Hl. unfold ranges in Hl. rewrite length_map in Hl.
    exact Hl. }
  rewrite (@inverse_image_absolute_box c r (proj1 (proj2 Hc)) Hrank (proj1 (proj1 Hc)) Hlenc).
  2: { pose proof (axes_finite Haxc) as Hfin. rewrite Forall_forall in *.
       intros x Hx. destruct (Hfin x Hx) as (si & ei & Hsi & _). eauto. }
  2: { unfold UnitRange_is_finite, is_left_finite, is_right_finite. rewrite Hs, He. reflexivity. }
  2: exact Hsel.
  2: { intros p Hp _. unfold accepted. rewrite Forall_forall in Hall.
       rewrite (Hall _ (@item_in_data _ _ (proj1 (proj2 Hc)) Hp)). reflexivity. }
  rewrite Hbox, (@absolute_box_full _ _ Haxc Hpos). cbn [bind].
  unfold Domain_replace. cbn [firstn skipn app]. rewrite app_nil_r.
  unfold Domain_make at 1.
  change (map fst (domain (conn_field c))) with (dims (domain (conn_field c))).
  rewrite (proj1 (proj1 Hc)). cbn [bind].
  replace (has_flag (kind c) MODIFY_STRUCTURE) with true.
  2: { cbn [kind NdArrayConnectivityField_ConnectivityField].
       destruct (NdArrayConnectivityField_kind_cases c) as [-> | [-> | ->]]; reflexivity. }
  cbn [negb]. unfold remap_gather.
  unfold Domain_make at 1.
  change (map fst (domain (conn_field c))) with (dims (domain (conn_field c))).
  rewrite (proj1 (proj1 Hc)). cbn [bind].
  cbn [connectivity_domain NdArrayConnectivityField_ConnectivityField].
  rewrite Domain_eqb_refl. cbn [negb bind connectivity_ndarray asarray].
  rewrite Hs. cbn [bind].
  change (connectivity_ndarray c) with (Ok (_ndarray (conn_field c))). cbn [bind].
  set (arr := _ndarray (conn_field c)) in *.
  assert (Hwrap : forall x, In x (data arr) -> wrap (dtype arr) (x - s) = x - s /\ 0 <= x - s < e - s).
  { intros x Hx. rewrite Forall_forall in Hall. specialize (Hall x Hx).
    destruct r as [a b]; simpl in *; subst. apply UnitRange_contains_Int in Hall.
    unfold range_len in Hn, Hsmall; simpl in Hn, Hsmall.
    split; [|lia].
    assert (0 <= x - s < 2 ^ 31) by lia.
    unfold field_dtype in Hdt. fold arr in Hdt.
    destruct Hdt as [-> | ->]; unfold wrap.
    - rewrite Z.mod_small; lia.
    - rewrite Z.mod_small; lia. }
  assert (Hshf : shape (_ndarray f) = [range_len r]).
  { rewrite (axes_shape Haxf), Hdf. reflexivity. }
  unfold take, ndarray_of. rewrite Hshf. cbn [nth_error].
  match goal with
  | |- context [forallb ?g ?l] => replace (forallb g l) with true
  end.
  2: { symmetry. apply forallb_forall. intros j Hj. unfold array_map in Hj; simpl in Hj.
       apply in_map_iff in Hj as (x & <- & Hx). destruct (Hwrap x Hx) as [-> Hb].
       apply andb_true_iff. split; [apply Z.leb_le | apply Z.ltb_lt]; lia. }
  cbn [bind firstn skipn app shape array_map]. rewrite app_nil_r.
  change (field_dtype f) with (dtype (_ndarray f)).
  match goal with
  | |- context [from_array (build ?dt ?sh ?F) ?dom (Some ?dt)] =>
      change (from_array (build dt sh F) dom (Some dt))
        with (from_array (build dt sh F) dom (Some (dtype (build dt sh F))));
      rewrite (from_array_same_dtype (build dt sh F) dom)
  end.
  rewrite from_array_Ok; [| exact Hlenc | apply (axes_shape_matches Haxc)].
  eexists. split; [reflexivity|]. split; [reflexivity|]. split; [reflexivity|].
  intros p Hp. simpl in Hp. unfold field_at at 1. simpl.
  assert (Hin : in_bounds (shape arr) (relative (domain (conn_field c)) p)).
  { rewrite (axes_shape Haxc). apply relative_in_bounds; [exact Hp | apply (axes_finite Haxc)]. }
  rewrite item_build by exact Hin.
  rewrite <- (in_bounds_length Hin), firstn_all, skipn_all.
  rewrite (item_array_map _ _ (proj1 (proj2 Hc)) Hin).
  destruct (Hwrap _ (@item_in_data _ _ (proj1 (proj2 Hc)) Hin)) as [-> Hb].
  match goal with
  | |- context [if ?b then _ else _] =>
      replace b with false by (symmetry; apply Z.ltb_ge; lia)
  end.
  unfold field_at. rewrite Hdf. unfold relative. simpl. rewrite Hs. reflexivity.
Qed.

Lemma remap_gathers_witness :
  exists h,
    remap field_A conn_V_to_I = Ok h
    /\ domain h = domain (conn_field conn_V_to_I)
    /\ field_dtype h = field_dtype field_A
    /\ forall p, in_domain (domain h) p ->
         field_at h p = field_at field_A [field_at (conn_field conn_V_to_I) p].
Proof.
  apply (@remap_gathers field_A conn_V_to_I (UnitRange_make (Int 0) (Int 5))).
  - repeat split; try reflexivity. repeat constructor.
  - reflexivity.
  - repeat split; try reflexivity. repeat constructor.
  - discriminate.
  - repeat constructor.
  - reflexivity.
  - right. reflexivity.
  - repeat constructor.
  - vm_compute. discriminate.
Defined.

(** ** The inverse image and its memo *)






(** X15: restricting a connectivity is restricting its field.  Whenever
    [NdArrayField.restrict] succeeds on the field of a connectivity, the
    [restrict] of the connectivity returns that restricted field together
    with the codomain and the skip value it had, whatever the memo holds. *)
Theorem conn_restrict_as_field self cache index f' :
  cache_consistent self cache ->
  restrict (conn_field self) index = Ok f' ->
  exists cache',
    conn_restrict self cache index =
    Ok (mkNdArrayConnectivityField f' (_codomain self) (_skip_value self), cache')
    /\ cache_consistent self cache'.
Proof.
  intros Hcons H.
  assert (Hc : conn_restrict_compute self index =
               Ok (mkNdArrayConnectivityField f' (_codomain self) (_skip_value self))).
  { unfold restrict in H. unfold conn_restrict_compute.
    destruct (_slice (conn_field self) index) as [[new_domain buffer_slice]|]; cbn [bind] in *;
      [|discriminate].
    destruct (getitem (ndarray_of (conn_field self)) buffer_slice) as [buf|]; cbn [bind asarray] in *;
      [|discriminate].
    apply from_array_Ok_inv in H. subst f'. reflexivity. }
  pose proof (conn_restrict_memo index Hcons) as Hmemo. rewrite Hc in Hmemo. exact Hmemo.
Qed.

Lemma conn_restrict_as_field_witness :
  exists cache',
    conn_restrict conn_V_to_I empty_cache (Domain_as_index [named_range V_dim 1 3]) =
    Ok (mkNdArrayConnectivityField
          (mkNdArrayField [named_range V_dim 1 3] (mk_ndarray Int64DType [2%nat] [0; 2]))
          (_codomain conn_V_to_I) (_skip_value conn_V_to_I), cache')
    /\ cache_consistent conn_V_to_I cache'.
Proof.
  apply (@conn_restrict_as_field conn_V_to_I empty_cache
           (Domain_as_index [named_range V_dim 1 3])).
  - apply cache_consistent_empty.
  - reflexivity.
Defined.

(** ** Broadcasting to more dimensions *)

Lemma find_dim_mem {A} dim (l : list (Dimension * A)) :
  match find_dim dim l with Some _ => true | None => false end = mem_dim dim (map fst l).
Proof.
  induction l as [|[d x] l IH]; simpl; [reflexivity|].
  destruct (Dimension_eqb d dim) eqn:E.
  - apply Dimension_eqb_eq in E. subst d. rewrite Dimension_eqb_refl. reflexivity.
  - replace (Dimension_eqb dim d) with false.
    + simpl. rewrite <- IH. destruct (find_dim dim l); reflexivity.
    + symmetry. destruct (Dimension_eqb dim d) eqn:E'; [|reflexivity].
      apply Dimension_eqb_eq in E'. subst d. rewrite Dimension_eqb_refl in E. discriminate.
Qed.

Section Broadcast.
Variable d : Domain.
Hypothesis Hnd : NoDup (dims d).

Lemma broadcast_index_plan new : forall (d' : Domain) sh',
  length d' = length sh' ->
  filter (fun dim => mem_dim dim (dims d)) new = dims d' ->
  index_plan sh'
    (map (fun dim => match find_dim dim d with
                     | Some _ => slice None None
                     | None => newaxis
                     end) new)
  = Ok (broadcast_sels (dims d) new sh').
Proof.
  induction new as [|dim new IH]; intros d' sh' Hlen Hfil; simpl in *.
  - destruct d'; [|discriminate]. destruct sh'; [reflexivity | discriminate].
  - pose proof (find_dim_mem dim d) as Hm. fold (dims d) in Hm.
    destruct (mem_dim dim (dims d)) eqn:E.
    + destruct (find_dim dim d) as [pos|]; [|discriminate].
      destruct d' as [|nr d']; [discriminate|]. destruct sh' as [|n sh']; [discriminate|].
      simpl in *. injection Hfil as _ Hfil.
      rewrite (IH d' sh') by (congruence || assumption). simpl.
      rewrite Z.sub_0_r, Nat2Z.id. reflexivity.
    + destruct (find_dim dim d) as [pos|]; [discriminate|].
      rewrite (IH d' sh' Hlen Hfil). reflexivity.
Qed.

Lemma broadcast_plan_shape new sh :
  plan_shape (broadcast_sels (dims d) new sh) = broadcast_shape (dims d) new sh.
Proof.
  revert sh; induction new as [|dim new IH]; intros sh; simpl; [reflexivity|].
  destruct (mem_dim dim (dims d)); simpl; rewrite IH; reflexivity.
Qed.

Lemma broadcast_plan_source new : forall sh idx,
  length idx = length new ->
  plan_source (broadcast_sels (dims d) new sh) idx = drop_new (dims d) new idx.
Proof.
  induction new as [|dim new IH]; intros sh [|i idx] Hlen; simpl in *; try discriminate;
    [reflexivity|].
  destruct (mem_dim dim (dims d)); simpl; rewrite IH by congruence; reflexivity.
Qed.

Lemma broadcast_shape_matches new : forall (d' : Domain) sh',
  (forall nr, In nr d' -> In nr d) ->
  Forall2 (fun r n => n = 1%nat \/ UnitRange_len r = Ok n) (ranges d') sh' ->
  filter (fun dim => mem_dim dim (dims d)) new = dims d' ->
  Forall2 (fun r n => n = 1%nat \/ UnitRange_len r = Ok n)
    (map (fun dim => broadcast_range d dim) new)
    (broadcast_shape (dims d) new sh').
Proof.
  induction new as [|dim new IH]; intros d' sh' Hsuf Hax Hfil; simpl in *; [constructor|].
  destruct (mem_dim dim (dims d)) eqn:E.
  - destruct d' as [|[dim' r] d']; [discriminate|].
    simpl in *. injection Hfil as <- Hfil.
    inversion Hax as [|? n ? sh'' Hrn Hax']; subst. simpl.
    constructor.
    + rewrite (@broadcast_range_in d dim r Hnd (Hsuf _ (or_introl eq_refl))). exact Hrn.
    + apply (IH d'); auto.
  - constructor; [left; reflexivity|]. apply (IH d'); assumption.
Qed.
End Broadcast.

Lemma dims_eqb_eq l1 l2 : dims_eqb l1 l2 = true -> l1 = l2.
Proof.
  unfold dims_eqb. rewrite andb_true_iff. intros [Hlen Hall]. apply Nat.eqb_eq in Hlen.
  revert l2 Hlen Hall; induction l1 as [|x l1 IH]; intros [|y l2] Hlen Hall; simpl in *;
    try discriminate; [reflexivity|].
  apply andb_true_iff in Hall as [Hxy Hall]. apply Dimension_eqb_eq in Hxy. subst y.
  f_equal. apply IH; [congruence | exact Hall].
Qed.

Lemma broadcast_range_own (d : Domain) :
  NoDup (dims d) -> map (fun dim => (dim, broadcast_range d dim)) (dims d) = d.
Proof.
  intros Hnd. unfold dims. rewrite map_map.
  transitivity (map (fun nr : NamedRange => nr) d); [|apply map_id].
  apply map_ext_in. intros [dim r] Hin. simpl.
  rewrite (@broadcast_range_in d dim r Hnd Hin). reflexivity.
Qed.

Lemma broadcast_shape_own old l : forall sh,
  (forall x, In x l -> mem_dim x old = true) -> length sh = length l ->
  broadcast_shape old l sh = sh.
Proof.
  induction l as [|x l IH]; intros [|n sh] Hall Hlen; simpl in *; try discriminate;
    [reflexivity|].
  rewrite (Hall x (or_introl eq_refl)), IH by (auto || congruence). reflexivity.
Qed.

Lemma drop_new_own old l : forall idx,
  (forall x, In x l -> mem_dim x old = true) -> length idx = length l ->
  drop_new old l idx = idx.
Proof.
  induction l as [|x l IH]; intros [|i idx] Hall Hlen; simpl in *; try discriminate;
    [reflexivity|].
  rewrite (Hall x (or_introl eq_refl)), IH by (auto || congruence). reflexivity.
Qed.

Lemma length_broadcast_shape old new : forall sh,
  length (broadcast_shape old new sh) = length new.
Proof.
  induction new as [|x new IH]; intros sh; simpl; [reflexivity|].
  destruct (mem_dim x old); simpl; rewrite IH; reflexivity.
Qed.

(** X16: [_broadcast] to dimensions that hold the dimensions of the field in
    their order.  The result has exactly the new dimensions; a dimension of
    the field keeps its range and its axis, every added dimension gets the
    infinite range and an axis of length one; and the entry at a position is
    the entry of the field at that position without the coordinates of the
    added dimensions. *)
Theorem _broadcast_adds_axes f new :
  wf_field f -> unique_dims new = true ->
  filter (fun dim => mem_dim dim (dims (domain f))) new = dims (domain f) ->
  exists h,
    _broadcast f new = Ok h
    /\ domain h = map (fun dim => (dim, broadcast_range (domain f) dim)) new
    /\ shape (_ndarray h) = broadcast_shape (dims (domain f)) new (shape (_ndarray f))
    /\ field_dtype h = field_dtype f
    /\ forall idx, in_bounds (shape (_ndarray h)) idx ->
         item (_ndarray h) idx = item (_ndarray f) (drop_new (dims (domain f)) new idx).
Proof.
  intros ((Hu & Hc) & Hwa & Hlen & Hsm) Hunew Hfil.
  assert (Hnd : NoDup (dims (domain f))) by (apply unique_dims_NoDup; exact Hu).
  unfold _broadcast. destruct (dims_eqb (dims (domain f)) new) eqn:E.
  - apply dims_eqb_eq in E. subst new. exists f.
    assert (Hmem : forall x, In x (dims (domain f)) -> mem_dim x (dims (domain f)) = true)
      by (intros x Hx; apply mem_dim_true_iff; exact Hx).
    assert (Hl : length (shape (_ndarray f)) = length (dims (domain f)))
      by (unfold dims; rewrite length_map; symmetry; exact Hlen).
    split; [reflexivity | split; [symmetry; apply broadcast_range_own; exact Hnd|]].
    split; [symmetry; apply broadcast_shape_own; assumption | split; [reflexivity|]].
    intros idx Hin. rewrite drop_new_own; [reflexivity | exact Hmem |].
    rewrite (in_bounds_length Hin). exact Hl.
  - unfold getitem, ndarray_of.
    rewrite (@broadcast_index_plan (domain f) new (domain f) (shape (_ndarray f)) Hlen Hfil).
    cbn [bind].
    replace (map (fun dim => match find_dim dim (domain f) with
                             | Some pos => (dim, nth pos (ranges (domain f)) UnitRange_infinite)
                             | None => (dim, UnitRange_infinite)
                             end) new)
      with (map (fun dim => (dim, broadcast_range (domain f) dim)) new).
    2: { apply map_ext. intros dim. unfold broadcast_range, dim_index.
         destruct (find_dim dim (domain f)); reflexivity. }
    unfold Domain_make. rewrite map_map. cbn [fst]. rewrite map_id, Hunew. cbn [bind].
    rewrite broadcast_plan_shape.
    rewrite from_array_Ok.
    + eexists. split; [reflexivity|]. split; [reflexivity|]. split; [reflexivity|].
      split; [reflexivity|].
      intros idx Hin. simpl in Hin |- *. rewrite item_build by exact Hin.
      rewrite broadcast_plan_source; [reflexivity|].
      rewrite (in_bounds_length Hin). apply length_broadcast_shape.
    + simpl. rewrite length_map, length_broadcast_shape. reflexivity.
    + simpl. apply Forall2_shape_matches.
      unfold ranges at 1. rewrite map_map. cbn [snd].
      apply (@broadcast_shape_matches (domain f) Hnd new (domain f)); auto.
      apply shape_matches_Forall2; [|exact Hsm].
      unfold ranges. rewrite length_map. exact Hlen.
Qed.

Lemma _broadcast_adds_axes_witness :
  exists h,
    _broadcast field_A [I_dim; K_dim] = Ok h
    /\ domain h = map (fun dim => (dim, broadcast_range (domain field_A) dim)) [I_dim; K_dim]
    /\ shape (_ndarray h)
       = broadcast_shape (dims (domain field_A)) [I_dim; K_dim] (shape (_ndarray field_A))
    /\ field_dtype h = field_dtype field_A
    /\ forall idx, in_bounds (shape (_ndarray h)) idx ->
         item (_ndarray h) idx
         = item (_ndarray field_A) (drop_new (dims (domain field_A)) [I_dim; K_dim] idx).
Proof.
  apply (@_broadcast_adds_axes field_A [I_dim; K_dim]).
  - repeat split; try reflexivity. repeat constructor.
  - reflexivity.
  - reflexivity.
Defined.

(** ** The [where] builtin *)




(** ** Kind, scalars and conversion *)


(** X19: [as_scalar] on a well-formed field.  A field without dimensions
    holds exactly one entry, and [as_scalar] returns it; a field with at
    least one dimension is refused with a value error.  In particular a
    scalar made into a field by [_to_field] is read back by [as_scalar]. *)
Theorem as_scalar_reads_entry f dt z :
  wf_field f ->
  (domain f = [] -> as_scalar f = Ok (item (_ndarray f) []))
  /\ (domain f <> [] ->
      as_scalar f = Raise (ValueError "'as_scalar' is only valid on 0-dimensional 'Field's."))
  /\ (exists g,
        _to_field (VScalar (mkScalar dt z)) = Ok g /\ domain g = [] /\ as_scalar g = Ok z).
Proof.
  intros (Hd & Hwa & Hlen & Hsm). split; [|split].
  - intros Hdom. unfold as_scalar, ndim. rewrite Hdom. cbn [length Nat.eqb negb].
    rewrite Hdom in Hlen. simpl in Hlen.
    unfold ndarray_item, ndarray_of, item.
    destruct (shape (_ndarray f)) eqn:Hsh; [|discriminate].
    unfold wf_ndarray in Hwa. rewrite Hsh in Hwa. simpl in Hwa.
    destruct (data (_ndarray f)) as [|x [|y l]]; try discriminate. reflexivity.
  - intros Hdom. unfold as_scalar, ndim.
    destruct (domain f); [congruence | reflexivity].
  - eexists. split; [reflexivity|]. split; reflexivity.
Qed.

Lemma as_scalar_reads_entry_witness :
  (domain (mkNdArrayField [] (mk_ndarray Int64DType [] [7])) = [] ->
   as_scalar (mkNdArrayField [] (mk_ndarray Int64DType [] [7]))
   = Ok (item (_ndarray (mkNdArrayField [] (mk_ndarray Int64DType [] [7]))) []))
  /\ (domain (mkNdArrayField [] (mk_ndarray Int64DType [] [7])) <> [] ->
      as_scalar (mkNdArrayField [] (mk_ndarray Int64DType [] [7]))
      = Raise (ValueError "'as_scalar' is only valid on 0-dimensional 'Field's."))
  /\ (exists g,
        _to_field (VScalar (mkScalar Int64DType 7)) = Ok g /\ domain g = []
        /\ as_scalar g = Ok 7).
Proof.
  apply (@as_scalar_reads_entry (mkNdArrayField [] (mk_ndarray Int64DType [] [7]))
           Int64DType 7).
  repeat split; try reflexivity; constructor.
Defined.

(** X20: [astype] on a field of integers or booleans.  The result lives on
    the domain of the field, has the dtype asked for, and its entries are
    those of the field converted to that dtype (unchanged when the field has
    the dtype already); converting the result once more changes nothing,
    and a scalar is refused with an assertion. *)
Theorem _astype_converts f t s :
  wf_field f ->
  DType_eqb (field_dtype f) Float64DType = false -> DType_eqb t Float64DType = false ->
  (exists h,
     _astype (VField f) t = Ok h
     /\ domain h = domain f
     /\ field_dtype h = t
     /\ shape (_ndarray h) = shape (_ndarray f)
     /\ data (_ndarray h)
        = (if DType_eqb (field_dtype f) t then data (_ndarray f)
           else map (wrap t) (data (_ndarray f)))
     /\ _astype (VField h) t = Ok h)
  /\ _astype (VScalar s) t =
     Raise (AssertionError "This is the NdArrayField implementation of 'fbuiltins.astype'.").
Proof.
  intros (Hd & Hwa & Hlen & Hsm) Hff Hft. split; [|reflexivity].
  unfold _astype, astype, asarray, ndarray_of, field_dtype in *.
  destruct (DType_eqb (dtype (_ndarray f)) t) eqn:E.
  - apply DType_eqb_eq in E. cbn [bind].
    rewrite from_array_Ok by assumption.
    eexists. split; [reflexivity|]. cbn [_ndarray domain _domain].
    rewrite E, DType_eqb_refl. cbn [bind]. rewrite <- E.
    rewrite from_array_Ok by assumption.
    repeat split.
  - assert (Hconv : match dtype (_ndarray f), t with
                    | Float64DType, _ | _, Float64DType =>
                        Raise (Unmodelled "conversion from or to a floating-point dtype")
                    | _, _ => Ok (mk_ndarray t (shape (_ndarray f))
                                    (map (wrap t) (data (_ndarray f))))
                    end
                    = Ok (mk_ndarray t (shape (_ndarray f)) (map (wrap t) (data (_ndarray f))))).
    { destruct (dtype (_ndarray f)), t; try reflexivity; discriminate. }
    rewrite Hconv. cbn [bind].
    rewrite from_array_Ok by assumption.
    eexists. split; [reflexivity|]. cbn [_ndarray domain _domain dtype shape data].
    rewrite DType_eqb_refl. cbn [bind].
    rewrite from_array_Ok by assumption.
    repeat split.
Qed.

Lemma _astype_converts_witness :
  (exists h,
     _astype (VField field_A) Int32DType = Ok h
     /\ domain h = domain field_A
     /\ field_dtype h = Int32DType
     /\ shape (_ndarray h) = shape (_ndarray field_A)
     /\ data (_ndarray h)
        = (if DType_eqb (field_dtype field_A) Int32DType then data (_ndarray field_A)
           else map (wrap Int32DType) (data (_ndarray field_A)))
     /\ _astype (VField h) Int32DType = Ok h)
  /\ _astype (VScalar (mkScalar Int64DType 1)) Int32DType =
     Raise (AssertionError "This is the NdArrayField implementation of 'fbuiltins.astype'.").
Proof.
  apply (@_astype_converts field_A Int32DType (mkScalar Int64DType 1)).
  - repeat split; try reflexivity. repeat constructor.
  - reflexivity.
  - reflexivity.
Defined.

(** ** The origin of a field *)

(** X21: the origin of a field with a finite domain is what turns an
    absolute index into an array position: [__gt_origin__] returns one entry
    per dimension, and [_compute_slice] maps the absolute index [i] of a
    dimension to the array position [i] plus the origin of that dimension.
    On a domain with an infinite range both fail with an assertion. *)
Theorem origin_locates_index f :
  (Domain_is_finite (domain f) = true ->
   exists origin,
     __gt_origin__ f = Ok origin
     /\ length origin = ndim (domain f)
     /\ forall pos i, (pos < ndim (domain f))%nat ->
          _compute_slice (an_index i) (domain f) pos = Ok (int_index (i + nth pos origin 0)))
  /\ (Domain_is_finite (domain f) = false ->
      __gt_origin__ f = Raise (AssertionError "")
      /\ forall pos i, _compute_slice (an_index i) (domain f) pos = Raise (AssertionError "")).
Proof.
  split.
  - intros Hfin. unfold __gt_origin__, domain in *. rewrite Hfin. cbn [assert bind].
    unfold Domain_is_finite in Hfin. rewrite forallb_forall in Hfin.
    assert (Hstart : forall r, In r (ranges (_domain f)) -> exists s, start r = Int s).
    { intros r Hr. specialize (Hfin r Hr).
      unfold UnitRange_is_finite, is_left_finite in Hfin.
      destruct (start r); try discriminate. eauto. }
    exists (map (fun r => match start r with Int s => - s | _ => 0 end) (ranges (_domain f))).
    split; [|split].
    + apply mapM_Ok. intros r Hr. destruct (Hstart r Hr) as (s & ->). reflexivity.
    + rewrite length_map. unfold ranges, ndim. apply length_map.
    + intros pos i Hpos. unfold _compute_slice.
      replace (Domain_is_finite (_domain f)) with true
        by (symmetry; unfold Domain_is_finite; apply forallb_forall; exact Hfin).
      cbn [assert bind].
      assert (Hlt : (pos < length (ranges (_domain f)))%nat)
        by (unfold ranges, ndim in *; rewrite length_map; exact Hpos).
      rewrite (nth_map_lt (fun r => match start r with Int s => - s | _ => 0 end)
                 (ranges (_domain f)) 0 UnitRange_infinite Hlt).
      destruct (Hstart (nth pos (ranges (_domain f)) UnitRange_infinite)
                  (nth_In _ _ Hlt)) as (s & ->).
      reflexivity.
  - intros Hfin. unfold __gt_origin__, _compute_slice, domain in *. rewrite Hfin.
    split; reflexivity.
Qed.

Lemma origin_locates_index_witness :
  (Domain_is_finite (domain field_B) = true ->
   exists origin,
     __gt_origin__ field_B = Ok origin
     /\ length origin = ndim (domain field_B)
     /\ forall pos i, (pos < ndim (domain field_B))%nat ->
          _compute_slice (an_index i) (domain field_B) pos
          = Ok (int_index (i + nth pos origin 0)))
  /\ (Domain_is_finite (domain field_B) = false ->
      __gt_origin__ field_B = Raise (AssertionError "")
      /\ forall pos i,
           _compute_slice (an_index i) (domain field_B) pos = Raise (AssertionError "")).
Proof. apply (@origin_locates_index field_B). Defined.

(** ** Restriction to a position of one dimension *)

Lemma sub_domain_other_dim (d : Domain) dim x :
  ~ In dim (dims d) -> sub_domain d [(dim, x)] = Ok d.
Proof.
  induction d as [|[d' r'] d IH]; intros Hn; cbn [sub_domain find_dim]; [reflexivity|].
  destruct (Dimension_eqb dim d') eqn:E.
  - apply Dimension_eqb_eq in E. subst. exfalso. apply Hn. left. reflexivity.
  - cbn [option_map]. rewrite IH by (intros H; apply Hn; right; exact H). reflexivity.
Qed.

Lemma sub_domain_point (pre post : Domain) dim r i :
  ~ In dim (dims pre) -> ~ In dim (dims post) ->
  sub_domain (pre ++ (dim, r) :: post) [(dim, an_index i)]
  = if UnitRange_contains r i then Ok (pre ++ post) else Raise IndexOutOfBounds.
Proof.
  intros Hpre Hpost. induction pre as [|[d' r'] pre IH]; cbn [app sub_domain find_dim].
  - rewrite Dimension_eqb_refl. cbn [nth_error].
    destruct (UnitRange_contains r i); [|reflexivity].
    apply sub_domain_other_dim, Hpost.
  - destruct (Dimension_eqb dim d') eqn:E.
    + apply Dimension_eqb_eq in E. subst. exfalso. apply Hpre. left. reflexivity.
    + cbn [option_map]. rewrite IH by (intros H; apply Hpre; right; exact H).
      destruct (UnitRange_contains r i); reflexivity.
Qed.

Lemma combine_seq_In {A} (l : list A) : forall a pos x,
  In (pos, x) (combine (seq a (length l)) l) ->
  nth_error l (pos - a) = Some x /\ (a <= pos)%nat.
Proof.
  induction l as [|y l IH]; simpl; intros a pos x H; [contradiction|].
  destruct H as [H|H].
  - injection H as <- <-. rewrite Nat.sub_diag. split; [reflexivity | lia].
  - apply IH in H. destruct H as (H & Hle).
    replace (pos - a)%nat with (S (pos - S a)) by lia. split; [exact H | lia].
Qed.

Lemma map_snd_combine_seq {A B} (h : A -> B) (l : list A) : forall a,
  map (fun pd : nat * A => h (snd pd)) (combine (seq a (length l)) l) = map h l.
Proof. induction l as [|y l IH]; intros a; simpl; [reflexivity | rewrite IH; reflexivity]. Qed.

Lemma _get_slices_point (pre post : Domain) dim r s i :
  NoDup (dims (pre ++ (dim, r) :: post)) ->
  Domain_is_finite (pre ++ (dim, r) :: post) = true ->
  start r = Int s ->
  _get_slices_from_domain_slice (pre ++ (dim, r) :: post) [(dim, an_index i)]
  = Ok (map (fun d => if Dimension_eqb dim d then int_index (i - s) else slice None None)
          (dims (pre ++ (dim, r) :: post))).
Proof.
  intros Hnd Hfin Hs. unfold _get_slices_from_domain_slice.
  set (dom := pre ++ (dim, r) :: post) in *.
  rewrite <- (map_snd_combine_seq
                (fun d => if Dimension_eqb dim d then int_index (i - s) else slice None None)
                (dims dom) 0).
  replace (length dom) with (length (dims dom)) by (unfold dims; apply length_map).
  apply mapM_Ok. intros [pos d] Hin. cbn [find_dim snd].
  destruct (Dimension_eqb dim d) eqn:E; [|reflexivity].
  apply Dimension_eqb_eq in E. subst d. cbn [nth_error].
  apply combine_seq_In in Hin. destruct Hin as (Hin & _). rewrite Nat.sub_0_r in Hin.
  unfold _compute_slice. rewrite Hfin. cbn [assert bind].
  assert (Hpos : pos = length pre).
  { apply (proj1 (NoDup_nth_error _) Hnd).
    - apply nth_error_Some. congruence.
    - rewrite Hin. unfold dom, dims. rewrite map_app.
      rewrite nth_error_app2 by (rewrite length_map; lia).
      rewrite length_map, Nat.sub_diag. reflexivity. }
  subst pos. unfold dom, ranges. rewrite map_app, app_nth2 by (rewrite length_map; lia).
  rewrite length_map, Nat.sub_diag. cbn [map nth snd]. rewrite Hs. reflexivity.
Qed.

Lemma index_plan_keep dim j (ds : list Dimension) : forall sh,
  ~ In dim ds -> length ds = length sh ->
  index_plan sh (map (fun d => if Dimension_eqb dim d then int_index j else slice None None) ds)
  = Ok (map (fun n => Sel 0 n) sh).
Proof.
  induction ds as [|d ds IH]; intros [|n sh] Hn Hl; simpl in Hl; try discriminate;
    [reflexivity|].
  cbn [map index_plan]. destruct (Dimension_eqb dim d) eqn:E.
  - apply Dimension_eqb_eq in E. subst. exfalso. apply Hn. left. reflexivity.
  - rewrite IH; [|intros H; apply Hn; right; exact H | congruence].
    cbn [bind]. unfold slice_bound. rewrite Z.sub_0_r, Nat2Z.id. reflexivity.
Qed.

Lemma index_plan_point dim j (dpre dpost : list Dimension) n shpost : forall shpre,
  ~ In dim dpre -> ~ In dim dpost ->
  length dpre = length shpre -> length dpost = length shpost ->
  0 <= j < Z.of_nat n ->
  index_plan (shpre ++ n :: shpost)
    (map (fun d => if Dimension_eqb dim d then int_index j else slice None None)
       (dpre ++ dim :: dpost))
  = Ok (map (fun n => Sel 0 n) shpre ++ Pick (Z.to_nat j) :: map (fun n => Sel 0 n) shpost).
Proof.
  induction dpre as [|d dpre IH]; intros [|m shpre] Hpre Hpost Hl1 Hl2 Hj; simpl in Hl1;
    try discriminate; cbn [app map index_plan].
  - rewrite Dimension_eqb_refl.
    replace (j <? 0) with false by (symmetry; apply Z.ltb_ge; lia).
    replace ((0 <=? j) && (j <? Z.of_nat n)) with true
      by (symmetry; apply andb_true_iff; split; [apply Z.leb_le | apply Z.ltb_lt]; lia).
    rewrite (@index_plan_keep dim j dpost shpost Hpost Hl2). reflexivity.
  - destruct (Dimension_eqb dim d) eqn:E.
    + apply Dimension_eqb_eq in E. subst. exfalso. apply Hpre. left. reflexivity.
    + rewrite IH; [|intros H; apply Hpre; right; exact H | exact Hpost | congruence
                   | exact Hl2 | exact Hj].
      cbn [bind]. unfold slice_bound. rewrite Z.sub_0_r, Nat2Z.id. reflexivity.
Qed.

Lemma plan_shape_point shpre j shpost :
  plan_shape (map (fun n => Sel 0 n) shpre ++ Pick j :: map (fun n => Sel 0 n) shpost)
  = shpre ++ shpost.
Proof.
  induction shpre as [|n shpre IH]; simpl.
  - rewrite (plan_shape_Sel (fun n => n)). apply map_id.
  - rewrite IH. reflexivity.
Qed.

Lemma plan_source_point shpost j ipost : forall shpre ipre,
  length ipre = length shpre -> length ipost = length shpost ->
  plan_source (map (fun n => Sel 0 n) shpre ++ Pick j :: map (fun n => Sel 0 n) shpost)
    (ipre ++ ipost)
  = ipre ++ j :: ipost.
Proof.
  induction shpre as [|n shpre IH]; intros [|k ipre] H1 H2; simpl in H1; try discriminate;
    simpl.
  - rewrite (plan_source_Sel (fun n => n)) by exact H2. reflexivity.
  - rewrite IH by congruence. reflexivity.
Qed.

Lemma relative_app (d1 d2 : Domain) p2 : forall p1,
  length p1 = length d1 ->
  relative (d1 ++ d2) (p1 ++ p2) = relative d1 p1 ++ relative d2 p2.
Proof.
  induction d1 as [|[d r] d1 IH]; intros [|k p1] H; simpl in H; try discriminate;
    [reflexivity|].
  unfold relative in *. simpl. f_equal. apply IH. congruence.
Qed.

Lemma in_domain_length (d : Domain) p : in_domain d p -> length p = length d.
Proof.
  intros H. apply Forall2_length in H. unfold ranges in H. rewrite length_map in H.
  symmetry. exact H.
Qed.

Lemma restrict_at_position f (pre : Domain) dim r (post : Domain) i :
  exact_field f -> domain f = pre ++ (dim, r) :: post ->
  (UnitRange_contains r i = true ->
   exists f',
     restrict f [(dim, an_index i)] = Ok f'
     /\ domain f' = pre ++ post
     /\ exact_field f'
     /\ field_dtype f' = field_dtype f
     /\ forall p1 p2, in_domain pre p1 -> in_domain post p2 ->
          field_at f' (p1 ++ p2) = field_at f (p1 ++ i :: p2))
  /\ (UnitRange_contains r i = false ->
      restrict f [(dim, an_index i)] = Raise IndexOutOfBounds).
Proof.
  intros Hex Hdom.
  pose proof (exact_field_axes Hex) as Hax.
  destruct Hex as ((Hu & Hc) & Hwa & Hsh).
  assert (Hnd : NoDup (dims (domain f))) by (apply unique_dims_NoDup; exact Hu).
  assert (Hfin : Domain_is_finite (domain f) = true).
  { unfold Domain_is_finite. apply forallb_forall. intros r' Hr'.
    pose proof (axes_finite Hax) as Hf. rewrite Forall_forall in Hf.
    destruct (Hf r' Hr') as (s' & e' & Hs' & He').
    unfold UnitRange_is_finite, is_left_finite, is_right_finite. rewrite Hs', He'.
    reflexivity. }
  rewrite Hdom in Hnd, Hfin, Hax, Hc.
  assert (Hnd' : NoDup (dims pre ++ dim :: dims post))
    by (unfold dims in *; rewrite map_app in Hnd; exact Hnd).
  pose proof (NoDup_remove _ _ _ Hnd') as (Hnd2 & Hnotin).
  assert (Hpre : ~ In dim (dims pre)) by (intros H; apply Hnotin, in_or_app; left; exact H).
  assert (Hpost : ~ In dim (dims post)) by (intros H; apply Hnotin, in_or_app; right; exact H).
  unfold ranges in Hax, Hc. rewrite map_app in Hax, Hc. cbn [map snd] in Hax, Hc.
  apply Forall2_app_inv_l in Hax. destruct Hax as (shpre & shrest & Hax1 & Hax2 & Hshape).
  inversion Hax2 as [|? n ? shpost Hrn Hax3]; subst shrest.
  destruct Hrn as (s & e & Hs & He & Hse & Hn).
  assert (Hcont : UnitRange_contains r i = true <-> s <= i < e).
  { destruct r as [a b]. simpl in Hs, He. subst a b. apply UnitRange_contains_Int. }
  assert (Hax' : Forall2 axis_of (ranges (pre ++ post)) (shpre ++ shpost)).
  { unfold ranges. rewrite map_app. apply Forall2_app; assumption. }
  split; intros Hi.
  2:{ unfold restrict, _slice. rewrite Hdom.
      rewrite (@sub_domain_point pre post dim r i Hpre Hpost), Hi. reflexivity. }
  assert (Hres : restrict f [(dim, an_index i)]
                 = Ok (mkNdArrayField (pre ++ post)
                         (build (dtype (_ndarray f)) (shpre ++ shpost)
                            (fun ridx =>
                               item (_ndarray f)
                                 (plan_source
                                    (map (fun n => Sel 0 n) shpre
                                     ++ Pick (Z.to_nat (i - s)) :: map (fun n => Sel 0 n) shpost)
                                    ridx))))).
  { unfold restrict, _slice. rewrite Hdom.
    rewrite (@sub_domain_point pre post dim r i Hpre Hpost), Hi.
    apply Hcont in Hi. cbn [bind].
    rewrite (@_get_slices_point pre post dim r s i Hnd Hfin Hs). cbn [bind].
    unfold getitem, ndarray_of. rewrite Hshape.
    replace (dims (pre ++ (dim, r) :: post)) with (dims pre ++ dim :: dims post)
      by (unfold dims; rewrite map_app; reflexivity).
    rewrite (@index_plan_point dim (i - s) (dims pre) (dims post) n shpost shpre Hpre Hpost).
    2:{ apply Forall2_length in Hax1. unfold dims. rewrite !length_map in *. exact Hax1. }
    2:{ apply Forall2_length in Hax3. unfold dims. rewrite !length_map in *. exact Hax3. }
    2:{ lia. }
    cbn [bind asarray]. rewrite plan_shape_point.
    apply from_array_Ok.
    - cbn [shape build]. rewrite !length_app.
      apply Forall2_length in Hax1. apply Forall2_length in Hax3.
      rewrite !length_map in *. lia.
    - apply axes_shape_matches. exact Hax'. }
  eexists. split; [exact Hres|]. split; [reflexivity|]. split; [|split; [reflexivity|]].
  - split; [|split].
    + split.
      * apply unique_dims_NoDup. unfold domain, dims. cbn [_domain].
        rewrite map_app. exact Hnd2.
      * unfold domain, ranges. cbn [_domain]. rewrite map_app.
        apply Forall_app in Hc. destruct Hc as (Hc1 & Hc2).
        apply Forall_app. split; [exact Hc1 | inversion Hc2; assumption].
    + apply wf_build.
    + apply axes_Domain_shape. exact Hax'.
  - intros p1 p2 Hp1 Hp2. unfold field_at. rewrite Hdom.
    unfold domain. cbn [_domain _ndarray].
    pose proof (in_domain_length Hp1) as Hl1.
    rewrite (@relative_app pre post p2 p1 Hl1).
    rewrite (@relative_app pre ((dim, r) :: post) (i :: p2) p1 Hl1).
    rewrite item_build.
    + rewrite plan_source_point.
      * unfold relative at 4. cbn [ranges map snd combine fst]. rewrite Hs. reflexivity.
      * unfold relative. rewrite length_map, length_combine.
        apply Forall2_length in Hax1. apply Forall2_length in Hp1.
        unfold ranges in *. rewrite !length_map in *. lia.
      * unfold relative. rewrite length_map, length_combine.
        apply Forall2_length in Hax3. apply Forall2_length in Hp2.
        rewrite <- Hp2, Nat.min_id. exact Hax3.
    + rewrite <- (@relative_app pre post p2 p1 Hl1).
      rewrite (axes_shape Hax').
      apply relative_in_bounds.
      * unfold ranges. rewrite map_app. apply Forall2_app; assumption.
      * apply (axes_finite Hax').
Qed.

(** X22: indexing a field at a position of one dimension, [f[dim(i)]].
    When [i] lies in the range of the dimension the result is the field over
    the other dimensions, with the same dtype, whose value at a point is the
    value of the field at that point with [i] put in for the dimension; when
    [i] lies outside the range the restriction fails as out of bounds. *)
Theorem restrict_point f (pre : Domain) dim r (post : Domain) i :
  exact_field f -> domain f = pre ++ (dim, r) :: post ->
  (UnitRange_contains r i = true ->
   exists f',
     restrict f [(dim, an_index i)] = Ok f'
     /\ domain f' = pre ++ post
     /\ exact_field f'
     /\ field_dtype f' = field_dtype f
     /\ forall p1 p2, in_domain pre p1 -> in_domain post p2 ->
          field_at f' (p1 ++ p2) = field_at f (p1 ++ i :: p2))
  /\ (UnitRange_contains r i = false ->
      restrict f [(dim, an_index i)] = Raise IndexOutOfBounds).
Proof. apply restrict_at_position. Qed.

Lemma restrict_point_witness :
  (UnitRange_contains (snd (named_range I_dim 0 5)) 1 = true ->
   exists f',
     restrict field_A [(I_dim, an_index 1)] = Ok f'
     /\ domain f' = []
     /\ exact_field f'
     /\ field_dtype f' = field_dtype field_A
     /\ forall p1 p2, in_domain [] p1 -> in_domain [] p2 ->
          field_at f' (p1 ++ p2) = field_at field_A (p1 ++ 1 :: p2))
  /\ (UnitRange_contains (snd (named_range I_dim 0 5)) 1 = false ->
      restrict field_A [(I_dim, an_index 1)] = Raise IndexOutOfBounds).
Proof.
  apply (@restrict_point field_A [] I_dim (snd (named_range I_dim 0 5)) [] 1).
  - repeat split; try reflexivity. repeat constructor.
  - reflexivity.
Defined.

(** ** Neighbor sums *)

Lemma xp_sum_axis_Ok a axis n :
  DType_eqb (dtype a) Float64DType = false -> nth_error (shape a) axis = Some n ->
  xp_sum_axis a axis
  = Ok (build Int64DType (remove_at axis (shape a))
          (fun idx =>
             wrap Int64DType
               (fold_left Z.add (map (fun j => item a (insert_at axis j idx)) (seq 0 n)) 0))).
Proof.
  intros Hf Hn. unfold xp_sum_axis, reduce_axis, float_guard. rewrite Hf, Hn. cbn [bind].
  rewrite (mapM_Ok _ (fun idx =>
             fold_left Z.add (map (fun j => item a (insert_at axis j idx)) (seq 0 n)) 0))
    by (intros; reflexivity).
  cbn [bind]. unfold build. rewrite map_map. reflexivity.
Qed.

Lemma xp_where_scalar cond x dt z :
  shape x = shape cond ->
  xp_where cond x (scalar_array (mkScalar dt z))
  = Ok (build (result_type [dtype x; dt]) (shape cond)
          (fun idx =>
             wrap (result_type [dtype x; dt])
               (ternary (fun c x y => if truth c then x else y)
                  [item cond (broadcast_index (shape cond) idx);
                   item x (broadcast_index (shape x) idx);
                   item (scalar_array (mkScalar dt z)) (broadcast_index [] idx)]))).
Proof.
  intros Hsh. unfold xp_where, xp_getattr. simpl. unfold broadcast_apply. simpl.
  change (broadcast_shapes [] []) with (Ok (@nil nat)). cbn [bind].
  rewrite broadcast_shapes_nil_r. cbn [bind]. rewrite Hsh, broadcast_shapes_same.
  reflexivity.
Qed.

Lemma result_type_same dt : result_type [dt; dt] = dt.
Proof. destruct dt; reflexivity. Qed.

Lemma neighbor_sum_of_rows current table V rv axis rk f :
  exact_field f -> domain f = [(V, rv); (axis, rk)] ->
  dim_kind axis = LOCAL -> dim_kind V <> LOCAL ->
  field_dtype f <> Float64DType ->
  lookup_offset (dim_value axis) current = Ok (NeighborTableOffsetProvider table V) ->
  wf_ndarray table -> shape table = shape (_ndarray f) ->
  exists g,
    neighbor_sum (Some current) f axis = Ok g
    /\ domain g = [(V, rv)]
    /\ exact_field g
    /\ field_dtype g = Int64DType
    /\ forall i, (i < range_len rv)%nat ->
         item (_ndarray g) [i]
         = wrap Int64DType
             (neighbor_row_sum (field_dtype f) table (_ndarray f) i (range_len rk)).
Proof.
  intros Hex Hdom Hloc HV Hflt Hlook Hwt Hsht.
  pose proof (exact_field_axes Hex) as Hax.
  destruct Hex as ((Hu & Hc) & Hwa & Hsh).
  rewrite Hdom in Hax, Hu, Hc. cbn [ranges map snd] in Hax.
  remember (shape (_ndarray f)) as sh eqn:Hshape.
  inversion Hax as [|r1 nv rs1 sh1 Hav Hax1 E1 E2].
  inversion Hax1 as [|r2 k rs2 sh2 Hak Hax2 E3 E4].
  inversion Hax2. subst. clear Hax Hax1 Hax2.
  assert (Hnv : nv = range_len rv) by (symmetry; apply (proj2 (axis_of_len Hav))).
  assert (Hk : k = range_len rk) by (symmetry; apply (proj2 (axis_of_len Hak))).
  assert (HVax : Dimension_eqb V axis = false).
  { destruct (Dimension_eqb V axis) eqn:E; [|reflexivity].
    apply Dimension_eqb_eq in E. subst V. contradiction. }
  assert (HaxV : Dimension_eqb axis V = false).
  { destruct (Dimension_eqb axis V) eqn:E; [|reflexivity].
    apply Dimension_eqb_eq in E. subst V. contradiction. }
  assert (HVk : DimensionKind_eqb (dim_kind V) LOCAL = false)
    by (destruct (dim_kind V); try reflexivity; contradiction).
  assert (Hdt : DType_eqb (dtype (_ndarray f)) Float64DType = false).
  { destruct (DType_eqb (dtype (_ndarray f)) Float64DType) eqn:E; [|reflexivity].
    apply DType_eqb_eq in E. contradiction. }
  unfold neighbor_sum, _make_reduction. rewrite Hdom, Hloc.
  cbn [DimensionKind_eqb negb dims map fst mem_dim existsb filter dim_index find_dim].
  rewrite !Dimension_eqb_refl, HVax, HaxV, HVk, Hloc.
  cbn [orb negb DimensionKind_eqb length option_map].
  change (1 <? 1)%nat with false. cbv iota.
  rewrite Hlook. cbn [bind]. rewrite Dimension_eqb_refl. cbn [orb].
  unfold Domain_make. cbn [map fst unique_dims mem_dim existsb negb andb bind].
  unfold getitem. rewrite Hsht, <- E2. cbn [index_plan bind]. unfold slice_bound.
  rewrite !Z.sub_0_r, !Nat2Z.id. change (Z.to_nat 0) with 0%nat.
  cbn [plan_shape asarray bind map].
  rewrite xp_where_scalar by (symmetry; exact E2). cbn [bind].
  unfold xp_reduction. simpl (String.eqb _ _). cbv iota.
  rewrite (@xp_sum_axis_Ok _ 1%nat k);
    [| cbn [dtype build]; unfold field_dtype; rewrite result_type_same; exact Hdt
     | reflexivity].
  cbn [bind shape build array_map remove_at firstn skipn app].
  rewrite from_array_Ok; [| reflexivity | apply axes_shape_matches; repeat constructor; exact Hav].
  eexists. split; [reflexivity|]. split; [reflexivity|]. split; [|split; [reflexivity|]].
  - split; [|split].
    + split; [reflexivity|]. inversion Hc; subst. constructor; [assumption | constructor].
    + apply wf_build.
    + apply axes_Domain_shape. repeat constructor. exact Hav.
  - intros i Hi. rewrite <- Hk. rewrite <- Hnv in Hi. clear Hnv Hk.
    cbn [_ndarray]. rewrite item_build by (repeat constructor; lia).
    f_equal. unfold neighbor_row_sum. f_equal. apply map_ext_in. intros j Hj.
    apply in_seq in Hj.
    assert (Hb : in_bounds [nv; k] [i; j]) by (repeat constructor; lia).
    unfold insert_at. cbn [firstn skipn app].
    rewrite item_build by exact Hb.
    unfold field_dtype. rewrite result_type_same. f_equal.
    cbn [ternary]. rewrite item_scalar_array.
    unfold ndarray_of. rewrite <- E2.
    rewrite (broadcast_index_in_bounds Hb).
    rewrite item_array_map; [| apply wf_build | exact Hb].
    rewrite item_build by exact Hb. rewrite truth_Z_of_bool.
    cbn [plan_source Nat.add].
    destruct (item table [i; j] =? _DEFAULT_SKIP_VALUE); reflexivity.
Qed.

(** X23: [neighbor_sum] of a field over a horizontal dimension and a local
    dimension, with a neighbor table of the shape of the field.  The result
    is the field over the horizontal dimension alone, of dtype [int64], whose
    entry for row [i] is the sum of the entries of row [i] of the field, an
    entry counting as [0] where the table holds the skip value. *)
Theorem neighbor_sum_rows current table V rv axis rk f :
  exact_field f -> domain f = [(V, rv); (axis, rk)] ->
  dim_kind axis = LOCAL -> dim_kind V <> LOCAL ->
  field_dtype f <> Float64DType ->
  lookup_offset (dim_value axis) current = Ok (NeighborTableOffsetProvider table V) ->
  wf_ndarray table -> shape table = shape (_ndarray f) ->
  exists g,
    neighbor_sum (Some current) f axis = Ok g
    /\ domain g = [(V, rv)]
    /\ exact_field g
    /\ field_dtype g = Int64DType
    /\ forall i, (i < range_len rv)%nat ->
         item (_ndarray g) [i]
         = wrap Int64DType
             (neighbor_row_sum (field_dtype f) table (_ndarray f) i (range_len rk)).
Proof. apply neighbor_sum_of_rows. Qed.


Lemma neighbor_sum_rows_witness :
  exists g,
    neighbor_sum (Some [("V2E", NeighborTableOffsetProvider neighbor_table Vertex)])
      neighbor_field V2E = Ok g
    /\ domain g = [named_range Vertex 0 2]
    /\ exact_field g
    /\ field_dtype g = Int64DType
    /\ forall i, (i < range_len (snd (named_range Vertex 0 2)))%nat ->
         item (_ndarray g) [i]
         = wrap Int64DType
             (neighbor_row_sum (field_dtype neighbor_field) neighbor_table
                (_ndarray neighbor_field) i (range_len (snd (named_range V2E 0 2)))).
Proof.
  apply (@neighbor_sum_rows
           [("V2E", NeighborTableOffsetProvider neighbor_table Vertex)]
           neighbor_table Vertex (snd (named_range Vertex 0 2)) V2E
           (snd (named_range V2E 0 2)) neighbor_field).
  - repeat split; try reflexivity. repeat constructor.
  - reflexivity.
  - reflexivity.
  - discriminate.
  - discriminate.
  - reflexivity.
  - reflexivity.
  - reflexivity.
Defined.

(** ** Concatenation of two fields along their dimension *)

Lemma intersection_of_two_ranges dim a b s c :
  a < b -> s < c ->
  domain_intersection [[(dim, mkUnitRange (Int a) (Int b))]; [(dim, mkUnitRange (Int s) (Int c))]]
  = [(dim, UnitRange_make (Int (Z.max a s)) (Int (Z.min b c)))].
Proof.
  intros Hab Hsc. unfold domain_intersection. cbn [fold_left].
  rewrite Domain_and_nil_l.
  2:{ split; [reflexivity|]. cbn [ranges map snd]. constructor; [|constructor].
      unfold UnitRange_canonical, UnitRange_make. cbn [start stop Bound_ltb]. replace (a <? b) with true by (symmetry; apply Z.ltb_lt; lia).
      reflexivity. }
  rewrite Domain_and_same_dims; [| repeat constructor; intros [] | reflexivity].
  cbn [combine map fst snd]. unfold UnitRange_and, Bound_max, Bound_min.
  cbn [start stop Bound_ltb].
  do 2 f_equal. f_equal.
  - destruct (a <? s) eqn:E; [apply Z.ltb_lt in E | apply Z.ltb_ge in E]; f_equal; lia.
  - destruct (c <? b) eqn:E; [apply Z.ltb_lt in E | apply Z.ltb_ge in E]; f_equal; lia.
Qed.

Lemma _concat_of_two dim a b s c f1 f2 :
  exact_field f1 -> exact_field f2 ->
  domain f1 = [(dim, mkUnitRange (Int a) (Int b))] ->
  domain f2 = [(dim, mkUnitRange (Int s) (Int c))] ->
  a < b -> s < c -> field_dtype f2 = field_dtype f1 ->
  (s = b ->
   exists g,
     _concat [f1; f2] dim = Ok g
     /\ domain g = [(dim, mkUnitRange (Int a) (Int c))]
     /\ exact_field g
     /\ field_dtype g = field_dtype f1
     /\ (forall v, a <= v < b -> field_at g [v] = field_at f1 [v])
     /\ (forall v, b <= v < c -> field_at g [v] = field_at f2 [v]))
  /\ (b < s \/ c <= a ->
      _concat [f1; f2] dim
      = Raise (NonContiguousDomain "Cannot concatenate fields along the dimension."))
  /\ (Z.max a s < Z.min b c ->
      _concat [f1; f2] dim = Raise (ValueError "Fields to concatenate must not overlap.")).
Proof.
  intros Hex1 Hex2 Hd1 Hd2 Hab Hsc Hdt.
  destruct Hex1 as (_ & Hw1 & Hs1). destruct Hex2 as (_ & Hw2 & Hs2).
  pose proof Hs1 as Hs1'. pose proof Hs2 as Hs2'.
  rewrite Hd1 in Hs1'. rewrite Hd2 in Hs2'.
  injection Hs1' as Hsh1. injection Hs2' as Hsh2.
  assert (Hint : domain_intersection (map domain [f1; f2])
                 = [(dim, UnitRange_make (Int (Z.max a s)) (Int (Z.min b c)))]).
  { cbn [map]. rewrite Hd1, Hd2. apply intersection_of_two_ranges; assumption. }
  assert (Hstack : _stack_domains (map domain [f1; f2]) dim
                   = Ok (if s =? b then Some [(dim, mkUnitRange (Int a) (Int c))] else None)).
  { cbn [map]. rewrite Hd1, Hd2. unfold _stack_domains.
    cbn [stack_domains_loop]. unfold Domain_get, dim_index.
    cbn [find_dim]. rewrite Dimension_eqb_refl.
    cbn [nth_error bind snd start stop Bound_eqb]. rewrite Z.eqb_refl.
    cbn [negb nth_error bind snd start stop Bound_eqb].
    destruct (s =? b) eqn:E; cbn [negb bind]; [|reflexivity].
    apply Z.eqb_eq in E. unfold Domain_replace, Domain_make.
    cbn [firstn skipn app map fst unique_dims mem_dim existsb negb andb].
    unfold UnitRange_make. cbn [Bound_ltb].
    replace (a <? c) with true by (symmetry; apply Z.ltb_lt; lia). reflexivity. }
  unfold _concat. cbn [length]. change (1 <? 2)%nat with true. cbn [andb].
  rewrite Hint, Hstack.
  unfold Domain_is_empty, UnitRange_make. cbn [ranges map snd existsb Bound_ltb].
  split; [|split].
  - intros ->. rewrite Z.max_r, Z.min_l by lia. rewrite Z.ltb_irrefl, Z.eqb_refl.
    cbn [UnitRange_is_empty start stop orb negb bind].
    change (0 <=? 0) with true. cbn [negb orb].
    cbn [_get_nd_array_class existsb orb bind mapM]. rewrite Hs1, Hs2. cbn [bind].
    unfold ndarray_of. rewrite !broadcast_to_same by assumption. cbn [bind].
    unfold dim_index. cbn [find_dim]. rewrite Dimension_eqb_refl.
    unfold concatenate. cbn [forallb fold_right map]. rewrite <- !Hsh1, <- !Hsh2.
    cbn [nth_error forallb remove_at firstn skipn app length Nat.eqb andb fold_right nth map].
    unfold list_nat_eqb.
    destruct (list_eq_dec Nat.eq_dec (@nil nat) []) as [_|Hne]; [|congruence].
    cbn [andb bind].
    replace (Z.to_nat (b - a) + (Z.to_nat (c - b) + 0))%nat with (Z.to_nat (c - a)) by lia.
    unfold field_dtype in Hdt. rewrite Hdt, result_type_same.
    rewrite from_array_Ok;
      [| reflexivity
       | apply axes_shape_matches; repeat constructor; exists a, c; repeat split; lia].
    eexists. split; [reflexivity|]. split; [reflexivity|].
    split; [|split; [reflexivity|split]].
    + split; [|split].
      * split; [reflexivity|]. cbn [domain _domain ranges map snd].
        constructor; [|constructor]. unfold UnitRange_canonical, UnitRange_make.
        cbn [start stop Bound_ltb].
        replace (a <? c) with true by (symmetry; apply Z.ltb_lt; lia). reflexivity.
      * apply wf_build.
      * reflexivity.
    + intros v Hv. unfold field_at, relative. rewrite Hd1.
      cbn [domain _domain _ndarray ranges map snd combine fst start].
      rewrite item_build by (repeat constructor; lia).
      cbn [concat_item]. rewrite <- Hsh1. cbn [nth].
      replace (Z.to_nat (v - a) <? Z.to_nat (b - a))%nat with true
        by (symmetry; apply Nat.ltb_lt; lia).
      reflexivity.
    + intros v Hv. unfold field_at, relative. rewrite Hd2.
      cbn [domain _domain _ndarray ranges map snd combine fst start].
      rewrite item_build by (repeat constructor; lia).
      cbn [concat_item]. rewrite <- Hsh1, <- Hsh2. cbn [nth firstn skipn app].
      replace (Z.to_nat (v - a) <? Z.to_nat (b - a))%nat with false
        by (symmetry; apply Nat.ltb_ge; lia).
      replace (Z.to_nat (v - a) - Z.to_nat (b - a))%nat with (Z.to_nat (v - b)) by lia.
      replace (Z.to_nat (v - b) <? Z.to_nat (c - b))%nat with true
        by (symmetry; apply Nat.ltb_lt; lia).
      reflexivity.
  - intros Hgap.
    replace (Z.max a s <? Z.min b c) with false by (symmetry; apply Z.ltb_ge; lia).
    replace (s =? b) with false by (symmetry; apply Z.eqb_neq; lia).
    reflexivity.
  - intros Hov. replace (Z.max a s <? Z.min b c) with true by (symmetry; apply Z.ltb_lt; lia).
    cbn [UnitRange_is_empty start stop orb negb].
    replace (Z.min b c <=? Z.max a s) with false by (symmetry; apply Z.leb_gt; lia).
    reflexivity.
Qed.

(** X24: [_concat] of two one-dimensional fields of the same dtype over the
    ranges [[a, b)] and [[s, c)] of one dimension, both not empty.  When the
    second starts where the first stops the result is the field over
    [[a, c)] that has the values of the first on [[a, b)] and of the second
    on [[b, c)]; when the two ranges leave a gap or come in the wrong order
    the call fails as not contiguous; when they overlap it fails with the
    error on overlapping fields. *)
Theorem _concat_two_fields dim a b s c f1 f2 :
  exact_field f1 -> exact_field f2 ->
  domain f1 = [(dim, mkUnitRange (Int a) (Int b))] ->
  domain f2 = [(dim, mkUnitRange (Int s) (Int c))] ->
  a < b -> s < c -> field_dtype f2 = field_dtype f1 ->
  (s = b ->
   exists g,
     _concat [f1; f2] dim = Ok g
     /\ domain g = [(dim, mkUnitRange (Int a) (Int c))]
     /\ exact_field g
     /\ field_dtype g = field_dtype f1
     /\ (forall v, a <= v < b -> field_at g [v] = field_at f1 [v])
     /\ (forall v, b <= v < c -> field_at g [v] = field_at f2 [v]))
  /\ (b < s \/ c <= a ->
      _concat [f1; f2] dim
      = Raise (NonContiguousDomain "Cannot concatenate fields along the dimension."))
  /\ (Z.max a s < Z.min b c ->
      _concat [f1; f2] dim = Raise (ValueError "Fields to concatenate must not overlap.")).
Proof. apply _concat_of_two. Qed.

Lemma _concat_two_fields_witness :
  (2 = 2 ->
   exists g,
     _concat [field_0_2; field_2_3] I_dim = Ok g
     /\ domain g = [(I_dim, mkUnitRange (Int 0) (Int 3))]
     /\ exact_field g
     /\ field_dtype g = field_dtype field_0_2
     /\ (forall v, 0 <= v < 2 -> field_at g [v] = field_at field_0_2 [v])
     /\ (forall v, 2 <= v < 3 -> field_at g [v] = field_at field_2_3 [v]))
  /\ (2 < 2 \/ 3 <= 0 ->
      _concat [field_0_2; field_2_3] I_dim
      = Raise (NonContiguousDomain "Cannot concatenate fields along the dimension."))
  /\ (Z.max 0 2 < Z.min 2 3 ->
      _concat [field_0_2; field_2_3] I_dim
      = Raise (ValueError "Fields to concatenate must not overlap.")).
Proof.
  apply (@_concat_two_fields I_dim 0 2 2 3 field_0_2 field_2_3).
  - repeat split; try reflexivity. repeat constructor.
  - repeat split; try reflexivity. repeat constructor.
  - reflexivity.
  - reflexivity.
  - lia.
  - lia.
  - reflexivity.
Defined.

(** ** [concat_where] on fields that cover the mask *)

Lemma Forall2_In_left {A B} (R : A -> B -> Prop) l l' x :
  Forall2 R l l' -> In x l -> exists y, In y l' /\ R x y.
Proof.
  induction 1 as [|a b l l' Hab _ IH]; intros Hin; [contradiction|].
  destruct Hin as [<- | Hin].
  - exists b. split; [left; reflexivity | exact Hab].
  - destruct (IH Hin) as (y & Hy & Hxy). exists y. split; [right; exact Hy | exact Hxy].
Qed.

Section Tiling.

Variable D : Dimension.
Variable dt : DType.

(** A piece: an exact field of dtype [dt] that lives on a run. *)
Let piece (g : NdArrayField) (vr : bool * UnitRange) : Prop :=
  exact_field g /\ field_dtype g = dt /\ domain g = [(D, snd vr)].

Lemma piece_shape g v A e :
  piece g (v, mkUnitRange (Int A) (Int e)) -> shape (_ndarray g) = [Z.to_nat (e - A)].
Proof.
  intros ((_ & _ & Hsh) & _ & Hd). rewrite Hd in Hsh. cbn in Hsh.
  injection Hsh as Hsh. symmetry. exact Hsh.
Qed.

Lemma runs_from_head k v r runs n :
  runs_from k ((v, r) :: runs) n ->
  exists e, r = mkUnitRange (Int k) (Int e) /\ k < e /\ runs_from e runs n.
Proof.
  intros (Hs & e & He & Hlt & Hr). exists e. destruct r as [a b]. simpl in Hs, He.
  subst a b. auto.
Qed.

Lemma runs_from_le runs : forall k n, runs_from k runs n -> k <= n.
Proof.
  induction runs as [|[v r] runs IH]; intros k n H; simpl in H; [lia|].
  destruct H as (_ & e & _ & Hlt & Hr). apply IH in Hr. lia.
Qed.

Lemma stack_domains_loop_tiling gs runs :
  Forall2 piece gs runs -> forall A B, runs_from A runs B ->
  stack_domains_loop (map domain gs) D (Int A) = Ok (Some (Int B)).
Proof.
  induction 1 as [|g [v r] gs runs Hp _ IH]; intros A B Hr.
  - simpl in Hr. subst. reflexivity.
  - apply runs_from_head in Hr. destruct Hr as (e & -> & Hlt & Hr).
    destruct Hp as (_ & _ & Hd). cbn [map stack_domains_loop]. rewrite Hd.
    unfold Domain_get, dim_index. cbn [find_dim snd]. rewrite Dimension_eqb_refl.
    cbn [nth_error bind snd start stop Bound_eqb]. rewrite Z.eqb_refl. cbn [negb].
    apply IH. exact Hr.
Qed.

Lemma intersection_stays_empty gs runs :
  Forall2 piece gs runs -> forall A B, runs_from A runs B ->
  fold_left Domain_and (map domain gs) [(D, mkUnitRange (Int 0) (Int 0))]
  = [(D, mkUnitRange (Int 0) (Int 0))].
Proof.
  induction 1 as [|g [v r] gs runs Hp _ IH]; intros A B Hr; [reflexivity|].
  apply runs_from_head in Hr. destruct Hr as (e & -> & Hlt & Hr).
  destruct Hp as (_ & _ & Hd). cbn [map fold_left]. rewrite Hd.
  rewrite Domain_and_same_dims; [| repeat constructor; intros [] | reflexivity].
  cbn [combine map fst snd]. unfold UnitRange_and, Bound_max, Bound_min, UnitRange_make.
  cbn [start stop Bound_ltb].
  replace (Bound_ltb (if 0 <? A then Int A else Int 0) (if e <? 0 then Int e else Int 0))
    with false.
  - apply (IH e B Hr).
  - symmetry. destruct (0 <? A) eqn:E1; destruct (e <? 0) eqn:E2; cbn [Bound_ltb];
      apply Z.ltb_ge; try apply Z.ltb_lt in E1; try apply Z.ltb_lt in E2;
      try apply Z.ltb_ge in E1; try apply Z.ltb_ge in E2; lia.
Qed.

Lemma tiling_does_not_overlap g1 g2 gs runs A B :
  Forall2 piece (g1 :: g2 :: gs) runs -> runs_from A runs B ->
  Domain_is_empty (domain_intersection (map domain (g1 :: g2 :: gs))) = true.
Proof.
  intros Hall Hr.
  inversion Hall as [|? [v1 r1] ? runs1 Hp1 Hall1]; subst.
  inversion Hall1 as [|? [v2 r2] ? runs2 Hp2 Hall2]; subst.
  apply runs_from_head in Hr. destruct Hr as (e1 & -> & Hlt1 & Hr).
  apply runs_from_head in Hr. destruct Hr as (e2 & -> & Hlt2 & Hr).
  unfold domain_intersection. cbn [map fold_left].
  destruct Hp1 as (((Hu1 & Hc1) & _) & _ & Hd1). destruct Hp2 as (_ & _ & Hd2).
  cbn [snd] in Hd1, Hd2.
  rewrite Domain_and_nil_l by (split; assumption).
  rewrite Hd1, Hd2.
  rewrite Domain_and_same_dims; [| repeat constructor; intros [] | reflexivity].
  cbn [combine map fst snd]. unfold UnitRange_and, Bound_max, Bound_min, UnitRange_make.
  cbn [start stop Bound_ltb].
  replace (A <? e1) with true by (symmetry; apply Z.ltb_lt; lia).
  replace (e2 <? e1) with false by (symmetry; apply Z.ltb_ge; lia).
  cbn [Bound_ltb]. rewrite Z.ltb_irrefl.
  rewrite (intersection_stays_empty Hall2 _ _ Hr). reflexivity.
Qed.

Lemma tiling_arrays gs runs :
  Forall2 piece gs runs ->
  mapM (fun f => sh <- Domain_shape (domain f) ;; broadcast_to (ndarray_of f) sh) gs
  = Ok (map _ndarray gs).
Proof.
  intros Hall. apply mapM_Ok. intros g Hin.
  destruct (@Forall2_In_left _ _ _ _ _ g Hall Hin) as (vr & _ & (_ & Hw & Hsh) & _).
  rewrite Hsh. cbn [bind]. apply broadcast_to_same. exact Hw.
Qed.

Lemma tiling_result_type gs runs :
  Forall2 piece gs runs -> gs <> [] -> result_type (map dtype (map _ndarray gs)) = dt.
Proof.
  induction 1 as [|g vr gs runs (_ & Hdt & _) Hall IH]; intros Hne; [congruence|].
  cbn [map result_type fold_right]. unfold field_dtype in Hdt. rewrite Hdt.
  destruct gs as [|g' gs].
  - simpl. destruct dt; reflexivity.
  - unfold result_type in IH. rewrite IH by discriminate. rewrite Nat.ltb_irrefl. reflexivity.
Qed.

Lemma tiling_total gs runs :
  Forall2 piece gs runs -> forall A B, runs_from A runs B ->
  fold_right (fun b acc => (nth 0 (shape b) 0 + acc)%nat) 0%nat (map _ndarray gs)
  = Z.to_nat (B - A).
Proof.
  induction 1 as [|g [v r] gs runs Hp _ IH]; intros A B Hr.
  - simpl in Hr. subst. rewrite Z.sub_diag. reflexivity.
  - apply runs_from_head in Hr. destruct Hr as (e & -> & Hlt & Hr).
    cbn [map fold_right]. rewrite (piece_shape Hp), (IH e B Hr). cbn [nth].
    pose proof (runs_from_le _ _ _ Hr). lia.
Qed.

Lemma tiling_shapes_fit n0 gs runs :
  Forall2 piece gs runs -> forall A B, runs_from A runs B ->
  forallb (fun b => list_nat_eqb (remove_at 0 (shape b)) (remove_at 0 [n0])
                    && (length (shape b) =? length [n0])%nat)
          (map _ndarray gs) = true.
Proof.
  induction 1 as [|g [v r] gs runs Hp _ IH]; intros A B Hr; [reflexivity|].
  apply runs_from_head in Hr. destruct Hr as (e & -> & Hlt & Hr).
  cbn [map forallb]. rewrite (piece_shape Hp), (IH e B Hr).
  unfold list_nat_eqb, remove_at. cbn [firstn skipn app length Nat.eqb].
  destruct (list_eq_dec Nat.eq_dec (@nil nat) []) as [_|Hne]; [reflexivity | congruence].
Qed.

Lemma tiling_values gs runs :
  Forall2 piece gs runs -> forall A B, runs_from A runs B ->
  forall g v, In g gs -> in_domain (domain g) [v] ->
  A <= v < B
  /\ concat_item (map _ndarray gs) 0 [Z.to_nat (v - A)] = field_at g [v].
Proof.
  induction 1 as [|g1 [v1 r] gs runs Hp Hall IH]; intros A B Hr g v Hin Hv; [contradiction|].
  apply runs_from_head in Hr. destruct Hr as (e & -> & Hlt & Hr).
  pose proof (runs_from_le _ _ _ Hr) as Hle.
  pose proof (piece_shape Hp) as Hsh1.
  cbn [map concat_item]. rewrite Hsh1. cbn [nth firstn skipn app].
  destruct Hin as [<- | Hin].
  - destruct Hp as (_ & _ & Hd). unfold field_at, relative. rewrite Hd in *.
    inversion Hv as [|? ? ? ? Hc _]; subst. cbn [snd] in Hc.
    apply UnitRange_contains_Int in Hc.
    cbn [ranges map snd combine fst start].
    replace (Z.to_nat (v - A) <? Z.to_nat (e - A))%nat with true
      by (symmetry; apply Nat.ltb_lt; lia).
    split; [lia | reflexivity].
  - destruct (IH e B Hr g v Hin Hv) as (Hrange & Hval).
    replace (Z.to_nat (v - A) <? Z.to_nat (e - A))%nat with false
      by (symmetry; apply Nat.ltb_ge; lia).
    replace (Z.to_nat (v - A) - Z.to_nat (e - A))%nat with (Z.to_nat (v - e)) by lia.
    split; [lia | exact Hval].
Qed.

Lemma _concat_tiling g0 gs runs A B :
  Forall2 piece (g0 :: gs) runs -> runs_from A runs B ->
  exists g,
    _concat (g0 :: gs) D = Ok g
    /\ domain g = [(D, mkUnitRange (Int A) (Int B))]
    /\ exact_field g
    /\ field_dtype g = dt
    /\ forall gi v, In gi (g0 :: gs) -> in_domain (domain gi) [v] ->
         field_at g [v] = field_at gi [v].
Proof.
  intros Hall Hr.
  assert (HAB : A < B).
  { inversion Hall as [|? [v1 r1] ? runs1 Hp1 Hall1]; subst.
    apply runs_from_head in Hr. destruct Hr as (e & -> & Hlt & Hr).
    pose proof (runs_from_le _ _ _ Hr). lia. }
  assert (Hov : (1 <? length (g0 :: gs))%nat
                && negb (Domain_is_empty (domain_intersection (map domain (g0 :: gs))))
                = false).
  { destruct gs as [|g1 gs]; [reflexivity|].
    rewrite (@tiling_does_not_overlap _ _ _ _ _ _ Hall Hr). apply andb_false_r. }
  assert (Hstack : _stack_domains (map domain (g0 :: gs)) D
                   = Ok (Some [(D, mkUnitRange (Int A) (Int B))])).
  { pose proof (stack_domains_loop_tiling Hall _ _ Hr) as Hloop.
    inversion Hall as [|? [v1 r1] ? runs1 Hp1 Hall1]; subst.
    pose proof Hr as Hr'.
    apply runs_from_head in Hr'. destruct Hr' as (e & -> & Hlt & Hr').
    destruct Hp1 as (_ & _ & Hd). cbn [snd] in Hd.
    unfold _stack_domains. cbn [map] in *. rewrite Hd in *.
    unfold Domain_get at 1. unfold dim_index. cbn [find_dim]. rewrite Dimension_eqb_refl.
    cbn [nth_error bind snd start].
    rewrite Hloop. cbn [bind].
    unfold Domain_replace, Domain_make.
    cbn [firstn skipn app map fst unique_dims mem_dim existsb negb andb bind].
    rewrite UnitRange_make_lt by exact HAB. reflexivity. }
  assert (Hsh0 : exists n0, shape (_ndarray g0) = [n0]).
  { inversion Hall as [|? [v1 r1] ? runs1 Hp1 Hall1]; subst.
    apply runs_from_head in Hr. destruct Hr as (e & -> & Hlt & Hr).
    eexists. apply (piece_shape Hp1). }
  destruct Hsh0 as (n0 & Hsh0).
  assert (Hfit : forallb
                   (fun b => list_nat_eqb (remove_at 0 (shape b)) (remove_at 0 [n0])
                             && (length (shape b) =? length [n0])%nat)
                   (map _ndarray gs) = true).
  { inversion Hall as [|? [v1 r1] ? runs1 Hp1 Hall1]; subst.
    apply runs_from_head in Hr. destruct Hr as (e & -> & Hlt & Hr).
    apply (tiling_shapes_fit n0 Hall1 _ _ Hr). }
  unfold _concat. rewrite Hov, Hstack. cbn [bind].
  cbn [_get_nd_array_class map existsb orb bind].
  rewrite (tiling_arrays Hall). cbn [bind].
  unfold dim_index. cbn [find_dim]. rewrite Dimension_eqb_refl.
  unfold concatenate. cbn [map]. rewrite Hsh0. cbn [nth_error].
  rewrite Hfit.
  assert (Hrt := tiling_result_type Hall ltac:(discriminate)).
  assert (Htot := tiling_total Hall _ _ Hr).
  cbn [map] in Hrt, Htot. rewrite Hrt, Htot.
  cbn [firstn skipn app bind].
  rewrite from_array_Ok;
    [| reflexivity
     | apply axes_shape_matches; repeat constructor; exists A, B; repeat split; lia].
  eexists. split; [reflexivity|]. split; [reflexivity|].
  split; [|split; [reflexivity|]].
  - split; [|split].
    + split; [reflexivity|]. cbn [domain _domain ranges map snd].
      constructor; [|constructor]. unfold UnitRange_canonical. cbn [start stop].
      apply UnitRange_make_lt. exact HAB.
    + apply wf_build.
    + reflexivity.
  - intros gi v Hin Hv.
    destruct (tiling_values Hall _ _ Hr gi Hin Hv) as (Hrange & Hval).
    unfold field_at at 1. unfold relative.
    cbn [domain _domain _ndarray ranges map snd combine fst start].
    rewrite item_build by (repeat constructor; lia).
    exact Hval.
Qed.

End Tiling.

Lemma sub_domain_of_refl (d : Domain) :
  Forall UnitRange_canonical (ranges d) -> sub_domain_of d d.
Proof.
  intros Hc. split; [reflexivity | split; [exact Hc|]].
  clear Hc. induction (ranges d) as [|r rs IH]; constructor;
    [apply UnitRange_le_refl | exact IH].
Qed.

(** The last step of [_intersect_fields] on a field and its own domain is
    the restriction of the field to its domain. *)
Lemma intersect_own_domain f :
  exact_field f ->
  exists f',
    (slices <- _get_slices_from_domain_slice (domain f) (Domain_as_index (domain f)) ;;
     sliced <- getitem (ndarray_of f) slices ;;
     from_array sliced (domain f) None) = Ok f'
    /\ domain f' = domain f
    /\ exact_field f'
    /\ field_dtype f' = field_dtype f
    /\ forall p, in_domain (domain f) p -> field_at f' p = field_at f p.
Proof.
  intros Hex.
  assert (Hsub : sub_domain_of (domain f) (domain f))
    by (apply sub_domain_of_refl; apply Hex).
  destruct (restrict_to_sub_domain Hex Hsub) as (f' & Hr & Hd & Hex' & Hdt & Hval).
  exists f'. split; [|auto].
  unfold restrict, _slice in Hr.
  rewrite sub_domain_sub in Hr;
    [| apply unique_dims_NoDup; apply Hex | exact Hsub].
  cbn [bind] in Hr.
  destruct (_get_slices_from_domain_slice (domain f) (Domain_as_index (domain f)))
    as [slices|e]; cbn [bind] in *; [|discriminate].
  destruct (getitem (ndarray_of f) slices) as [sliced|e]; cbn [bind asarray] in *;
    [exact Hr | discriminate].
Qed.

Lemma mapM_exists {A B} (f : A -> result B) (P : A -> B -> Prop) l :
  (forall x, In x l -> exists y, f x = Ok y /\ P x y) ->
  exists ys, mapM f l = Ok ys /\ Forall2 P l ys.
Proof.
  induction l as [|x l IH]; intros H.
  - exists []. split; [reflexivity | constructor].
  - destruct (H x (or_introl eq_refl)) as (y & Hy & Hp).
    destruct IH as (ys & Hys & Hall); [intros z Hz; apply H; right; exact Hz|].
    exists (y :: ys). split; [|constructor; assumption].
    cbn [mapM]. rewrite Hy. cbn [bind]. rewrite Hys. reflexivity.
Qed.

Lemma Forall2_In_right {A B} (R : A -> B -> Prop) l l' y :
  Forall2 R l l' -> In y l' -> exists x, In x l /\ R x y.
Proof.
  induction 1 as [|a b l l' Hab _ IH]; intros Hin; [contradiction|].
  destruct Hin as [<- | Hin].
  - exists a. split; [left; reflexivity | exact Hab].
  - destruct (IH Hin) as (x & Hx & Hxy). exists x. split; [right; exact Hx | exact Hxy].
Qed.

Lemma runs_from_shift m runs : forall k n,
  runs_from k runs n ->
  runs_from (k + m) (map (fun p : bool * UnitRange => (fst p, UnitRange_add (snd p) m)) runs)
    (n + m).
Proof.
  induction runs as [|[v r] runs IH]; intros k n H.
  - simpl in *. lia.
  - apply runs_from_head in H. destruct H as (e & -> & Hlt & Hr).
    cbn [map fst snd runs_from]. unfold UnitRange_add. cbn [start stop Bound_add].
    rewrite UnitRange_make_lt by lia. cbn [start stop].
    split; [reflexivity|]. exists (e + m). split; [reflexivity|]. split; [lia|].
    apply IH. exact Hr.
Qed.

Lemma runs_from_bounds runs : forall k n v r,
  runs_from k runs n -> In (v, r) runs ->
  exists a b, r = mkUnitRange (Int a) (Int b) /\ k <= a /\ a < b /\ b <= n.
Proof.
  induction runs as [|[v1 r1] runs IH]; intros k n v r H Hin; [contradiction|].
  apply runs_from_head in H. destruct H as (e & -> & Hlt & Hr).
  pose proof (runs_from_le _ _ _ Hr) as Hle.
  destruct Hin as [Heq | Hin].
  - injection Heq as <- <-. exists k, e. repeat split; lia.
  - destruct (IH e n v r Hr Hin) as (a & b & -> & H1 & H2 & H3).
    exists a, b. repeat split; lia.
Qed.

Lemma runs_from_cover runs : forall k n x,
  runs_from k runs n -> k <= x < n ->
  exists v r, In (v, r) runs /\ UnitRange_contains r x = true.
Proof.
  induction runs as [|[v1 r1] runs IH]; intros k n x H Hx; [simpl in H; lia|].
  apply runs_from_head in H. destruct H as (e & -> & Hlt & Hr).
  destruct (Z_lt_dec x e) as [Hxe | Hxe].
  - exists v1, (mkUnitRange (Int k) (Int e)). split; [left; reflexivity|].
    apply UnitRange_contains_Int. lia.
  - destruct (IH e n x Hr) as (v & r & Hin & Hc); [lia|].
    exists v, r. split; [right; exact Hin | exact Hc].
Qed.

Lemma _trim_empty_domains_none_empty (lst : list (bool * Domain)) :
  Forall (fun x => Domain_is_empty (snd x) = false) lst -> _trim_empty_domains lst = lst.
Proof.
  intros Hall. funelim (_trim_empty_domains lst); try reflexivity.
  - inversion Hall; subst. congruence.
  - rewrite Forall_forall in Hall.
    assert (Hin : In (last (x :: l) x) (x :: l)).
    { destruct (@exists_last _ (x :: l)) as (l' & y & Hy); [discriminate|].
      rewrite Hy, last_last. apply in_or_app. right. left. reflexivity. }
    apply Hall in Hin. congruence.
Qed.

Lemma relative_range_to_domain D m0 m1 (runs : list (bool * UnitRange)) :
  mapM (fun p : bool * UnitRange =>
          let (mask, relative_range) := p in
          d <- _relative_ranges_to_domain [relative_range]
                 [(D, mkUnitRange (Int m0) (Int m1))] ;;
          Ok (mask, d))
       runs
  = Ok (map (fun p : bool * UnitRange => (fst p, [(D, UnitRange_add (snd p) m0)])) runs).
Proof.
  apply mapM_Ok. intros [v r] _. unfold _relative_ranges_to_domain.
  cbn [ranges dims map fst snd combine mapM start bind].
  unfold Domain_of_dims_ranges, Domain_make.
  cbn [length Nat.eqb assert bind combine map fst unique_dims mem_dim existsb negb andb].
  reflexivity.
Qed.

Lemma _intersect_fields_one_dimension D tf ff rt rf :
  exact_field tf -> exact_field ff ->
  domain tf = [(D, rt)] -> domain ff = [(D, rf)] ->
  exists tf' ff',
    _intersect_fields [VField tf; VField ff] [D] = Ok [tf'; ff']
    /\ (domain tf' = domain tf /\ exact_field tf' /\ field_dtype tf' = field_dtype tf
        /\ forall p, in_domain (domain tf) p -> field_at tf' p = field_at tf p)
    /\ (domain ff' = domain ff /\ exact_field ff' /\ field_dtype ff' = field_dtype ff
        /\ forall p, in_domain (domain ff) p -> field_at ff' p = field_at ff p).
Proof.
  intros Hext Hexf Hdt Hdf.
  destruct (intersect_own_domain Hext) as (tf' & Ht & Ht').
  destruct (intersect_own_domain Hexf) as (ff' & Hf & Hf').
  exists tf', ff'. split; [|split; assumption].
  unfold _intersect_fields.
  cbn [_get_nd_array_class existsb orb bind field_domains flat_map app map].
  assert (Hprom : promote_dims [dims (domain tf); dims (domain ff)] = [D]).
  { rewrite Hdt, Hdf. unfold promote_dims. cbn [dims map fst fold_left promote_dims_into
      mem_dim existsb app]. rewrite Dimension_eqb_refl. reflexivity. }
  rewrite Hprom. cbn [mapM _to_field bind].
  assert (Hbt : _broadcast tf [D] = Ok tf).
  { unfold _broadcast. rewrite Hdt. cbn [dims map fst]. rewrite dims_eqb_refl. reflexivity. }
  assert (Hbf : _broadcast ff [D] = Ok ff).
  { unfold _broadcast. rewrite Hdf. cbn [dims map fst]. rewrite dims_eqb_refl. reflexivity. }
  rewrite Hbt, Hbf. cbn [bind map].
  assert (Hri : restrict_to_intersection [domain tf; domain ff] [D]
                = Ok [domain tf; domain ff]).
  { unfold restrict_to_intersection. rewrite Hdt, Hdf.
    cbn [mapM fst mem_dim existsb]. rewrite Dimension_eqb_refl. cbn [orb bind].
    unfold Domain_make. cbn [map fst unique_dims mem_dim existsb negb andb bind].
    reflexivity. }
  rewrite Hri. cbn [bind length Nat.eqb combine mapM].
  rewrite Ht. cbn [bind]. rewrite Hf. reflexivity.
Qed.

Lemma existsb_none {A} (f : A -> bool) l :
  Forall (fun x => f x = false) l -> existsb f l = false.
Proof. induction 1 as [|x l H _ IH]; simpl; [reflexivity | rewrite H, IH; reflexivity]. Qed.

Lemma Forall2_flip_maps {A B C E} (G : A -> B) (G' : A -> C) (P : B -> E -> Prop)
  (Q : E -> C -> Prop) l : forall ys,
  (forall a y, In a l -> P (G a) y -> Q y (G' a)) ->
  Forall2 P (map G l) ys -> Forall2 Q ys (map G' l).
Proof.
  induction l as [|a l IH]; intros ys H Hall; inversion Hall; subst; constructor.
  - apply H; [left; reflexivity | assumption].
  - apply IH; [intros a' y' Hin; apply H; right; exact Hin | assumption].
Qed.

Lemma intersection_with_inner D x0 x1 a b :
  x0 <= a -> a < b -> b <= x1 ->
  domain_intersection [[(D, mkUnitRange (Int x0) (Int x1))]; [(D, mkUnitRange (Int a) (Int b))]]
  = [(D, mkUnitRange (Int a) (Int b))].
Proof.
  intros H1 H2 H3. rewrite intersection_of_two_ranges by lia.
  rewrite Z.max_r, Z.min_r by lia. rewrite UnitRange_make_lt by lia. reflexivity.
Qed.

Lemma _concat_where_on_cover D m0 m1 t0 t1 f0 f1 mask tf ff :
  exact_field mask -> exact_field tf -> exact_field ff ->
  domain mask = [(D, mkUnitRange (Int m0) (Int m1))] ->
  domain tf = [(D, mkUnitRange (Int t0) (Int t1))] ->
  domain ff = [(D, mkUnitRange (Int f0) (Int f1))] ->
  m0 < m1 -> t0 <= m0 -> m1 <= t1 -> f0 <= m0 -> m1 <= f1 ->
  field_dtype ff = field_dtype tf ->
  exists g,
    _concat_where mask (VField tf) (VField ff) = Ok g
    /\ domain g = [(D, mkUnitRange (Int m0) (Int m1))]
    /\ exact_field g
    /\ field_dtype g = field_dtype tf
    /\ forall v, m0 <= v < m1 ->
         field_at g [v]
         = if truth (field_at mask [v]) then field_at tf [v] else field_at ff [v].
Proof.
  intros Hexm Hext Hexf Hdm Hdt Hdf Hm Ht0 Ht1 Hf0 Hf1 Hdtype.
  destruct (@_intersect_fields_one_dimension D tf ff _ _ Hext Hexf Hdt Hdf)
    as (tf' & ff' & Hint & (Hdt' & Hext' & Hdtt & Hvt) & (Hdf' & Hexf' & Hdtf & Hvf)).
  assert (Hshm : shape (_ndarray mask) = [Z.to_nat (m1 - m0)]).
  { destruct Hexm as (_ & _ & Hsh). rewrite Hdm in Hsh. cbn in Hsh.
    injection Hsh as Hsh. symmetry. exact Hsh. }
  destruct (@_compute_mask_ranges_spec (_ndarray mask) (Z.to_nat (m1 - m0)) Hshm)
    as (runs & Hruns & Hfrom & _ & Hhold); [lia|].
  rewrite Z2Nat.id in Hfrom by lia.
  set (L := map (fun p : bool * UnitRange => (fst p, [(D, UnitRange_add (snd p) m0)])) runs).
  set (sruns := map (fun p : bool * UnitRange => (fst p, UnitRange_add (snd p) m0)) runs).
  assert (Hsfrom : runs_from m0 sruns m1).
  { pose proof (runs_from_shift m0 _ _ _ Hfrom) as H. 
    replace (0 + m0) with m0 in H by lia. replace (m1 - m0 + m0) with m1 in H by lia.
    exact H. }
  unfold _concat_where.
  cbn [_get_nd_array_class existsb orb bind]. rewrite Hdm. cbn [dims map fst].
  rewrite Hint. cbn [bind]. unfold ndarray_of at 1. rewrite Hruns. cbn [bind].
  rewrite relative_range_to_domain. cbn [bind]. fold L.
  assert (Hshift : forall v r, In (v, r) runs ->
            exists a b, r = mkUnitRange (Int a) (Int b) /\ 0 <= a /\ a < b /\ b <= m1 - m0
                        /\ UnitRange_add r m0 = mkUnitRange (Int (a + m0)) (Int (b + m0))).
  { intros v r Hin. destruct (runs_from_bounds _ _ _ _ _ Hfrom Hin) as (a & b & -> & H1 & H2 & H3).
    exists a, b. repeat split; try lia.
    unfold UnitRange_add. cbn [start stop Bound_add]. apply UnitRange_make_lt. lia. }
  assert (HL : map (fun p : bool * Domain =>
                      let (mask_value, mask_domain) := p in
                      (mask_value,
                       domain_intersection
                         [if mask_value then domain tf' else domain ff'; mask_domain])) L
               = L).
  { unfold L. rewrite map_map. apply map_ext_in. intros [v r] Hin. cbn [fst snd].
    destruct (Hshift v r Hin) as (a & b & _ & H1 & H2 & H3 & ->).
    f_equal. destruct v.
    - rewrite Hdt', Hdt. apply intersection_with_inner; lia.
    - rewrite Hdf', Hdf. apply intersection_with_inner; lia. }
  rewrite HL.
  assert (Hne : Forall (fun x : bool * Domain => Domain_is_empty (snd x) = false) L).
  { unfold L. apply Forall_forall. intros x Hx. apply in_map_iff in Hx.
    destruct Hx as ([v r] & <- & Hin). cbn [fst snd].
    destruct (Hshift v r Hin) as (a & b & _ & H1 & H2 & H3 & ->).
    unfold Domain_is_empty, UnitRange_is_empty. cbn [ranges map snd existsb start stop].
    replace (b + m0 <=? a + m0) with false by (symmetry; apply Z.leb_gt; lia). reflexivity. }
  rewrite (_trim_empty_domains_none_empty Hne).
  rewrite (existsb_none (fun p : bool * Domain => Domain_is_empty (snd p)) Hne).
  set (dt := field_dtype tf).
  destruct (@mapM_exists _ _
              (fun p : bool * Domain =>
                 let (v, d) := p in restrict (if v then tf' else ff') (Domain_as_index d))
              (fun (p : bool * Domain) g =>
                 exact_field g /\ field_dtype g = dt /\ domain g = snd p
                 /\ forall pt, in_domain (snd p) pt ->
                      field_at g pt = field_at (if fst p then tf' else ff') pt)
              L)
    as (gs & Hgs & Hall).
  { intros x Hx. unfold L in Hx. apply in_map_iff in Hx.
    destruct Hx as ([v r] & <- & Hin). cbn [fst snd].
    destruct (Hshift v r Hin) as (a & b & _ & H1 & H2 & H3 & ->).
    assert (Hsub : forall x0 x1 (h : NdArrayField),
              domain h = [(D, mkUnitRange (Int x0) (Int x1))] -> x0 <= m0 -> m1 <= x1 ->
              sub_domain_of (domain h) [(D, mkUnitRange (Int (a + m0)) (Int (b + m0)))]).
    { intros x0 x1 h Hh Hx0 Hx1. rewrite Hh. split; [reflexivity|]. split.
      - cbn [ranges map snd]. constructor; [|constructor].
        unfold UnitRange_canonical. cbn [start stop]. apply UnitRange_make_lt. lia.
      - cbn [ranges map snd]. constructor; [|constructor].
        apply sub_range_le. exists x0, x1, (a + m0), (b + m0). repeat split; lia. }
    destruct v.
    - destruct (restrict_to_sub_domain Hext'
                  (Hsub t0 t1 tf' (eq_trans Hdt' Hdt) Ht0 Ht1))
        as (g & Hg & Hd & Hex & Hdtg & Hval).
      exists g. split; [exact Hg|]. split; [exact Hex|].
      split; [unfold dt; congruence|]. split; [exact Hd | exact Hval].
    - destruct (restrict_to_sub_domain Hexf'
                  (Hsub f0 f1 ff' (eq_trans Hdf' Hdf) Hf0 Hf1))
        as (g & Hg & Hd & Hex & Hdtg & Hval).
      exists g. split; [exact Hg|]. split; [exact Hex|].
      split; [unfold dt; congruence|]. split; [exact Hd | exact Hval]. }
  rewrite Hgs. cbn [bind].
  assert (Hpieces : Forall2 (fun (g : NdArrayField) (vr : bool * UnitRange) =>
                               exact_field g /\ field_dtype g = dt
                               /\ domain g = [(D, snd vr)]) gs sruns).
  { unfold sruns. unfold L in Hall.
    eapply Forall2_flip_maps; [|exact Hall].
    intros [v r] g _ (Hex & Hdtg & Hd & _). cbn [fst snd] in *. auto. }
  destruct gs as [|g0 gs].
  { exfalso. inversion Hpieces as [Hnil|]. unfold sruns in Hnil.
    destruct runs; [simpl in Hfrom; lia | discriminate]. }
  destruct (@_concat_tiling D dt g0 gs sruns m0 m1 Hpieces Hsfrom)
    as (g & Hg & Hdg & Hexg & Hdtg & Hvalg).
  exists g. split; [exact Hg|]. split; [exact Hdg|]. split; [exact Hexg|].
  split; [exact Hdtg|].
  intros v Hv.
  destruct (@runs_from_cover runs 0 (m1 - m0) (v - m0) Hfrom ltac:(lia))
    as (b & r & Hin & Hc).
  destruct (Hshift b r Hin) as (a & e & -> & H1 & H2 & H3 & Hadd).
  apply UnitRange_contains_Int in Hc.
  assert (HinL : In (b, [(D, mkUnitRange (Int (a + m0)) (Int (e + m0)))]) L).
  { unfold L. apply in_map_iff. exists (b, mkUnitRange (Int a) (Int e)).
    cbn [fst snd]. rewrite Hadd. split; [reflexivity | exact Hin]. }
  destruct (@Forall2_In_left _ _ _ _ _ _ Hall HinL) as (gi & Hgi & Hexi & Hdti & Hdi & Hvi).
  cbn [fst snd] in Hdi, Hvi.
  assert (Hpt : in_domain [(D, mkUnitRange (Int (a + m0)) (Int (e + m0)))] [v]).
  { constructor; [|constructor]. apply UnitRange_contains_Int. lia. }
  rewrite (Hvalg gi v Hgi) by (rewrite Hdi; exact Hpt).
  rewrite (Hvi [v] Hpt).
  assert (Hmask : truth (field_at mask [v]) = b).
  { unfold field_at, relative. rewrite Hdm. cbn [ranges map snd combine fst start].
    apply (Hhold b (mkUnitRange (Int a) (Int e)) (Z.to_nat (v - m0)) Hin).
    apply UnitRange_contains_Int. lia. }
  rewrite Hmask. destruct b.
  - apply Hvt. rewrite Hdt. constructor; [|constructor]. apply UnitRange_contains_Int. lia.
  - apply Hvf. rewrite Hdf. constructor; [|constructor]. apply UnitRange_contains_Int. lia.
Qed.

(** X25: [concat_where] with a one-dimensional mask that is not empty and
    two fields of one dtype over the dimension of the mask whose ranges
    cover the range of the mask.  The result is the field over the domain of
    the mask that has, at every point, the value of the true field where the
    mask holds and the value of the false field where it does not. *)
Theorem _concat_where_pointwise D m0 m1 t0 t1 f0 f1 mask tf ff :
  exact_field mask -> exact_field tf -> exact_field ff ->
  domain mask = [(D, mkUnitRange (Int m0) (Int m1))] ->
  domain tf = [(D, mkUnitRange (Int t0) (Int t1))] ->
  domain ff = [(D, mkUnitRange (Int f0) (Int f1))] ->
  m0 < m1 -> t0 <= m0 -> m1 <= t1 -> f0 <= m0 -> m1 <= f1 ->
  field_dtype ff = field_dtype tf ->
  exists g,
    _concat_where mask (VField tf) (VField ff) = Ok g
    /\ domain g = [(D, mkUnitRange (Int m0) (Int m1))]
    /\ exact_field g
    /\ field_dtype g = field_dtype tf
    /\ forall v, m0 <= v < m1 ->
         field_at g [v]
         = if truth (field_at mask [v]) then field_at tf [v] else field_at ff [v].
Proof. apply _concat_where_on_cover. Qed.

Lemma _concat_where_pointwise_witness :
  exists g,
    _concat_where mask_TTFFT (VField ones_field) (VField zeros_field) = Ok g
    /\ domain g = [(I_dim, mkUnitRange (Int 0) (Int 5))]
    /\ exact_field g
    /\ field_dtype g = field_dtype ones_field
    /\ forall v, 0 <= v < 5 ->
         field_at g [v]
         = if truth (field_at mask_TTFFT [v])
           then field_at ones_field [v] else field_at zeros_field [v].
Proof.
  apply (@_concat_where_pointwise I_dim 0 5 0 5 0 5 mask_TTFFT ones_field zeros_field).
  - repeat split; try reflexivity. repeat constructor.
  - repeat split; try reflexivity. repeat constructor.
  - repeat split; try reflexivity. repeat constructor.
  - reflexivity.
  - reflexivity.
  - reflexivity.
  - lia.
  - lia.
  - lia.
  - lia.
  - lia.
  - reflexivity.
Defined.

(** ** Minimum and maximum of two fields *)

(** X26: the builtins [minimum] and [maximum] on two fields over the same
    dimensions whose domains overlap.  The result lives on the intersection
    of the two domains, has the promoted dtype, and its value at every point
    of the intersection is the smaller (the larger) of the values of the two
    fields at that point, converted to that dtype. *)
Theorem minimum_maximum_pointwise f g :
  exact_field f -> exact_field g -> dims (domain g) = dims (domain f) ->
  DType_eqb (field_dtype f) Float64DType = false ->
  DType_eqb (field_dtype g) Float64DType = false ->
  Domain_is_empty (domain_intersection [domain f; domain g]) = false ->
  (exists h,
     minimum (VField f) (VField g) = Ok h
     /\ domain h = domain_intersection [domain f; domain g]
     /\ field_dtype h = result_type [field_dtype f; field_dtype g]
     /\ forall p, in_domain (domain h) p ->
          field_at h p = wrap (field_dtype h) (Z.min (field_at f p) (field_at g p)))
  /\ (exists h,
        maximum (VField f) (VField g) = Ok h
        /\ domain h = domain_intersection [domain f; domain g]
        /\ field_dtype h = result_type [field_dtype f; field_dtype g]
        /\ forall p, in_domain (domain h) p ->
             field_at h p = wrap (field_dtype h) (Z.max (field_at f p) (field_at g p))).
Proof.
  intros Hf Hg Hd Hff Hfg Hne. split.
  - destruct (@binary_builtin_pointwise "minimum" "minimum" Z.min f g Hf Hg Hd Hff Hfg Hne)
      as (h & H1 & H2 & _ & H3 & H4).
    + intros a b Ha Hb. unfold xp_getattr. simpl. rewrite Ha, Hb. reflexivity.
    + exists h. repeat split; assumption.
  - destruct (@binary_builtin_pointwise "maximum" "maximum" Z.max f g Hf Hg Hd Hff Hfg Hne)
      as (h & H1 & H2 & _ & H3 & H4).
    + intros a b Ha Hb. unfold xp_getattr. simpl. rewrite Ha, Hb. reflexivity.
    + exists h. repeat split; assumption.
Qed.

Lemma minimum_maximum_pointwise_witness :
  (exists h,
     minimum (VField field_A) (VField field_B) = Ok h
     /\ domain h = domain_intersection [domain field_A; domain field_B]
     /\ field_dtype h = result_type [field_dtype field_A; field_dtype field_B]
     /\ forall p, in_domain (domain h) p ->
          field_at h p = wrap (field_dtype h) (Z.min (field_at field_A p) (field_at field_B p)))
  /\ (exists h,
        maximum (VField field_A) (VField field_B) = Ok h
        /\ domain h = domain_intersection [domain field_A; domain field_B]
        /\ field_dtype h = result_type [field_dtype field_A; field_dtype field_B]
        /\ forall p, in_domain (domain h) p ->
             field_at h p
             = wrap (field_dtype h) (Z.max (field_at field_A p) (field_at field_B p))).
Proof.
  apply (@minimum_maximum_pointwise field_A field_B).
  - repeat split; try reflexivity. repeat constructor.
  - repeat split; try reflexivity. repeat constructor.
  - reflexivity.
  - reflexivity.
  - reflexivity.
  - reflexivity.
Defined.

(** ** What [from_array] accepts *)

(** X27: [from_array] without a dtype accepts an array for a domain exactly
    when the array has one axis per dimension and every axis has the length
    of the range of its dimension or the length one; an axis of length one
    is accepted for every range, also an infinite one.  The field it returns
    holds the domain and the array as they were given, and an array whose
    rank is not the number of dimensions fails the assertion. *)
Theorem from_array_accepts data dom :
  ((exists f, from_array data dom None = Ok f)
   <-> length dom = length (shape data)
       /\ Forall2 (fun r n => n = 1%nat \/ UnitRange_len r = Ok n) (ranges dom) (shape data))
  /\ (forall f, from_array data dom None = Ok f -> domain f = dom /\ _ndarray f = data)
  /\ (length dom <> length (shape data) ->
      from_array data dom None = Raise (AssertionError "")).
Proof.
  split; [split|split].
  - intros (f & H). unfold from_array in H. cbn [asarray bind] in H.
    destruct (length dom =? length (shape data))%nat eqn:E; cbn [assert bind] in H;
      [|discriminate].
    apply Nat.eqb_eq in E. split; [exact E|].
    apply shape_matches_Forall2.
    + unfold ranges. rewrite length_map. exact E.
    + destruct (shape_matches (ranges dom) (shape data)) as [[|]|]; cbn [assert bind] in H;
        [reflexivity | discriminate | discriminate].
  - intros (Hlen & Hall). eexists. apply from_array_Ok; [exact Hlen|].
    apply Forall2_shape_matches. exact Hall.
  - intros f H. apply from_array_Ok_inv in H. subst f. split; reflexivity.
  - intros Hne. unfold from_array. cbn [asarray bind].
    replace (length dom =? length (shape data))%nat with false
      by (symmetry; apply Nat.eqb_neq; exact Hne).
    reflexivity.
Qed.

(** ** Assignment of a scalar *)

Lemma broadcast_scalar_to dt z sh :
  broadcast_to (scalar_array (mkScalar dt z)) sh = Ok (build dt sh (fun _ => z)).
Proof.
  unfold broadcast_to. cbn [scalar_array shape dtype].
  rewrite broadcast_shapes_nil_l. cbn [bind].
  unfold list_nat_eqb. destruct (list_eq_dec Nat.eq_dec sh sh) as [_|Hne]; [|congruence].
  reflexivity.
Qed.

Lemma setitem_scalar_on_sub_domain self d z :
  exact_field self -> sub_domain_of (domain self) d ->
  exists self',
    __setitem__ self (Domain_as_index d) (AScalar (mkScalar (field_dtype self) z)) = Ok self'
    /\ domain self' = domain self
    /\ exact_field self'
    /\ field_dtype self' = field_dtype self
    /\ (forall p, in_domain d p -> field_at self' p = z)
    /\ (forall p, in_domain (domain self) p -> ~ in_domain d p ->
                  field_at self' p = field_at self p).
Proof.
  intros Hex Hsubd.
  pose proof (exact_field_axes Hex) as Hax.
  pose proof (@sub_ranges_of _ _ _ Hax Hsubd) as Hsub.
  assert (Hnd : NoDup (dims (domain self)))
    by (apply unique_dims_NoDup; apply Hex).
  pose proof (axes_shape Hax) as Hsh.
  set (pl := map (fun q => sub_sel (fst q) (snd q))
                 (combine (ranges (domain self)) (ranges d))).
  set (new := build (dtype (_ndarray self)) (shape (_ndarray self))
                (fun q => match plan_target pl q with
                          | Some r => item (build (dtype (_ndarray self))
                                              (map range_len (ranges d)) (fun _ => z)) r
                          | None => item (_ndarray self) q
                          end)).
  assert (Hset : __setitem__ self (Domain_as_index d)
                   (AScalar (mkScalar (field_dtype self) z))
                 = Ok (mkNdArrayField (_domain self) new)).
  { unfold __setitem__, _slice.
    rewrite (@sub_domain_sub _ _ Hnd Hsubd). cbn [bind].
    rewrite (@_get_slices_sub _ _ Hnd (proj1 Hsubd) Hsub). cbn [bind].
    unfold setitem. rewrite (@index_plan_sub _ _ _ Hax Hsub). cbn [bind].
    rewrite (@plan_shape_sub _ _ Hsub).
    cbn [scalar_array shape length].
    match goal with |- context [(?n <? 0)%nat] =>
      replace (n <? 0)%nat with false by (symmetry; apply Nat.ltb_ge; lia) end.
    cbn [bind].
    unfold field_dtype, asarray. cbn [dtype]. rewrite DType_eqb_refl. cbn [bind].
    change (mk_ndarray (dtype (_ndarray self)) [] [z])
      with (scalar_array (mkScalar (dtype (_ndarray self)) z)).
    rewrite broadcast_scalar_to. cbn [bind]. reflexivity. }
  exists (mkNdArrayField (_domain self) new).
  split; [exact Hset | split; [reflexivity | split; [|split; [reflexivity | split]]]].
  - split; [apply Hex | split; [apply wf_build | apply Hex]].
  - intros p Hp. unfold field_at. cbn [domain _domain _ndarray]. unfold new.
    rewrite item_build.
    + unfold relative, pl, domain in *.
      rewrite (@plan_target_sub_in _ _ _ Hsub Hp).
      rewrite item_build; [reflexivity|].
      apply relative_in_bounds; [exact Hp | apply (@sub_range_finite _ _ Hsub)].
    + rewrite Hsh. apply relative_in_bounds.
      * apply (@in_domain_sub _ _ _ Hsub Hp).
      * apply (axes_finite Hax).
  - intros p Hp Hout. unfold field_at. cbn [domain _domain _ndarray]. unfold new.
    rewrite item_build.
    + unfold in_domain, relative, pl, domain in *.
      rewrite (@plan_target_sub_out _ _ _ Hsub Hp Hout). reflexivity.
    + rewrite Hsh. apply relative_in_bounds; [exact Hp | apply (axes_finite Hax)].
Qed.

(** X28: assignment of a scalar of the dtype of the field to a sub-domain,
    [f[d] = z].  The field keeps its domain and dtype; afterwards it has the
    value [z] at every point of [d] and its old value at every other point
    of its domain. *)
Theorem setitem_scalar_fills self d z :
  exact_field self -> sub_domain_of (domain self) d ->
  exists self',
    __setitem__ self (Domain_as_index d) (AScalar (mkScalar (field_dtype self) z)) = Ok self'
    /\ domain self' = domain self
    /\ exact_field self'
    /\ field_dtype self' = field_dtype self
    /\ (forall p, in_domain d p -> field_at self' p = z)
    /\ (forall p, in_domain (domain self) p -> ~ in_domain d p ->
                  field_at self' p = field_at self p).
Proof. apply setitem_scalar_on_sub_domain. Qed.

Lemma setitem_scalar_fills_witness :
  exists self',
    __setitem__ field_A (Domain_as_index [named_range I_dim 1 3])
      (AScalar (mkScalar (field_dtype field_A) 7)) = Ok self'
    /\ domain self' = domain field_A
    /\ exact_field self'
    /\ field_dtype self' = field_dtype field_A
    /\ (forall p, in_domain [named_range I_dim 1 3] p -> field_at self' p = 7)
    /\ (forall p, in_domain (domain field_A) p -> ~ in_domain [named_range I_dim 1 3] p ->
                  field_at self' p = field_at field_A p).
Proof.
  apply (@setitem_scalar_fills field_A [named_range I_dim 1 3] 7).
  - repeat split; try reflexivity. repeat constructor.
  - repeat split; try reflexivity; repeat constructor.
Defined.
